(** * TaskFlow: task reconciliation and the local task store

    A shallow embedding of the client-side task manager
    (js/store/TaskManager.js), of the storage manager it persists through
    (js/store/StorageManager.js) and of the server's POST /sync route
    (server/routes/sync.js) up to the end of its create loop, with the
    properties the specification states about them; then the rest of the
    two managers and of the sync routes, with properties read off the
    code. *)

From Stdlib Require Import ZArith String Ascii List Lia Bool DecimalString
  Permutation Sorted.
From stdpp Require Import base tactics option list.
Import ListNotations.
Local Open Scope string_scope.
Set Warnings "-register-all".

(** ** JavaScript values

    Tasks are plain JavaScript objects and travel as JSON, so the model keeps
    them untyped: an object is the list of its own properties in insertion
    order (JavaScript lists integer-like keys first; task properties have
    none).  Numbers are the integers (time values, counters). *)

Inductive JSValue : Type :=
| JUndefined
| JNull
| JBool (b : bool)
| JNum (n : Z)
| JStr (s : string)
| JArr (items : list JSValue)
| JObj (props : list (string * JSValue)).

(** ToBoolean. *)
Definition truthy (v : JSValue) : bool :=
  match v with
  | JUndefined | JNull => false
  | JBool b => b
  | JNum n => negb (n =? 0)%Z
  | JStr s => negb (s =? EmptyString)
  | JArr _ | JObj _ => true
  end.

(** [a || b] *)
Definition js_or (a b : JSValue) : JSValue := if truthy a then a else b.

(** [typeof v === 'object'] *)
Definition typeof_object (v : JSValue) : bool :=
  match v with
  | JNull | JArr _ | JObj _ => true
  | _ => false
  end.

Definition isArray (v : JSValue) : bool :=
  match v with JArr _ => true | _ => false end.

Definition nullish (v : JSValue) : bool :=
  match v with JUndefined | JNull => true | _ => false end.

Definition primitive (v : JSValue) : bool :=
  match v with JArr _ | JObj _ => false | _ => true end.

Fixpoint lookup_prop (k : string) (ps : list (string * JSValue)) : JSValue :=
  match ps with
  | [] => JUndefined
  | (k', v) :: ps' => if k' =? k then v else lookup_prop k ps'
  end.

(** [v.k] for one of the task property names, on a value that is neither
    [null] nor [undefined]: a missing property reads as [undefined]. *)
Definition get (v : JSValue) (k : string) : JSValue :=
  match v with
  | JObj ps => lookup_prop k ps
  | _ => JUndefined
  end.

(** [o[k] = v] on the property list: an existing key keeps its place. *)
Fixpoint set_prop (k : string) (v : JSValue) (ps : list (string * JSValue))
  : list (string * JSValue) :=
  match ps with
  | [] => [(k, v)]
  | (k', v') :: ps' =>
      if k' =? k then (k, v) :: ps' else (k', v') :: set_prop k v ps'
  end.

(** The decimal numeral of an array index. *)
Definition index_key (i : nat) : string :=
  NilZero.string_of_uint (Nat.to_uint i).

Fixpoint index_props (i : nat) (items : list JSValue)
  : list (string * JSValue) :=
  match items with
  | [] => []
  | v :: items' => (index_key i, v) :: index_props (S i) items'
  end.

Fixpoint char_props (i : nat) (s : string) : list (string * JSValue) :=
  match s with
  | EmptyString => []
  | String c s' =>
      (index_key i, JStr (String c EmptyString)) :: char_props (S i) s'
  end.

(** Own enumerable properties, as object spread copies them: the indexed
    elements of an array or a string, none for the other primitives. *)
Definition own_props (v : JSValue) : list (string * JSValue) :=
  match v with
  | JObj ps => ps
  | JArr items => index_props 0 items
  | JStr s => char_props 0 s
  | _ => []
  end.

(** [{...a, ...b}] continued: the properties [qs] written over [ps]. *)
Definition spread (ps qs : list (string * JSValue)) : list (string * JSValue) :=
  fold_left (fun acc kv => set_prop (fst kv) (snd kv) acc) qs ps.

(** [a === b], which on these values is also the SameValueZero comparison a
    [Map] uses for its keys.  Primitives compare by value; two objects are
    equal only when they are one object, and the objects of the model, each
    a value of its own, never are. *)
Definition strict_equal (a b : JSValue) : bool :=
  match a, b with
  | JUndefined, JUndefined => true
  | JNull, JNull => true
  | JBool x, JBool y => Bool.eqb x y
  | JNum x, JNum y => (x =? y)%Z
  | JStr x, JStr y => (x =? y)
  | _, _ => false
  end.

(** ** Strings: [String.prototype.trim] *)

(** White space and line terminators among the characters of the model:
    TAB, LF, VT, FF, CR and SPACE. *)
Definition is_space (c : ascii) : bool :=
  let n := nat_of_ascii c in
  (((9 <=? n) && (n <=? 13)) || (n =? 32))%nat.

Fixpoint trim_start (s : string) : string :=
  match s with
  | EmptyString => EmptyString
  | String c s' => if is_space c then trim_start s' else s
  end.

Fixpoint rev_string (s acc : string) : string :=
  match s with
  | EmptyString => acc
  | String c s' => rev_string s' (String c acc)
  end.

Definition trim (s : string) : string :=
  rev_string (trim_start (rev_string (trim_start s) EmptyString)) EmptyString.

(** ** The platform

    What the browser and the JavaScript engine provide and the repository
    only calls: date parsing, the JSON codec and the IndexedDB object store
    [tasks] (key path [id]). *)

Class Platform : Type := {
  (** [new Date(v).getTime()], [None] for an Invalid Date (NaN). *)
  Date_value : JSValue -> option Z;
  JSON_stringify : JSValue -> string;
  (** [None] when [JSON.parse] throws a SyntaxError. *)
  JSON_parse : string -> option JSValue;
  IDBDatabase : Type;
  (** [store.getAll()]: the records on success, [None] when the request
      fires [onerror]. *)
  idb_getAll : IDBDatabase -> option (list JSValue);
  (** One read-write transaction doing [store.clear()] and then
      [store.add(task)] for each task: the new store when the transaction
      completes, [None] when it fires [onerror] and is rolled back. *)
  idb_clear_add : IDBDatabase -> list JSValue -> option IDBDatabase;
  (** [store.clear()] alone. *)
  idb_clear : IDBDatabase -> option IDBDatabase
}.

(** Date objects compare through their time values; any comparison with NaN
    is false. *)
Definition date_ge (a b : option Z) : bool :=
  match a, b with
  | Some x, Some y => (y <=? x)%Z
  | _, _ => false
  end.

Definition date_gt (a b : option Z) : bool :=
  match a, b with
  | Some x, Some y => (y <? x)%Z
  | _, _ => false
  end.

(** ** Exceptions and results *)

Inductive Exn : Type :=
| Error (message : string)
| TypeError
| SyntaxError
| DOMException (name : string)
| NetworkError.

Inductive Result (A : Type) : Type :=
| Ok (a : A)
| Throw (e : Exn).
Arguments Ok {A} a.
Arguments Throw {A} e.

#[export] Instance Result_ret : MRet Result := fun A a => Ok a.
#[export] Instance Result_bind : MBind Result := fun A B f r =>
  match r with
  | Ok a => f a
  | Throw e => Throw e
  end.

(** What the PostgreSQL client provides to the /sync route. *)
Class Postgres : Type := {
  Database : Type;
  (** The query of the create loop,
      [INSERT INTO tasks (...) VALUES (...) ON CONFLICT (id) DO NOTHING
       RETURNING *], run for [task] of the user [userId]: the database
      afterwards with the rows returned, or what the query throws. *)
  insert_task : Database -> JSValue -> JSValue ->
                Result (Database * list JSValue)
}.

(** Property read that throws on [null] and [undefined], as JavaScript
    does. *)
Definition prop (v : JSValue) (k : string) : Result JSValue :=
  if nullish v then Throw TypeError else Ok (get v k).

(** [v.trim()]: only strings have the method. *)
Definition call_trim (v : JSValue) : Result string :=
  match v with
  | JStr s => Ok (trim s)
  | _ => Throw TypeError
  end.

(** ** [Map]: insertion-ordered, keys compared by SameValueZero *)

Definition JSMap : Type := list (JSValue * JSValue).

Fixpoint map_get (k : JSValue) (m : JSMap) : JSValue :=
  match m with
  | [] => JUndefined
  | (k', v) :: m' => if strict_equal k' k then v else map_get k m'
  end.

Fixpoint map_has (k : JSValue) (m : JSMap) : bool :=
  match m with
  | [] => false
  | (k', _) :: m' => strict_equal k' k || map_has k m'
  end.

Fixpoint map_set (k v : JSValue) (m : JSMap) : JSMap :=
  match m with
  | [] => [(k, v)]
  | (k', v') :: m' =>
      if strict_equal k' k then (k', v) :: m' else (k', v') :: map_set k v m'
  end.

Definition map_values (m : JSMap) : list JSValue := map snd m.

(** ** The world of the client

    The state the methods of [TaskManager] and [StorageManager] read and
    write, with the part of the browser they reach.  Event listeners
    ([emit]) belong to the user interface and are left out. *)

(** Requests handed to [apiClient]. *)
Inductive ApiCall : Type :=
| ApiGetTasks
| ApiCreateTask (task : JSValue)
| ApiUpdateTask (taskId task : JSValue).

Section Client.
Context `{Platform}.

Record World : Type := mkWorld {
  (** [TaskManager.tasks] *)
  tasks : list JSValue;
  (** [TaskManager.lastSyncTime] *)
  lastSyncTime : JSValue;
  (** [StorageManager.useIndexedDB] *)
  useIndexedDB : bool;
  (** [StorageManager.db]: the opened database, [None] for [null] *)
  db : option IDBDatabase;
  (** the [localStorage] item [taskflow_tasks], [None] when there is none *)
  localStorage : option string;
  (** how long a string [localStorage.setItem] accepts before it throws
      QuotaExceededError *)
  quota : N;
  (** what [new Date().toISOString()] returns *)
  clock : string;
  (** what [Math.random().toString(36).substr(2, 9) + '_' + Date.now()]
      returns *)
  entropy : string;
  (** the answer [apiClient.getTasks()] resolves to, [None] when it rejects *)
  server : option (list JSValue);
  (** the requests issued through [apiClient] so far, oldest first *)
  requests : list ApiCall
}.

Definition set_tasks (ts : list JSValue) (w : World) : World :=
  mkWorld ts (lastSyncTime w) (useIndexedDB w) (db w) (localStorage w)
          (quota w) (clock w) (entropy w) (server w) (requests w).

Definition set_lastSyncTime (t : JSValue) (w : World) : World :=
  mkWorld (tasks w) t (useIndexedDB w) (db w) (localStorage w)
          (quota w) (clock w) (entropy w) (server w) (requests w).

Definition set_db (d : option IDBDatabase) (w : World) : World :=
  mkWorld (tasks w) (lastSyncTime w) (useIndexedDB w) d (localStorage w)
          (quota w) (clock w) (entropy w) (server w) (requests w).

Definition set_localStorage (item : option string) (w : World) : World :=
  mkWorld (tasks w) (lastSyncTime w) (useIndexedDB w) (db w) item
          (quota w) (clock w) (entropy w) (server w) (requests w).

Definition add_request (c : ApiCall) (w : World) : World :=
  mkWorld (tasks w) (lastSyncTime w) (useIndexedDB w) (db w) (localStorage w)
          (quota w) (clock w) (entropy w) (server w) (requests w ++ [c]).

(** A method: it runs in a world, returns or throws, and leaves a world.
    What it changed before throwing stays changed. *)
Definition M (A : Type) : Type := World -> Result A * World.

#[export] Instance M_ret : MRet M := fun A a w => (Ok a, w).
#[export] Instance M_bind : MBind M := fun A B f m w =>
  match m w with
  | (Ok a, w') => f a w'
  | (Throw e, w') => (Throw e, w')
  end.

Definition throw {A} (e : Exn) : M A := fun w => (Throw e, w).

Definition lift {A} (r : Result A) : M A := fun w => (r, w).

(** [try { body } catch (error) { handler(error) }] *)
Definition try_catch {A} (body : M A) (handler : Exn -> M A) : M A :=
  fun w =>
    match body w with
    | (Ok a, w') => (Ok a, w')
    | (Throw e, w') => handler e w'
    end.

Definition read {A} (f : World -> A) : M A := fun w => (Ok (f w), w).

Definition write (f : World -> World) : M unit := fun w => (Ok tt, f w).

(** A loop over an array whose body updates local variables [s]. *)
Fixpoint foldM {S A} (body : S -> A -> M S) (s : S) (l : list A) : M S :=
  match l with
  | [] => mret s
  | x :: l' => s' ← body s x; foldM body s' l'
  end.

Fixpoint foldR {S A} (body : S -> A -> Result S) (s : S) (l : list A)
  : Result S :=
  match l with
  | [] => Ok s
  | x :: l' => s' ← body s x; foldR body s' l'
  end.

(** [apiClient.updateTask(id, task)], [apiClient.createTask(task)]: the
    request goes out; every caller here ignores how it ends. *)
Definition apiClient_updateTask (taskId task : JSValue) : M unit :=
  write (add_request (ApiUpdateTask taskId task)).

Definition apiClient_createTask (task : JSValue) : M unit :=
  write (add_request (ApiCreateTask task)).

Definition apiClient_getTasks : M (list JSValue) :=
  write (add_request ApiGetTasks);;
  reply ← read server;
  match reply with
  | Some ts => mret ts
  | None => throw NetworkError
  end.

(** ** TaskManager.mergeTasks *)

(** The callback of [localTasks.forEach]; [taskMap] is the variable both
    callbacks close over. *)
Definition addLocal (taskMap : JSMap) (task : JSValue) : M JSMap :=
  id ← lift (prop task "id");
  mret (map_set id task taskMap).

(** The callback of [serverTasks.forEach]. *)
Definition overrideWithServer (taskMap : JSMap) (task : JSValue) : M JSMap :=
  id ← lift (prop task "id");
  let localTask := map_get id taskMap in
  if negb (truthy localTask) then
    (* New task from server *)
    mret (map_set id task taskMap)
  else
    (* Conflict resolution: most recently updated wins *)
    su ← lift (prop task "updatedAt");
    let serverUpdated := Date_value su in
    lu ← lift (prop localTask "updatedAt");
    let localUpdated := Date_value lu in
    if date_ge serverUpdated localUpdated then
      mret (map_set id task taskMap)
    else
      (* Local version is newer, keep it but sync to server *)
      apiClient_updateTask id localTask;;
      mret taskMap.

Definition mergeTasks (localTasks serverTasks : list JSValue)
  : M (list JSValue) :=
  (* Add local tasks first *)
  taskMap ← foldM addLocal [] localTasks;
  (* Override with server tasks (server wins) *)
  taskMap ← foldM overrideWithServer taskMap serverTasks;
  mret (map_values taskMap).

(** ** StorageManager *)

Definition localStorage_getItem : M (option string) := read localStorage.

Definition localStorage_setItem (value : string) : M unit :=
  q ← read quota;
  if (N.of_nat (String.length value) <=? q)%N then
    write (set_localStorage (Some value))
  else throw (DOMException "QuotaExceededError").

Definition localStorage_removeItem : M unit := write (set_localStorage None).

Definition saveTasksIndexedDB (tasks : list JSValue) : M unit :=
  d ← read db;
  match d with
  | None => throw (Error "IndexedDB not initialized")
  | Some d =>
      match idb_clear_add d tasks with
      | Some d' => write (set_db (Some d'))
      | None => throw (DOMException "TransactionError")
      end
  end.

Definition loadTasksIndexedDB : M (list JSValue) :=
  d ← read db;
  match d with
  | None => throw (Error "IndexedDB not initialized")
  | Some d =>
      match idb_getAll d with
      | Some result => mret result
      | None => throw (DOMException "RequestError")
      end
  end.

Definition clearTasksIndexedDB : M unit :=
  d ← read db;
  match d with
  | None => throw (Error "IndexedDB not initialized")
  | Some d =>
      match idb_clear d with
      | Some d' => write (set_db (Some d'))
      | None => throw (DOMException "RequestError")
      end
  end.

(** The object [saveTasksLocalStorage] serialises. *)
Definition envelope (timestamp : string) (tasks : list JSValue) : JSValue :=
  JObj [("version", JStr "1.0");
        ("timestamp", JStr timestamp);
        ("tasks", JArr tasks)].

Definition saveTasksLocalStorage (tasks : list JSValue) : M unit :=
  try_catch
    (now ← read clock;
     let data := envelope now tasks in
     localStorage_setItem (JSON_stringify data))
    (fun error => throw error).

Definition loadTasksLocalStorage : M (list JSValue) :=
  try_catch
    (data ← localStorage_getItem;
     match data with
     | None => mret []
     | Some data =>
         if data =? EmptyString then mret []
         else
           match JSON_parse data with
           | None => throw SyntaxError
           | Some parsed =>
               (* Validate data structure *)
               if truthy parsed && truthy (get parsed "tasks") then
                 match get parsed "tasks" with
                 | JArr items => mret items
                 | _ => mret []
                 end
               else mret []
           end
     end)
    (fun error => mret []).

Definition clearTasksLocalStorage : M unit :=
  try_catch localStorage_removeItem (fun error => throw error).

(** Public interface *)
Definition saveTasks (tasks : list JSValue) : M unit :=
  idb ← read useIndexedDB;
  if (idb : bool) then saveTasksIndexedDB tasks else saveTasksLocalStorage tasks.

Definition loadTasks : M (list JSValue) :=
  idb ← read useIndexedDB;
  if (idb : bool) then loadTasksIndexedDB else loadTasksLocalStorage.

Definition clearTasks : M unit :=
  idb ← read useIndexedDB;
  if (idb : bool) then clearTasksIndexedDB else clearTasksLocalStorage.

(** The filter of [cleanup]:
    [task && typeof task === 'object' && task.id && task.title &&
     task.createdAt && task.updatedAt]. *)
Definition valid_entry (task : JSValue) : bool :=
  truthy task && typeof_object task &&
  truthy (get task "id") && truthy (get task "title") &&
  truthy (get task "createdAt") && truthy (get task "updatedAt").

Definition cleanup : M (list JSValue) :=
  try_catch
    (tasks ← loadTasks;
     (* Filter out invalid tasks *)
     let validTasks := List.filter valid_entry tasks in
     (* Save cleaned data if changes were made *)
     (if negb (length validTasks =? length tasks)%nat
      then saveTasks validTasks else (mret tt : M unit));;
     mret validTasks)
    (fun error => throw error).

(** ** TaskManager *)

Definition generateId : M JSValue :=
  e ← read entropy;
  mret (JStr ("task_" ++ e)).

Definition new_Date_toISOString : M JSValue :=
  now ← read clock;
  mret (JStr now).

(** [array.findIndex(predicate)], [None] standing for -1. *)
Fixpoint findIndex (predicate : JSValue -> Result bool) (l : list JSValue)
  (i : nat) : Result (option nat) :=
  match l with
  | [] => Ok None
  | t :: l' =>
      b ← predicate t;
      if (b : bool) then Ok (Some i) else findIndex predicate l' (S i)
  end.

Definition createTask (taskData : JSValue) : M JSValue :=
  id ← generateId;
  title ← lift (prop taskData "title");
  description ← lift (prop taskData "description");
  category ← lift (prop taskData "category");
  priority ← lift (prop taskData "priority");
  status ← lift (prop taskData "status");
  dueDate ← lift (prop taskData "dueDate");
  createdAt ← new_Date_toISOString;
  updatedAt ← new_Date_toISOString;
  let task := JObj [
    ("id", id);
    ("title", js_or title (JStr EmptyString));
    ("description", js_or description (JStr EmptyString));
    ("category", js_or category (JStr EmptyString));
    ("priority", js_or priority (JStr "Medium"));
    ("status", js_or status (JStr "todo"));
    ("dueDate", js_or dueDate JNull);
    ("createdAt", createdAt);
    ("updatedAt", updatedAt)] in
  (* Validate task *)
  trimmed ← lift (call_trim (get task "title"));
  if trimmed =? EmptyString then throw (Error "Task title is required")
  else
    (* Add to local tasks *)
    ts ← read tasks;
    write (set_tasks (ts ++ [task]));;
    (* Save to local storage *)
    ts ← read tasks;
    saveTasks ts;;
    (* Sync with server *)
    try_catch (apiClient_createTask task) (fun error => mret tt);;
    mret task.

(** [{ ...task, ...updates, updatedAt }] *)
Definition updatedTask_of (task updates updatedAt : JSValue) : JSValue :=
  JObj (set_prop "updatedAt" updatedAt
          (spread (spread [] (own_props task)) (own_props updates))).

Definition updateTask (taskId updates : JSValue) : M JSValue :=
  ts ← read tasks;
  taskIndex ← lift (findIndex (fun t =>
      id ← prop t "id"; mret (strict_equal id taskId)) ts 0);
  match taskIndex with
  | None => throw (Error "Task not found")
  | Some taskIndex =>
      (* Create updated task *)
      updatedAt ← new_Date_toISOString;
      let updatedTask :=
        updatedTask_of (nth taskIndex ts JUndefined) updates updatedAt in
      (* Validate updated task *)
      trimmed ← lift (call_trim (get updatedTask "title"));
      if trimmed =? EmptyString then throw (Error "Task title is required")
      else
        (* Update in local tasks *)
        ts ← read tasks;
        write (set_tasks (<[taskIndex := updatedTask]> ts));;
        (* Save to local storage *)
        ts ← read tasks;
        saveTasks ts;;
        (* Sync with server *)
        try_catch (apiClient_updateTask taskId updatedTask)
                  (fun error => mret tt);;
        mret updatedTask
  end.

(** [TaskManager.loadTasks] *)
Definition TaskManager_loadTasks : M (list JSValue) :=
  try_catch
    ((* Load from local storage first *)
     localTasks ← loadTasks;
     write (set_tasks localTasks);;
     read tasks)
    (fun error =>
     write (set_tasks []);;
     read tasks).

Definition syncWithServer : M (list JSValue) :=
  try_catch
    ((* Get server tasks *)
     serverTasks ← apiClient_getTasks;
     (* Merge with local tasks *)
     ts ← read tasks;
     mergedTasks ← mergeTasks ts serverTasks;
     (* Update local tasks *)
     write (set_tasks mergedTasks);;
     (* Save merged tasks to local storage *)
     ts ← read tasks;
     saveTasks ts;;
     now ← new_Date_toISOString;
     write (set_lastSyncTime now);;
     read tasks)
    (fun error => throw error).

End Client.

(** ** POST /sync (server/routes/sync.js)

    [serverTasks] are the rows of the user's tasks, [clientTasks] the array
    of the request body.  The merge phase, [sync_merge], ends before the
    first write to the database; the create loop follows it. *)

Section Server.
Context `{Platform}.

Record SyncPlan : Type := mkSyncPlan {
  mergedTasks : list JSValue;
  tasksToCreate : list JSValue;
  tasksToUpdate : list JSValue
}.

(** [new Map(tasks.map(task => [task.id, task]))] *)
Definition taskMap_of (tasks : list JSValue) : Result JSMap :=
  foldR (fun m task => id ← prop task "id"; mret (map_set id task m)) [] tasks.

(** The body of the loop over [clientTasks]. *)
Definition processClient (serverTaskMap : JSMap) (plan : SyncPlan)
  (clientTask : JSValue) : Result SyncPlan :=
  id ← prop clientTask "id";
  let serverTask := map_get id serverTaskMap in
  if negb (truthy serverTask) then
    (* Task exists only on client - create on server *)
    mret (mkSyncPlan (mergedTasks plan)
                     (tasksToCreate plan ++ [clientTask])
                     (tasksToUpdate plan))
  else
    (* Task exists on both - merge based on updated_at *)
    cu ← prop clientTask "updatedAt";
    let clientUpdated := Date_value cu in
    su ← prop serverTask "updatedAt";
    let serverUpdated := Date_value su in
    if date_gt clientUpdated serverUpdated then
      (* Client version is newer - update server *)
      mret (mkSyncPlan (mergedTasks plan ++ [clientTask])
                       (tasksToCreate plan)
                       (tasksToUpdate plan ++ [clientTask]))
    else
      (* Server version is newer or same - keep server version *)
      mret (mkSyncPlan (mergedTasks plan ++ [serverTask])
                       (tasksToCreate plan)
                       (tasksToUpdate plan)).

(** The body of the loop over [serverTasks]. *)
Definition processServer (clientTaskMap : JSMap) (plan : SyncPlan)
  (serverTask : JSValue) : Result SyncPlan :=
  id ← prop serverTask "id";
  if negb (map_has id clientTaskMap) then
    (* Task exists only on server - add to merged tasks *)
    mret (mkSyncPlan (mergedTasks plan ++ [serverTask])
                     (tasksToCreate plan)
                     (tasksToUpdate plan))
  else mret plan.

Definition sync_merge (clientTasks serverTasks : list JSValue)
  : Result SyncPlan :=
  (* Create maps for easier lookup *)
  serverTaskMap ← taskMap_of serverTasks;
  clientTaskMap ← taskMap_of clientTasks;
  (* Process client tasks *)
  plan ← foldR (processClient serverTaskMap) (mkSyncPlan [] [] []) clientTasks;
  (* Process server tasks that don't exist on client *)
  foldR (processServer clientTaskMap) plan serverTasks.

(** [{ id: row.id, title: row.title, ... }], the task the route builds from
    a row. *)
Definition task_of_row (row : JSValue) : JSValue :=
  JObj [("id", get row "id");
        ("title", get row "title");
        ("description", get row "description");
        ("category", get row "category");
        ("priority", get row "priority");
        ("status", get row "status");
        ("dueDate", get row "due_date");
        ("createdAt", get row "created_at");
        ("updatedAt", get row "updated_at")].

Context `{Postgres}.

(** The body of the loop "Create new tasks on server". *)
Definition createOnServer (userId : JSValue)
  (st : Database * list JSValue) (task : JSValue)
  : Result (Database * list JSValue) :=
  let (database, merged) := st in
  '(database, rows) ← insert_task database userId task;
  match rows with
  | row :: _ =>
      let createdTask := task_of_row row in
      (* Replace in merged tasks *)
      index ← findIndex (fun t =>
          tid ← prop t "id"; id ← prop task "id";
          mret (strict_equal tid id)) merged 0;
      match index with
      | Some index => mret (database, <[index := createdTask]> merged)
      | None => mret (database, (merged ++ [createdTask])%list)
      end
  | [] => mret (database, merged)
  end.

(** The route from the two maps to the end of the create loop. *)
Definition sync_create (database : Database) (userId : JSValue)
  (clientTasks serverTasks : list JSValue)
  : Result (Database * SyncPlan) :=
  plan ← sync_merge clientTasks serverTasks;
  '(database, merged) ←
    foldR (createOnServer userId) (database, mergedTasks plan)
          (tasksToCreate plan);
  mret (database, mkSyncPlan merged (tasksToCreate plan) (tasksToUpdate plan)).

End Server.

(** ** A reference platform

    Executable instances of [Platform] and [Postgres], used to run the
    model on concrete inputs: dates given as time values or as ISO strings
    (the date alone, or the form [toISOString] writes), JSON text over the
    values of the model, an object store kept in key order and a tasks
    table. *)

Module Reference.

(** *** Dates *)

Definition digit_of (c : ascii) : option Z :=
  let n := nat_of_ascii c in
  if ((48 <=? n) && (n <=? 57))%nat then Some (Z.of_nat n - 48)%Z else None.

Fixpoint digits_value (s : string) (acc : Z) : option Z :=
  match s with
  | EmptyString => Some acc
  | String c s' =>
      match digit_of c with
      | Some d => digits_value s' (10 * acc + d)%Z
      | None => None
      end
  end.

Definition is_leap (y : Z) : bool :=
  ((y mod 4 =? 0) && (negb (y mod 100 =? 0) || (y mod 400 =? 0)))%Z.

Definition days_in_month (y m : Z) : Z :=
  if (m =? 2)%Z then (if is_leap y then 29 else 28)%Z
  else if ((m =? 4) || (m =? 6) || (m =? 9) || (m =? 11))%Z then 30%Z
  else 31%Z.

(** Days from 1970-01-01 to the civil date [y]-[m]-[d]. *)
Definition days_from_civil (y m d : Z) : Z :=
  let y' := (if m <=? 2 then y - 1 else y)%Z in
  let era := (y' / 400)%Z in
  let yoe := (y' - era * 400)%Z in
  let mp := ((m + 9) mod 12)%Z in
  let doy := ((153 * mp + 2) / 5 + d - 1)%Z in
  let doe := (yoe * 365 + yoe / 4 - yoe / 100 + doy)%Z in
  (era * 146097 + doe - 719468)%Z.

(** [YYYY-MM-DD], read as midnight UTC. *)
Definition parse_iso_date (s : string) : option Z :=
  if negb ((substring 4 1 s =? "-") && (substring 7 1 s =? "-")) then None
  else
    y ← digits_value (substring 0 4 s) 0;
    m ← digits_value (substring 5 2 s) 0;
    d ← digits_value (substring 8 2 s) 0;
    if ((1 <=? m) && (m <=? 12) && (1 <=? d) && (d <=? days_in_month y m))%Z
    then Some (days_from_civil y m d * 86400000)%Z
    else None.

(** [THH:mm:ss.sssZ], the time of day [toISOString] writes. *)
Definition parse_iso_time (s : string) : option Z :=
  if negb ((substring 0 1 s =? "T") && (substring 3 1 s =? ":") &&
           (substring 6 1 s =? ":") && (substring 9 1 s =? ".") &&
           (substring 13 1 s =? "Z")) then None
  else
    h ← digits_value (substring 1 2 s) 0;
    m ← digits_value (substring 4 2 s) 0;
    sec ← digits_value (substring 7 2 s) 0;
    ms ← digits_value (substring 10 3 s) 0;
    if ((h <=? 23) && (m <=? 59) && (sec <=? 59))%Z
    then Some (((h * 60 + m) * 60 + sec) * 1000 + ms)%Z
    else None.

(** The two ISO forms the application meets: the date alone and the
    24 characters of [toISOString]. *)
Definition parse_iso (s : string) : option Z :=
  if (String.length s =? 10)%nat then parse_iso_date s
  else if (String.length s =? 24)%nat then
    day ← parse_iso_date (substring 0 10 s);
    time ← parse_iso_time (substring 10 14 s);
    Some (day + time)%Z
  else None.

(** [new Date(v).getTime()] for the primitive values; objects and arrays,
    which JavaScript first turns into strings, are read as no date. *)
Definition Date_value (v : JSValue) : option Z :=
  match v with
  | JNum n => if (Z.abs n <=? 8640000000000000)%Z then Some n else None
  | JStr s => parse_iso s
  | JNull => Some 0%Z
  | JBool b => Some (if b then 1 else 0)%Z
  | _ => None
  end.

(** *** JSON text *)

Definition hex_digit (n : nat) : ascii :=
  if (n <? 10)%nat then ascii_of_nat (48 + n) else ascii_of_nat (87 + n).

Definition quote_char (c : ascii) : string :=
  let n := nat_of_ascii c in
  if (n =? 34)%nat then "\" ++ String c EmptyString
  else if (n =? 92)%nat then "\\"
  else if (n =? 8)%nat then "\b"
  else if (n =? 9)%nat then "\t"
  else if (n =? 10)%nat then "\n"
  else if (n =? 12)%nat then "\f"
  else if (n =? 13)%nat then "\r"
  else if (n <? 32)%nat then
    "\u00" ++ String (hex_digit (n / 16)) (String (hex_digit (n mod 16)) EmptyString)
  else String c EmptyString.

Fixpoint quote_chars (s : string) : string :=
  match s with
  | EmptyString => EmptyString
  | String c s' => quote_char c ++ quote_chars s'
  end.

Definition dquote : string := String (ascii_of_nat 34) EmptyString.

Fixpoint join (sep : string) (l : list string) : string :=
  match l with
  | [] => EmptyString
  | [x] => x
  | x :: l' => x ++ sep ++ join sep l'
  end.

(** The members of an object, each written with [text] for its value; a
    property whose value is [undefined] is left out. *)
Fixpoint member_texts (text : JSValue -> string)
  (ps : list (string * JSValue)) : list string :=
  match ps with
  | [] => []
  | (k, JUndefined) :: ps' => member_texts text ps'
  | (k, x) :: ps' =>
      (dquote ++ quote_chars k ++ dquote ++ ":" ++ text x)
      :: member_texts text ps'
  end.

(** [JSON.stringify]; an [undefined] array element is written [null]. *)
Fixpoint stringify (v : JSValue) : string :=
  match v with
  | JUndefined | JNull => "null"
  | JBool b => if b then "true" else "false"
  | JNum n => NilZero.string_of_int (Z.to_int n)
  | JStr s => dquote ++ quote_chars s ++ dquote
  | JArr items => "[" ++ join "," (map stringify items) ++ "]"
  | JObj props => "{" ++ join "," (member_texts stringify props) ++ "}"
  end.

Definition is_json_space (c : ascii) : bool :=
  let n := nat_of_ascii c in
  ((n =? 32) || (n =? 9) || (n =? 10) || (n =? 13))%nat.

Fixpoint skip_space (s : string) : string :=
  match s with
  | String c s' => if is_json_space c then skip_space s' else s
  | EmptyString => s
  end.

Fixpoint strip_prefix (p s : string) : option string :=
  match p, s with
  | EmptyString, _ => Some s
  | String a p', String b s' =>
      if Ascii.eqb a b then strip_prefix p' s' else None
  | _, EmptyString => None
  end.

Definition hex_value (c : ascii) : option nat :=
  let n := nat_of_ascii c in
  if ((48 <=? n) && (n <=? 57))%nat then Some (n - 48)
  else if ((97 <=? n) && (n <=? 102))%nat then Some (n - 87)
  else if ((65 <=? n) && (n <=? 70))%nat then Some (n - 55)
  else None.

(** The characters of a string literal after its opening quote; [acc] holds
    the characters read so far, last first. *)
Fixpoint parse_chars (fuel : nat) (s acc : string) : option (string * string) :=
  match fuel, s with
  | S fuel, String c s' =>
      let n := nat_of_ascii c in
      if (n =? 34)%nat then Some (rev_string acc EmptyString, s')
      else if (n <? 32)%nat then None
      else if (n =? 92)%nat then
        match s' with
        | String e s'' =>
            let simple (x : nat) :=
              parse_chars fuel s'' (String (ascii_of_nat x) acc) in
            match nat_of_ascii e with
            | 34 => simple 34
            | 92 => simple 92
            | 47 => simple 47
            | 98 => simple 8
            | 102 => simple 12
            | 110 => simple 10
            | 114 => simple 13
            | 116 => simple 9
            | 117 =>
                match s'' with
                | String h1 (String h2 (String h3 (String h4 rest))) =>
                    a ← hex_value h1; b ← hex_value h2;
                    c ← hex_value h3; d ← hex_value h4;
                    if ((a =? 0) && (b =? 0))%nat then
                      parse_chars fuel rest
                        (String (ascii_of_nat (16 * c + d)) acc)
                    else None
                | _ => None
                end
            | _ => None
            end
        | EmptyString => None
        end
      else parse_chars fuel s' (String c acc)
  | _, _ => None
  end.

Fixpoint take_digits (s : string) : string * string :=
  match s with
  | String c s' =>
      match digit_of c with
      | Some _ => let (ds, rest) := take_digits s' in (String c ds, rest)
      | None => (EmptyString, s)
      end
  | EmptyString => (EmptyString, s)
  end.

(** An integer numeral; a fraction or an exponent is outside the numbers of
    the model. *)
Definition parse_number (s : string) : option (JSValue * string) :=
  let (negative, s1) :=
    match strip_prefix "-" s with
    | Some s1 => (true, s1)
    | None => (false, s)
    end in
  let (ds, rest) := take_digits s1 in
  let more :=
    match rest with
    | String c _ =>
        let n := nat_of_ascii c in ((n =? 46) || (n =? 101) || (n =? 69))%nat
    | EmptyString => false
    end in
  let leading_zero :=
    match ds with
    | String c (String _ _) => (nat_of_ascii c =? 48)%nat
    | _ => false
    end in
  if more || leading_zero then None
  else
    match ds with
    | EmptyString => None
    | _ =>
        n ← digits_value ds 0;
        Some (JNum (if negative then - n else n)%Z, rest)
    end.

(** Elements after [[], separated by commas, up to the closing bracket. *)
Fixpoint parse_items (value : string -> option (JSValue * string))
  (fuel : nat) (s : string) (acc : list JSValue)
  : option (list JSValue * string) :=
  match fuel with
  | O => None
  | S fuel =>
      '(v, s1) ← value s;
      let s2 := skip_space s1 in
      match s2 with
      | String c s3 =>
          if (nat_of_ascii c =? 44)%nat then
            parse_items value fuel s3 (acc ++ [v])%list
          else if (nat_of_ascii c =? 93)%nat then Some ((acc ++ [v])%list, s3)
          else None
      | EmptyString => None
      end
  end.

(** Members after [{]; a repeated key keeps its first place and its last
    value. *)
Fixpoint parse_members (value : string -> option (JSValue * string))
  (fuel : nat) (s : string) (acc : list (string * JSValue))
  : option (list (string * JSValue) * string) :=
  match fuel with
  | O => None
  | S fuel =>
      s0 ← strip_prefix dquote (skip_space s);
      '(k, s1) ← parse_chars (String.length s0) s0 EmptyString;
      s2 ← strip_prefix ":" (skip_space s1);
      '(v, s3) ← value s2;
      match skip_space s3 with
      | String c s4 =>
          if (nat_of_ascii c =? 44)%nat then
            parse_members value fuel s4 (set_prop k v acc)
          else if (nat_of_ascii c =? 125)%nat then Some (set_prop k v acc, s4)
          else None
      | EmptyString => None
      end
  end.

Fixpoint parse_value (fuel : nat) (s : string) : option (JSValue * string) :=
  match fuel with
  | O => None
  | S fuel =>
      let s := skip_space s in
      match s with
      | EmptyString => None
      | String c s' =>
          let n := nat_of_ascii c in
          if (n =? 110)%nat then
            rest ← strip_prefix "null" s; Some (JNull, rest)
          else if (n =? 116)%nat then
            rest ← strip_prefix "true" s; Some (JBool true, rest)
          else if (n =? 102)%nat then
            rest ← strip_prefix "false" s; Some (JBool false, rest)
          else if (n =? 34)%nat then
            '(str, rest) ← parse_chars (String.length s') s' EmptyString;
            Some (JStr str, rest)
          else if (n =? 91)%nat then
            match skip_space s' with
            | String c' rest =>
                if (nat_of_ascii c' =? 93)%nat then Some (JArr [], rest)
                else
                  '(items, rest) ←
                    parse_items (parse_value fuel) (String.length s') s' [];
                  Some (JArr items, rest)
            | EmptyString => None
            end
          else if (n =? 123)%nat then
            match skip_space s' with
            | String c' rest =>
                if (nat_of_ascii c' =? 125)%nat then Some (JObj [], rest)
                else
                  '(props, rest) ←
                    parse_members (parse_value fuel) (String.length s') s' [];
                  Some (JObj props, rest)
            | EmptyString => None
            end
          else parse_number s
      end
  end.

(** [JSON.parse]: one value, then nothing but white space. *)
Definition parse (s : string) : option JSValue :=
  '(v, rest) ← parse_value (S (String.length s)) s;
  match skip_space rest with
  | EmptyString => Some v
  | _ => None
  end.

(** *** The object store

    The records in key order, or [None] for a store whose requests fail.
    Keys are the numbers and the strings, numbers first. *)

Definition key_lt (a b : JSValue) : bool :=
  match a, b with
  | JNum x, JNum y => (x <? y)%Z
  | JNum _, JStr _ => true
  | JStr x, JStr y => String.ltb x y
  | _, _ => false
  end.

Definition valid_key (k : JSValue) : bool :=
  match k with JNum _ | JStr _ => true | _ => false end.

(** [store.add(task)]: refused when the key is not valid or already there. *)
Fixpoint store_add (task : JSValue) (records : list JSValue)
  : option (list JSValue) :=
  let k := get task "id" in
  if negb (valid_key k) then None
  else
    match records with
    | [] => Some [task]
    | r :: records' =>
        if strict_equal (get r "id") k then None
        else if key_lt k (get r "id") then Some (task :: r :: records')
        else rest ← store_add task records'; Some (r :: rest)
    end.

Fixpoint store_add_all (tasks records : list JSValue)
  : option (list JSValue) :=
  match tasks with
  | [] => Some records
  | t :: tasks' => records' ← store_add t records; store_add_all tasks' records'
  end.

Definition Store : Type := option (list JSValue).

Definition getAll (d : Store) : option (list JSValue) := d.

Definition clear_add (d : Store) (tasks : list JSValue) : option Store :=
  match d with
  | Some _ => records ← store_add_all tasks []; Some (Some records)
  | None => None
  end.

Definition clear (d : Store) : option Store :=
  match d with
  | Some _ => Some (Some [])
  | None => None
  end.

#[export] Instance platform : Platform := {
  Date_value := Reference.Date_value;
  JSON_stringify := stringify;
  JSON_parse := parse;
  IDBDatabase := Store;
  idb_getAll := getAll;
  idb_clear_add := clear_add;
  idb_clear := clear
}.

(** *** The tasks table

    The rows of all users.  [id] is the primary key, [title] is not null;
    the other constraints of the schema are left out. *)

Definition row_of (userId task : JSValue) : JSValue :=
  JObj [("id", get task "id");
        ("user_id", userId);
        ("title", get task "title");
        ("description", js_or (get task "description") JNull);
        ("category", js_or (get task "category") JNull);
        ("priority", js_or (get task "priority") (JStr "Medium"));
        ("status", js_or (get task "status") (JStr "todo"));
        ("due_date", js_or (get task "dueDate") JNull);
        ("created_at", get task "createdAt");
        ("updated_at", get task "updatedAt")].

Definition insert (table : list JSValue) (userId task : JSValue)
  : Result (list JSValue * list JSValue) :=
  if nullish (get task "title") then
    Throw (Error "null value in column title violates not-null constraint")
  else if existsb (fun r => strict_equal (get r "id") (get task "id")) table
  then Ok (table, [])
  else Ok ((table ++ [row_of userId task])%list, [row_of userId task]).

#[export] Instance postgres : Postgres := {
  Database := list JSValue;
  insert_task := insert
}.

(** A browser with nothing stored, in localStorage mode. *)
Definition fresh : World :=
  mkWorld [] JNull false None None 5242880%N
          "2024-01-03T08:00:00.000Z" "k3j9x2m1q_1704268800000" (Some []) [].

End Reference.

(** ** The rest of the task manager and of the storage manager

    The queries, the deletion and the export and import of
    js/store/TaskManager.js, and the backup restore of
    js/store/StorageManager.js. *)

(** *** Strings: [toLowerCase], [includes] *)

(** [String.prototype.toLowerCase] on the letters among the characters of
    the model, A to Z. *)
Definition lower_char (c : ascii) : ascii :=
  let n := nat_of_ascii c in
  if ((65 <=? n) && (n <=? 90))%nat then ascii_of_nat (n + 32) else c.

Fixpoint toLowerCase (s : string) : string :=
  match s with
  | EmptyString => EmptyString
  | String c s' => String (lower_char c) (toLowerCase s')
  end.

(** [v.toLowerCase()]: only strings have the method. *)
Definition call_toLowerCase (v : JSValue) : Result string :=
  match v with
  | JStr s => Ok (toLowerCase s)
  | _ => Throw TypeError
  end.

(** [s.includes(term)] *)
Fixpoint includes (s term : string) : bool :=
  String.prefix term s ||
  match s with
  | EmptyString => false
  | String _ s' => includes s' term
  end.

(** [typeof v === 'string'] *)
Definition typeof_string (v : JSValue) : bool :=
  match v with JStr _ => true | _ => false end.

(** *** Arrays: [filter], [find], [map] with a callback that may throw *)

Fixpoint Array_filter (predicate : JSValue -> Result bool) (l : list JSValue)
  : Result (list JSValue) :=
  match l with
  | [] => Ok []
  | t :: l' =>
      b ← predicate t;
      rest ← Array_filter predicate l';
      Ok (if (b : bool) then t :: rest else rest)
  end.

(** [undefined] when no element passes. *)
Fixpoint Array_find (predicate : JSValue -> Result bool) (l : list JSValue)
  : Result JSValue :=
  match l with
  | [] => Ok JUndefined
  | t :: l' =>
      b ← predicate t;
      if (b : bool) then Ok t else Array_find predicate l'
  end.

Fixpoint Array_map (f : JSValue -> Result JSValue) (l : list JSValue)
  : Result (list JSValue) :=
  match l with
  | [] => Ok []
  | t :: l' => x ← f t; rest ← Array_map f l'; Ok (x :: rest)
  end.

(** [new Set(values).has(v)]: membership by SameValueZero. *)
Definition set_has (v : JSValue) (values : list JSValue) : bool :=
  existsb (fun x => strict_equal x v) values.

(** *** TaskManager: queries *)

(** [searchTasks(tasks, query)].  The class declares [searchTasks] twice;
    the later declaration, the one with two parameters, is the method. *)
Definition search_match (searchTerm : string) (task : JSValue) : Result bool :=
  title ← prop task "title";
  title ← call_toLowerCase title;
  if includes title searchTerm then Ok true
  else
    description ← prop task "description";
    inDescription ←
      (if truthy description then
         description ← call_toLowerCase description;
         Ok (includes description searchTerm)
       else Ok false);
    if (inDescription : bool) then Ok true
    else
      category ← prop task "category";
      if truthy category then
        category ← call_toLowerCase category;
        Ok (includes category searchTerm)
      else Ok false.

Definition searchTasks (tasks : list JSValue) (query : JSValue)
  : Result (list JSValue) :=
  trimmed ← call_trim query;
  if trimmed =? EmptyString then Ok tasks
  else
    lowered ← call_toLowerCase query;
    let searchTerm := trim lowered in
    Array_filter (search_match searchTerm) tasks.

(** One of the three equality filters of [filterTasks]:
    [if (filters.key) tasks = tasks.filter(task => task.key === filters.key)]. *)
Definition filter_by (key : string) (filters : JSValue) (tasks : list JSValue)
  : Result (list JSValue) :=
  wanted ← prop filters key;
  if truthy wanted then
    Array_filter (fun task => v ← prop task key; mret (strict_equal v wanted))
                 tasks
  else Ok tasks.

Definition filterTasks (tasks : list JSValue) (filters : JSValue)
  : Result (list JSValue) :=
  let filteredTasks := tasks in
  (* Status filter *)
  filteredTasks ← filter_by "status" filters filteredTasks;
  (* Category filter *)
  filteredTasks ← filter_by "category" filters filteredTasks;
  (* Priority filter *)
  filteredTasks ← filter_by "priority" filters filteredTasks;
  (* Search filter *)
  search ← prop filters "search";
  if truthy search then searchTasks filteredTasks search
  else Ok filteredTasks.

Section ClientRest.
Context `{Platform}.

Definition getTasks : M (list JSValue) := read tasks.

Definition getTask (taskId : JSValue) : M JSValue :=
  ts ← read tasks;
  lift (Array_find (fun t => id ← prop t "id"; mret (strict_equal id taskId)) ts).

Definition getTasksByStatus (status : JSValue) : M (list JSValue) :=
  ts ← read tasks;
  lift (Array_filter (fun t =>
      v ← prop t "status"; mret (strict_equal v status)) ts).

Definition getTasksByCategory (category : JSValue) : M (list JSValue) :=
  ts ← read tasks;
  lift (Array_filter (fun t =>
      v ← prop t "category"; mret (strict_equal v category)) ts).

Definition getTasksByPriority (priority : JSValue) : M (list JSValue) :=
  ts ← read tasks;
  lift (Array_filter (fun t =>
      v ← prop t "priority"; mret (strict_equal v priority)) ts).

(** *** TaskManager: deletion

    [apiClient.deleteTask] belongs to js/store/ApiClient.js; [deleteTask]
    awaits it inside a [try] and goes on whatever it does, so the model
    takes it as a parameter. *)

Section Deletion.
Variable apiClient_deleteTask : JSValue -> M unit.

Definition deleteTask (taskId : JSValue) : M JSValue :=
  ts ← read tasks;
  taskIndex ← lift (findIndex (fun t =>
      id ← prop t "id"; mret (strict_equal id taskId)) ts 0);
  match taskIndex with
  | None => throw (Error "Task not found")
  | Some taskIndex =>
      let deletedTask := nth taskIndex ts JUndefined in
      (* Remove from local tasks *)
      ts ← read tasks;
      write (set_tasks (delete taskIndex ts));;
      (* Save to local storage *)
      ts ← read tasks;
      saveTasks ts;;
      (* Sync with server *)
      try_catch (apiClient_deleteTask taskId) (fun error => mret tt);;
      mret deletedTask
  end.

End Deletion.

(** *** TaskManager: clearing, export and import *)

(** [clearTasks] is called without [await]: the promise it returns is
    dropped, and with it a rejection. *)
Definition clearLocalData : M unit :=
  write (set_tasks []);;
  try_catch clearTasks (fun error => mret tt).

Definition exportTasks : M JSValue :=
  exportDate ← new_Date_toISOString;
  ts ← read tasks;
  mret (JObj [("version", JStr "1.0");
              ("exportDate", exportDate);
              ("tasks", JArr ts)]).

(** [{ imported, skipped }] and [{ restored, skipped }] *)
Definition counts (first : string) (n skipped : Z) : JSValue :=
  JObj [(first, JNum n); ("skipped", JNum skipped)].

Definition importTasks (data : JSValue) : M JSValue :=
  if negb (truthy data) || negb (truthy (get data "tasks"))
     || negb (isArray (get data "tasks"))
  then throw (Error "Invalid import data format")
  else
    match get data "tasks" with
    | JArr items =>
        (* Validate tasks *)
        validTasks ← lift (Array_filter (fun task =>
            id ← prop task "id";
            if truthy id then
              title ← prop task "title";
              mret (truthy title && typeof_string title)
            else mret false) items);
        if (length validTasks =? 0)%nat then
          throw (Error "No valid tasks found in import data")
        else
          (* Merge with existing tasks (avoid duplicates) *)
          ts ← read tasks;
          existingIds ← lift (Array_map (fun t => prop t "id") ts);
          newTasks ← lift (Array_filter (fun task =>
              id ← prop task "id";
              mret (negb (set_has id existingIds))) validTasks);
          (* Add new tasks *)
          ts ← read tasks;
          write (set_tasks (ts ++ newTasks)%list);;
          (* Save to local storage *)
          ts ← read tasks;
          saveTasks ts;;
          mret (counts "imported" (Z.of_nat (length newTasks))
                  (Z.of_nat (length validTasks) - Z.of_nat (length newTasks)))
    | _ => throw (Error "Invalid import data format")
    end.

(** *** StorageManager: restoring a backup *)

Definition restoreFromBackup (backupData : JSValue) : M JSValue :=
  if negb (truthy backupData) || negb (truthy (get backupData "tasks"))
     || negb (isArray (get backupData "tasks"))
  then throw (Error "Invalid backup data format")
  else
    match get backupData "tasks" with
    | JArr items =>
        (* Validate tasks *)
        validTasks ← lift (Array_filter (fun task =>
            id ← prop task "id";
            mret (truthy id && truthy (get task "title") &&
                  truthy (get task "status") && truthy (get task "priority") &&
                  truthy (get task "createdAt") &&
                  truthy (get task "updatedAt"))) items);
        if (length validTasks =? 0)%nat then
          throw (Error "No valid tasks found in backup")
        else
          (* Save tasks *)
          saveTasks validTasks;;
          mret (counts "restored" (Z.of_nat (length validTasks))
                  (Z.of_nat (length items) - Z.of_nat (length validTasks)))
    | _ => throw (Error "Invalid backup data format")
    end.

End ClientRest.

(** ** Sorting (TaskManager.sortTasks)

    [Array.prototype.sort] with a comparison function: [undefined]
    elements go last and are not compared; what the function returns
    counts by its sign, NaN like +0; the sort is stable.  For a comparison
    function that is consistent this fixes the result, and the insertion
    sort below computes it; for one that is not, the order is left to the
    implementation and the model gives one such order. *)

Definition is_undefined (v : JSValue) : bool :=
  match v with JUndefined => true | _ => false end.

(** The place of [x] before a sorted list: after the elements it compares
    greater than. *)
Fixpoint insert_by (comparefn : JSValue -> JSValue -> Result (option Z))
  (x : JSValue) (sorted : list JSValue) : Result (list JSValue) :=
  match sorted with
  | [] => Ok [x]
  | y :: rest =>
      v ← comparefn x y;
      if (0 <? default 0 v)%Z then
        rest' ← insert_by comparefn x rest; Ok (y :: rest')
      else Ok (x :: sorted)
  end.

Fixpoint sort_by (comparefn : JSValue -> JSValue -> Result (option Z))
  (l : list JSValue) : Result (list JSValue) :=
  match l with
  | [] => Ok []
  | x :: l' => sorted ← sort_by comparefn l'; insert_by comparefn x sorted
  end.

Definition Array_sort (comparefn : JSValue -> JSValue -> Result (option Z))
  (l : list JSValue) : Result (list JSValue) :=
  sorted ← sort_by comparefn (List.filter (fun v => negb (is_undefined v)) l);
  Ok (sorted ++ List.filter is_undefined l)%list.

(** [x - y] on time values and weights, [None] standing for NaN. *)
Definition js_minus (x y : option Z) : option Z :=
  match x, y with
  | Some x, Some y => Some (x - y)%Z
  | _, _ => None
  end.

(** [String(v)] for the values of the model: an array joins the strings of
    its elements, [null] and [undefined] counting as empty; an object is
    [[object Object]], unless it has a property [toString] of its own,
    which is then not a function. *)
Fixpoint ToString (v : JSValue) : Result string :=
  match v with
  | JUndefined => Ok "undefined"
  | JNull => Ok "null"
  | JBool b => Ok (if b then "true" else "false")
  | JNum n => Ok (NilZero.string_of_int (Z.to_int n))
  | JStr s => Ok s
  | JArr items =>
      texts ← (fix elements (l : list JSValue) : Result (list string) :=
                 match l with
                 | [] => Ok []
                 | x :: l' =>
                     text ← (if nullish x then Ok EmptyString else ToString x);
                     rest ← elements l';
                     Ok (text :: rest)
                 end) items;
      Ok (Reference.join "," texts)
  | JObj props =>
      if existsb (fun kv => fst kv =? "toString") props then Throw TypeError
      else Ok "[object Object]"
  end.

Section Sorting.
Context `{Platform}.

(** [(a, b) => new Date(b.field) - new Date(a.field)], or the other way
    round. *)
Definition by_date (field : string) (descending : bool) (a b : JSValue)
  : Result (option Z) :=
  if descending then
    db ← prop b field; da ← prop a field;
    Ok (js_minus (Date_value db) (Date_value da))
  else
    da ← prop a field; db ← prop b field;
    Ok (js_minus (Date_value da) (Date_value db)).

(** The comparison functions of [dueDate-asc] and [dueDate-desc]. *)
Definition by_dueDate (descending : bool) (a b : JSValue) : Result (option Z) :=
  da ← prop a "dueDate";
  if negb (truthy da) then
    db ← prop b "dueDate";
    if negb (truthy db) then Ok (Some 0%Z)
    else Ok (Some (if descending then -1 else 1)%Z)
  else
    db ← prop b "dueDate";
    if negb (truthy db) then Ok (Some (if descending then 1 else -1)%Z)
    else
      Ok (if descending then js_minus (Date_value db) (Date_value da)
          else js_minus (Date_value da) (Date_value db)).

(** [priorityOrder[v]] as a number, for
    [priorityOrder = { High: high, Medium: medium, Low: low }]: any other
    key reads [undefined] or a member of [Object.prototype], NaN both. *)
Definition priority_weight (high medium low : Z) (v : JSValue)
  : Result (option Z) :=
  key ← ToString v;
  Ok (if key =? "High" then Some high
      else if key =? "Medium" then Some medium
      else if key =? "Low" then Some low
      else None).

Definition by_priority (high medium low : Z) (a b : JSValue)
  : Result (option Z) :=
  pb ← prop b "priority"; wb ← priority_weight high medium low pb;
  pa ← prop a "priority"; wa ← priority_weight high medium low pa;
  Ok (js_minus wb wa).

(** [String.prototype.localeCompare] is the collation of the
    implementation. *)
Variable localeCompare : string -> string -> Z.

(** [this.localeCompare(that)]: only strings have the method. *)
Definition call_localeCompare (this that : JSValue) : Result (option Z) :=
  match this with
  | JStr s => that ← ToString that; Ok (Some (localeCompare s that))
  | _ => Throw TypeError
  end.

Definition by_title (descending : bool) (a b : JSValue) : Result (option Z) :=
  if descending then
    tb ← prop b "title"; ta ← prop a "title"; call_localeCompare tb ta
  else
    ta ← prop a "title"; tb ← prop b "title"; call_localeCompare ta tb.

Definition sortTasks (tasks : list JSValue) (sortBy : JSValue)
  : Result (list JSValue) :=
  let sortedTasks := tasks in
  if strict_equal sortBy (JStr "createdAt-desc") then
    Array_sort (by_date "createdAt" true) sortedTasks
  else if strict_equal sortBy (JStr "createdAt-asc") then
    Array_sort (by_date "createdAt" false) sortedTasks
  else if strict_equal sortBy (JStr "updatedAt-desc") then
    Array_sort (by_date "updatedAt" true) sortedTasks
  else if strict_equal sortBy (JStr "updatedAt-asc") then
    Array_sort (by_date "updatedAt" false) sortedTasks
  else if strict_equal sortBy (JStr "dueDate-asc") then
    Array_sort (by_dueDate false) sortedTasks
  else if strict_equal sortBy (JStr "dueDate-desc") then
    Array_sort (by_dueDate true) sortedTasks
  else if strict_equal sortBy (JStr "priority-high") then
    Array_sort (by_priority 3 2 1) sortedTasks
  else if strict_equal sortBy (JStr "priority-low") then
    Array_sort (by_priority 1 2 3) sortedTasks
  else if strict_equal sortBy (JStr "title-asc") then
    Array_sort (by_title false) sortedTasks
  else if strict_equal sortBy (JStr "title-desc") then
    Array_sort (by_title true) sortedTasks
  else Ok sortedTasks.

End Sorting.

(** ** The rest of the sync routes (server/routes/sync.js)

    POST /sync from the request to the response, and POST /sync/resolve.
    The connection to the database and the statements BEGIN, COMMIT and
    ROLLBACK are taken to succeed; a ROLLBACK gives back the database there
    was at BEGIN, and after COMMIT it undoes nothing. *)

(** The other two queries of the routes. *)
Class SyncQueries `{Postgres} : Type := {
  (** [SELECT * FROM tasks WHERE user_id = $1]: the rows. *)
  select_tasks : Database -> JSValue -> Result (list JSValue);
  (** [UPDATE tasks SET title = $3, ..., updated_at = $9
       WHERE id = $1 AND user_id = $2 RETURNING *], run for [task] of the
      user [userId], with the date built from [updatedAt] for [$9]: the
      database afterwards with the rows returned, or what the query
      throws. *)
  update_task : Database -> JSValue -> JSValue -> JSValue ->
                Result (Database * list JSValue)
}.

(** [res.status(code).json(body)] *)
Record Response : Type := mkResponse {
  res_status : nat;
  res_body : JSValue
}.

Definition message (text : string) : JSValue := JObj [("message", JStr text)].

Section ServerRest.
Context `{Platform} `{SyncQueries}.

(** The body of the loop "Update existing tasks on server". *)
Definition updateOnServer (userId : JSValue)
  (st : Database * list JSValue) (task : JSValue)
  : Result (Database * list JSValue) :=
  let (database, merged) := st in
  updatedAt ← prop task "updatedAt";
  '(database, rows) ← update_task database userId task updatedAt;
  match rows with
  | row :: _ =>
      let updatedTask := task_of_row row in
      (* Update in merged tasks *)
      index ← findIndex (fun t =>
          tid ← prop t "id"; id ← prop task "id";
          mret (strict_equal tid id)) merged 0;
      match index with
      | Some index => mret (database, <[index := updatedTask]> merged)
      | None => mret (database, merged)
      end
  | [] => mret (database, merged)
  end.

(** The transaction of POST /sync, from the SELECT to the end of the update
    loop: the database to commit, the tasks of the server, the plan and the
    merged tasks. *)
Definition sync_transaction (database : Database) (userId : JSValue)
  (clientTasks : list JSValue)
  : Result (Database * list JSValue * SyncPlan * list JSValue) :=
  (* Get all server tasks for the user *)
  rows ← select_tasks database userId;
  let serverTasks := map task_of_row rows in
  '(database, plan) ← sync_create database userId clientTasks serverTasks;
  (* Update existing tasks on server *)
  '(database, merged) ←
    foldR (updateOnServer userId) (database, mergedTasks plan)
          (tasksToUpdate plan);
  mret (database, serverTasks, plan, merged).

(** What follows the COMMIT: the sort and the body of the response. *)
Definition sync_response (clientTasks serverTasks : list JSValue)
  (plan : SyncPlan) (merged : list JSValue) : Result JSValue :=
  (* Sort merged tasks by updated_at desc *)
  merged ← Array_sort (by_date "updatedAt" true) merged;
  serverTaskMap ← taskMap_of serverTasks;
  known ← Array_filter (fun ct =>
      id ← prop ct "id"; mret (map_has id serverTaskMap)) clientTasks;
  mret (JObj [
    ("message", JStr "同步成功");
    ("tasks", JArr merged);
    ("stats", JObj [
       ("total", JNum (Z.of_nat (length merged)));
       ("created", JNum (Z.of_nat (length (tasksToCreate plan))));
       ("updated", JNum (Z.of_nat (length (tasksToUpdate plan))));
       ("serverOnly", JNum (Z.of_nat (length serverTasks)
                            - Z.of_nat (length known)))])]).

(** [router.post('/sync', ...)] for the user [userId] and the request body
    [body]: the database afterwards and the response. *)
Definition post_sync (database : Database) (userId body : JSValue)
  : Database * Response :=
  let failed := mkResponse 500 (message "同步时发生内部服务器错误") in
  match prop body "tasks" with
  | Throw _ => (database, failed)
  | Ok (JArr clientTasks) =>
      match sync_transaction database userId clientTasks with
      | Throw _ => (database, failed)
      | Ok (database', serverTasks, plan, merged) =>
          match sync_response clientTasks serverTasks plan merged with
          | Throw _ => (database', failed)
          | Ok body => (database', mkResponse 200 body)
          end
      end
  | Ok _ => (database, mkResponse 400 (message "客户端任务数组是必需的"))
  end.



End ServerRest.

(** ** The authentication middleware (server/routes/auth.js)

    The sync routes run behind [authenticateToken]. *)

(** [s.split(' ')]: the pieces of [s] between single spaces; [piece] holds
    the characters of the current piece, last first. *)
Fixpoint split_space (s piece : string) : list string :=
  match s with
  | EmptyString => [rev_string piece EmptyString]
  | String c s' =>
      if (nat_of_ascii c =? 32)%nat then
        rev_string piece EmptyString :: split_space s' EmptyString
      else split_space s' (String c piece)
  end.

(** What the middleware does with a request: it answers, or it sets
    [req.user] and calls [next]. *)
Inductive Authentication : Type :=
| Answered (response : Response)
| Next (user : JSValue).

Section Middleware.

(** [jwt.verify(token, JWT_SECRET, callback)]: the payload the callback
    gets, [None] when it gets an error. *)
Variable jwt_verify : string -> option JSValue.

(** [authHeader] is [req.headers['authorization']], [None] for
    [undefined]. *)
Definition authenticateToken (authHeader : option string) : Authentication :=
  let token :=
    match authHeader with
    | None => None
    | Some header =>
        if header =? EmptyString then Some header
        else nth_error (split_space header EmptyString) 1
    end in
  match token with
  | None => Answered (mkResponse 401 (message "Access token required"))
  | Some token =>
      if token =? EmptyString then
        Answered (mkResponse 401 (message "Access token required"))
      else
        match jwt_verify token with
        | None => Answered (mkResponse 403 (message "Invalid or expired token"))
        | Some user => Next user
        end
  end.

End Middleware.

(** ** Notions the properties are stated with *)

Definition id_of (task : JSValue) : JSValue := get task "id".

Definition ids (l : list JSValue) : list JSValue := map id_of l.

(** A task: an object whose id is a primitive value (a string, in this
    application). *)
Definition is_task (v : JSValue) : bool :=
  match v with
  | JObj _ => primitive (id_of v)
  | _ => false
  end.

(** A title that passes validation: a string with something else than
    white space in it. *)
Definition has_title (task : JSValue) : Prop :=
  exists s, get task "title" = JStr s /\ trim s <> EmptyString.

(** The invariant of the specification: the title is a non-empty string. *)
Definition nonempty_title (task : JSValue) : Prop :=
  exists s, get task "title" = JStr s /\ s <> EmptyString.


(** A task map as the loops keep it: every key is the id of its task, and
    no key occurs twice. *)
Definition keyed (m : JSMap) : Prop :=
  Forall (fun kv => fst kv = id_of (snd kv) /\ is_task (snd kv) = true) m /\
  List.NoDup (map fst m).

Definition is_update_call (c : ApiCall) : Prop :=
  match c with ApiUpdateTask _ _ => True | _ => False end.

Section Notions.
Context `{Platform}.

(** A [localStorage] item with no task list to read: no item, the empty
    string, text that is not JSON, or a value without an array under
    [tasks]. *)
Definition unreadable (item : option string) : Prop :=
  match item with
  | None => True
  | Some data =>
      data = EmptyString \/
      match JSON_parse data with
      | None => True
      | Some parsed => isArray (get parsed "tasks") = false
      end
  end.

(** The time value the merge reads off a task. *)
Definition updated (task : JSValue) : option Z :=
  Date_value (get task "updatedAt").

Definition add_requests (calls : list ApiCall) (w : World) : World :=
  mkWorld (tasks w) (lastSyncTime w) (useIndexedDB w) (db w) (localStorage w)
          (quota w) (clock w) (entropy w) (server w) (requests w ++ calls).

(** A method whose outcome and requests do not depend on the world it runs
    in, and which changes nothing of the world but the list of requests. *)
Definition uniform {A} (m : M A) : Prop :=
  exists (r : Result A) (calls : list ApiCall),
    Forall is_update_call calls /\
    forall w, m w = (r, add_requests calls w).

(** The task [createTask] builds from [taskData] in the world [w]. *)
Definition created_task (w : World) (taskData : JSValue) : JSValue :=
  JObj [
    ("id", JStr ("task_" ++ entropy w));
    ("title", js_or (get taskData "title") (JStr EmptyString));
    ("description", js_or (get taskData "description") (JStr EmptyString));
    ("category", js_or (get taskData "category") (JStr EmptyString));
    ("priority", js_or (get taskData "priority") (JStr "Medium"));
    ("status", js_or (get taskData "status") (JStr "todo"));
    ("dueDate", js_or (get taskData "dueDate") JNull);
    ("createdAt", JStr (clock w));
    ("updatedAt", JStr (clock w))].


Definition has_id (taskId t : JSValue) : bool :=
  strict_equal (get t "id") taskId.

(** What [updateTask] does once the index is found. *)
Definition update_at (taskId updates : JSValue) (i : nat) (w : World)
  : Result JSValue * World :=
  let u := updatedTask_of (nth i (tasks w) JUndefined) updates (JStr (clock w)) in
  match call_trim (get u "title") with
  | Throw e => (Throw e, w)
  | Ok trimmed =>
      if trimmed =? EmptyString then (Throw (Error "Task title is required"), w)
      else
        match saveTasks (<[i := u]> (tasks w)) (set_tasks (<[i := u]> (tasks w)) w) with
        | (Ok _, w2) => (Ok u, add_request (ApiUpdateTask taskId u) w2)
        | (Throw e, w2) => (Throw e, w2)
        end
  end.

(** The two loops of [mergeTasks] as folds, for task lists. *)
Definition put_task (taskMap : JSMap) (task : JSValue) : JSMap :=
  map_set (id_of task) task taskMap.

Definition merge_step (st : JSMap * list ApiCall) (task : JSValue)
  : JSMap * list ApiCall :=
  let (taskMap, calls) := st in
  let localTask := map_get (id_of task) taskMap in
  if negb (truthy localTask) then (put_task taskMap task, calls)
  else if date_ge (updated task) (updated localTask)
       then (put_task taskMap task, calls)
       else (taskMap, (calls ++ [ApiUpdateTask (id_of task) localTask])%list).

(** What a server task [task] makes of the entry [held] under its id: the
    entry the map holds afterwards, and whether the held one is pushed. *)
Definition pushes (held task : JSValue) : bool :=
  truthy held && negb (date_ge (updated task) (updated held)).

Definition resolve (held task : JSValue) : JSValue :=
  if pushes held task then held else task.

Definition merge_fold (localTasks serverTasks : list JSValue)
  : JSMap * list ApiCall :=
  fold_left merge_step serverTasks (fold_left put_task localTasks [], []).

(** The plan of the /sync merge phase in closed form, for task lists. *)
Definition on_server (serverTaskMap : JSMap) (clientTask : JSValue) : bool :=
  truthy (map_get (id_of clientTask) serverTaskMap).

Definition client_newer (serverTaskMap : JSMap) (clientTask : JSValue) : bool :=
  date_gt (updated clientTask)
          (updated (map_get (id_of clientTask) serverTaskMap)).

Definition winner (serverTaskMap : JSMap) (clientTask : JSValue) : JSValue :=
  if client_newer serverTaskMap clientTask then clientTask
  else map_get (id_of clientTask) serverTaskMap.

Definition plan_of (clientTasks serverTasks : list JSValue) : SyncPlan :=
  let serverTaskMap := fold_left put_task serverTasks [] in
  let clientTaskMap := fold_left put_task clientTasks [] in
  mkSyncPlan
    (map (winner serverTaskMap) (List.filter (on_server serverTaskMap) clientTasks)
       ++ List.filter (fun s => negb (map_has (id_of s) clientTaskMap)) serverTasks)%list
    (List.filter (fun c => negb (on_server serverTaskMap c)) clientTasks)
    (List.filter (fun c => on_server serverTaskMap c && client_newer serverTaskMap c)
       clientTasks).

End Notions.


(** ** Values that JSON round-trips *)

Module Json.
Import Reference.

(** The properties of an object that JSON carries unchanged: each value
    passes [plain] and no key is written twice. *)
Fixpoint plain_props (plain : JSValue -> bool)
  (ps : list (string * JSValue)) : bool :=
  match ps with
  | [] => true
  | (k, x) :: ps' =>
      plain x && negb (existsb (fun kv => fst kv =? k) ps') &&
      plain_props plain ps'
  end.

(** The values that survive [JSON.stringify] followed by [JSON.parse]:
    [null], booleans, strings, and arrays and objects of such values.
    [undefined] is written [null] or left out; numbers are not covered. *)
Fixpoint plain (v : JSValue) : bool :=
  match v with
  | JUndefined | JNum _ => false
  | JNull | JBool _ | JStr _ => true
  | JArr items => forallb plain items
  | JObj props => plain_props plain props
  end.

(** The first character of the text of a [plain] value: not white space,
    and none of the closing characters. *)
Definition opens (c : ascii) : bool :=
  let n := nat_of_ascii c in
  ((n =? 110) || (n =? 116) || (n =? 102) || (n =? 34) || (n =? 91) ||
   (n =? 123))%nat.

(** The text of one member of an object. *)
Definition entry (kv : string * JSValue) : string :=
  dquote ++ quote_chars (fst kv) ++ dquote ++ ":" ++ stringify (snd kv).

(** One member read back: the key, the colon, the value. *)
Definition read_member (value : string -> option (JSValue * string))
  (s : string) : option (string * JSValue * string) :=
  s0 ← strip_prefix dquote (skip_space s);
  '(k', s1) ← parse_chars (String.length s0) s0 EmptyString;
  s2 ← strip_prefix ":" (skip_space s1);
  '(v, s3) ← value s2;
  Some (k', v, s3).

End Json.

(** ** Sample tasks and worlds, on the reference platform *)

Module Samples.
Import Reference.

Definition task (id title updatedAt : string) : JSValue :=
  JObj [("id", JStr id); ("title", JStr title);
        ("createdAt", JStr "2024-01-01"); ("updatedAt", JStr updatedAt)].

(** The task [a], edited on the client after the server copy was written. *)
Definition a_local : JSValue := task "a" "X" "2024-01-02".
Definition a_server : JSValue := task "a" "Y" "2024-01-01".

(** A task the server does not have, and one the client does not have. *)
Definition b_local : JSValue := task "b" "B" "2024-01-01".
Definition c_server : JSValue := task "c" "C" "2024-01-01".

(** Two server entries for one id: the first-seen is the newer one. *)
Definition a_first : JSValue := task "a" "first" "2024-01-02".
Definition a_last : JSValue := task "a" "last" "2024-01-01".

(** An older client copy of [a]. *)
Definition a_stale : JSValue := task "a" "W" "2023-12-31".

(** Entries validation should not let through. *)
Definition no_title : JSValue := JObj [("id", JStr "a")].
Definition empty_title : JSValue := task "e" EmptyString "2024-01-01".

(** The text [saveTasksLocalStorage] writes for [ts]. *)
Definition text_of (ts : list JSValue) : string :=
  stringify (envelope "2024-01-03T08:00:00.000Z" ts).

(** A browser in localStorage mode holding [ts] in its store. *)
Definition stored (ts : list JSValue) : World :=
  set_localStorage (Some (text_of ts)) fresh.

(** A manager holding [ts]. *)
Definition holding (ts : list JSValue) : World := set_tasks ts fresh.

(** A browser whose server answers [ts]. *)
Definition answering (ts : list JSValue) : World :=
  mkWorld [] JNull false None None 5242880%N
          "2024-01-03T08:00:00.000Z" "k3j9x2m1q_1704268800000" (Some ts) [].


(** A browser in IndexedDB mode whose object store fails its requests. *)
Definition failing_idb : World :=
  mkWorld [] JNull true (Some None) None 5242880%N
          "2024-01-03T08:00:00.000Z" "k3j9x2m1q_1704268800000" (Some []) [].


End Samples.

(** ** Notions for the rest of the managers and routes *)

(** A call of the API client that changes nothing of the world but the list
    of requests. *)
Definition only_requests `{Platform} {A} (m : M A) : Prop :=
  forall w, exists (r : Result A) (calls : list ApiCall),
    m w = (r, add_requests calls w).

(** An object has an own property [k]. *)
Definition has_own (k : string) (ps : list (string * JSValue)) : bool :=
  existsb (fun kv => fst kv =? k) ps.






(** The filter of [importTasks]:
    [task.id && task.title && typeof task.title === 'string']. *)
Definition importable (task : JSValue) : bool :=
  truthy (get task "id") && truthy (get task "title") &&
  typeof_string (get task "title").

(** The filter of [restoreFromBackup]. *)
Definition restorable (task : JSValue) : bool :=
  truthy (get task "id") && truthy (get task "title") &&
  truthy (get task "status") && truthy (get task "priority") &&
  truthy (get task "createdAt") && truthy (get task "updatedAt").

(** No task of [existing] has the id of [task]. *)
Definition is_new (existing : list JSValue) (task : JSValue) : bool :=
  negb (set_has (id_of task) (ids existing)).

(** The time value [sortTasks] reads off the field of a task. *)
Definition date_of `{Platform} (field : string) (task : JSValue) : Z :=
  default 0%Z (Date_value (get task field)).

(** A task [sortTasks] can order by a date field. *)
Definition dated `{Platform} (field : string) (task : JSValue) : Prop :=
  nullish task = false /\ Date_value (get task field) <> None.

Definition same_date `{Platform} (field : string) (a b : JSValue) : bool :=
  (date_of field a =? date_of field b)%Z.

(** The due date of a task that has one. *)
Definition due `{Platform} (task : JSValue) : option Z :=
  if truthy (get task "dueDate") then Some (date_of "dueDate" task) else None.

(** A task [sortTasks] can order by due date: its due date, if it has one,
    is a date. *)
Definition due_ok `{Platform} (task : JSValue) : Prop :=
  nullish task = false /\
  (truthy (get task "dueDate") = true ->
   Date_value (get task "dueDate") <> None).

(** The order of [dueDate-asc]: earlier due dates first, the tasks without
    a due date last. *)
Definition due_asc `{Platform} (a b : JSValue) : Prop :=
  match due a, due b with
  | Some x, Some y => (x <= y)%Z
  | None, Some _ => False
  | _, None => True
  end.

(** The order of [dueDate-desc]: the tasks without a due date first, then
    later due dates first. *)
Definition due_desc `{Platform} (a b : JSValue) : Prop :=
  match due a, due b with
  | Some x, Some y => (y <= x)%Z
  | Some _, None => False
  | None, _ => True
  end.

Definition same_due `{Platform} (a b : JSValue) : bool :=
  match due a, due b with
  | Some x, Some y => (x =? y)%Z
  | None, None => true
  | _, _ => false
  end.

(** The three priorities of the application, by rank. *)
Definition priority_rank (task : JSValue) : Z :=
  match get task "priority" with
  | JStr s =>
      if s =? "High" then 3 else if s =? "Medium" then 2
      else if s =? "Low" then 1 else 0
  | _ => 0
  end.

Definition prioritised (task : JSValue) : Prop :=
  nullish task = false /\ (1 <= priority_rank task)%Z.

Definition same_priority (a b : JSValue) : bool :=
  (priority_rank a =? priority_rank b)%Z.

(** JSON carries the task list [ts]: the text written for it at the time of
    [w] reads back as the object written. *)
Definition carried `{Platform} (w : World) (ts : list JSValue) : Prop :=
  let text := JSON_stringify (envelope (clock w) ts) in
  JSON_parse text = Some (envelope (clock w) ts) /\ text <> EmptyString.

(** The world [w'] a method leaves when run in [w] holds, under
    [taskflow_tasks], the text of its own collection. *)
Definition persisted `{Platform} (w w' : World) : Prop :=
  useIndexedDB w' = false /\ clock w' = clock w /\
  localStorage w' = Some (JSON_stringify (envelope (clock w) (tasks w'))).

(** A text without a space in it. *)
Fixpoint spaceless (s : string) : bool :=
  match s with
  | EmptyString => true
  | String c s' => negb (nat_of_ascii c =? 32)%nat && spaceless s'
  end.

(** ** A reference for the other queries, and more samples *)

Module ReferenceServer.
Import Reference.

Definition owned_by (userId row : JSValue) : bool :=
  strict_equal (get row "user_id") userId.

Definition select (table : list JSValue) (userId : JSValue)
  : Result (list JSValue) :=
  Ok (List.filter (owned_by userId) table).

(** The row [row] after the UPDATE for [task]. *)
Definition updated_row (task updatedAt row : JSValue) : JSValue :=
  JObj [("id", get row "id");
        ("user_id", get row "user_id");
        ("title", get task "title");
        ("description", js_or (get task "description") JNull);
        ("category", js_or (get task "category") JNull);
        ("priority", js_or (get task "priority") (JStr "Medium"));
        ("status", js_or (get task "status") (JStr "todo"));
        ("due_date", js_or (get task "dueDate") JNull);
        ("created_at", get row "created_at");
        ("updated_at", updatedAt)].

Definition update (table : list JSValue) (userId task updatedAt : JSValue)
  : Result (list JSValue * list JSValue) :=
  let hit row :=
    strict_equal (get row "id") (get task "id") && owned_by userId row in
  if nullish (get task "title") then
    Throw (Error "null value in column title violates not-null constraint")
  else
    Ok (map (fun row => if hit row then updated_row task updatedAt row else row)
            table,
        map (updated_row task updatedAt) (List.filter hit table)).

#[export] Instance queries : @SyncQueries postgres := {
  select_tasks := select;
  update_task := update
}.

End ReferenceServer.

Module Cases.
Import Reference Samples.

(** An API client that cannot reach the server. *)
Definition offline : JSValue -> M unit := fun _ => throw NetworkError.

(** A collation: the order of the character codes. *)
Definition by_code (a b : string) : Z :=
  match String.compare a b with
  | Lt => (-1)%Z
  | Eq => 0%Z
  | Gt => 1%Z
  end.

(** A task with every field of the application. *)
Definition card (id title priority : string) (dueDate : JSValue)
  (updatedAt : string) : JSValue :=
  JObj [("id", JStr id); ("title", JStr title);
        ("description", JStr EmptyString); ("category", JStr "home");
        ("priority", JStr priority); ("status", JStr "todo");
        ("dueDate", dueDate);
        ("createdAt", JStr "2024-01-01"); ("updatedAt", JStr updatedAt)].

Definition milk : JSValue :=
  card "m" "Buy Milk" "Low" (JStr "2024-02-01") "2024-01-02".
Definition taxes : JSValue :=
  card "t" "File taxes" "High" (JStr "2024-01-15") "2024-01-03".
Definition nap : JSValue := card "n" "Nap" "Medium" JNull "2024-01-01".

(** A verifier that accepts one token, the one of the user [u1]. *)
Definition one_token (token : string) : option JSValue :=
  if String.eqb token "abc" then Some (JObj [("userId", JStr "u1")]) else None.

(** The tasks table holding the server copy of [a] for the user [u1]. *)
Definition table : @Database postgres := [row_of (JStr "u1") a_server].


End Cases.

(** * Properties *)

Local Open Scope list_scope.

(** ** Values and maps *)

Lemma strict_equal_eq a b : strict_equal a b = true -> a = b.
Proof.
  destruct a, b; simpl; try discriminate; intros E; try reflexivity.
  - apply Bool.eqb_prop in E. congruence.
  - apply Z.eqb_eq in E. congruence.
  - apply String.eqb_eq in E. congruence.
Qed.

Lemma strict_equal_refl a : primitive a = true -> strict_equal a a = true.
Proof.
  destruct a; simpl; try discriminate; intros _; try reflexivity.
  - apply Bool.eqb_reflx.
  - apply Z.eqb_refl.
  - apply String.eqb_refl.
Qed.

Lemma strict_equal_sym a b : strict_equal a b = strict_equal b a.
Proof.
  destruct a, b; simpl; try reflexivity.
  - destruct b, b0; reflexivity.
  - apply Z.eqb_sym.
  - apply String.eqb_sym.
Qed.

Lemma strict_equal_ne a b : a <> b -> strict_equal a b = false.
Proof.
  intros N. destruct (strict_equal a b) eqn:E; [|reflexivity].
  apply strict_equal_eq in E. contradiction.
Qed.

Lemma truthy_not_nullish v : truthy v = true -> nullish v = false.
Proof. destruct v; simpl; congruence. Qed.

Lemma is_task_truthy v : is_task v = true -> truthy v = true.
Proof. destruct v; simpl; congruence. Qed.

Lemma is_task_primitive v : is_task v = true -> primitive (id_of v) = true.
Proof. destruct v; simpl; congruence. Qed.

Lemma prop_task v k : truthy v = true -> prop v k = Ok (get v k).
Proof. intros T. unfold prop. rewrite (truthy_not_nullish _ T). reflexivity. Qed.

Lemma map_set_keys k v m k' :
  In k' (map fst (map_set k v m)) <-> k' = k \/ In k' (map fst m).
Proof.
  induction m as [|[k0 v0] m IH]; simpl.
  - intuition congruence.
  - destruct (strict_equal k0 k) eqn:E; simpl.
    + apply strict_equal_eq in E. subst. intuition congruence.
    + rewrite IH. intuition congruence.
Qed.

Lemma map_set_values k v m x :
  In x (map_values (map_set k v m)) -> x = v \/ In x (map_values m).
Proof.
  unfold map_values. induction m as [|[k0 v0] m IH]; simpl.
  - intuition congruence.
  - destruct (strict_equal k0 k); simpl; intuition congruence.
Qed.

Lemma map_get_absent k m : ~ In k (map fst m) -> map_get k m = JUndefined.
Proof.
  induction m as [|[k0 v0] m IH]; simpl; [reflexivity|]. intros N.
  destruct (strict_equal k0 k) eqn:E.
  - apply strict_equal_eq in E. tauto.
  - apply IH. tauto.
Qed.

Lemma map_get_in k m :
  truthy (map_get k m) = true -> In (k, map_get k m) m.
Proof.
  induction m as [|[k0 v0] m IH]; simpl; [discriminate|].
  destruct (strict_equal k0 k) eqn:E.
  - apply strict_equal_eq in E. subst. auto.
  - auto.
Qed.

Lemma map_get_unique k v m :
  primitive k = true -> List.NoDup (map fst m) -> In (k, v) m -> map_get k m = v.
Proof.
  intros P. induction m as [|[k0 v0] m IH]; simpl; [tauto|].
  intros ND [E|I]; inversion ND; subst.
  - inversion E; subst. rewrite strict_equal_refl by assumption. reflexivity.
  - destruct (strict_equal k0 k) eqn:E.
    + apply strict_equal_eq in E. subst.
      exfalso. apply H1. apply (in_map fst) in I. exact I.
    + auto.
Qed.

Lemma map_get_set_eq k v m :
  primitive k = true -> map_get k (map_set k v m) = v.
Proof.
  intros P. induction m as [|[k0 v0] m IH]; simpl.
  - rewrite strict_equal_refl by assumption. reflexivity.
  - destruct (strict_equal k0 k) eqn:E; simpl; rewrite ?E; auto.
Qed.

Lemma map_get_set_ne k k' v m :
  k <> k' -> map_get k' (map_set k v m) = map_get k' m.
Proof.
  intros N. induction m as [|[k0 v0] m IH]; simpl.
  - rewrite strict_equal_ne by assumption. reflexivity.
  - destruct (strict_equal k0 k) eqn:E; simpl.
    + apply strict_equal_eq in E. subst.
      rewrite strict_equal_ne by assumption. reflexivity.
    + rewrite IH. reflexivity.
Qed.

Lemma map_has_in k m :
  primitive k = true -> (map_has k m = true <-> In k (map fst m)).
Proof.
  intros P. induction m as [|[k0 v0] m IH]; simpl.
  - split; [discriminate | tauto].
  - rewrite orb_true_iff, IH. split.
    + intros [E|I]; [left; apply strict_equal_eq; exact E | right; exact I].
    + intros [E|I]; [left; subst; apply strict_equal_refl; exact P | right; exact I].
Qed.

Lemma map_set_NoDup k v m :
  primitive k = true -> List.NoDup (map fst m) -> List.NoDup (map fst (map_set k v m)).
Proof.
  intros P. induction m as [|[k0 v0] m IH]; simpl; intros ND.
  - constructor; [simpl; tauto | constructor].
  - inversion ND; subst. destruct (strict_equal k0 k) eqn:E; simpl.
    + constructor; assumption.
    + constructor; [|auto]. rewrite map_set_keys. intros [->|I]; [|tauto].
      rewrite strict_equal_refl in E by assumption. discriminate.
Qed.

Lemma keyed_nil : keyed [].
Proof. split; constructor. Qed.

Lemma map_set_Forall (P : JSValue * JSValue -> Prop) k v m :
  (forall k0 v0, P (k0, v0) -> k0 = k -> P (k0, v)) -> P (k, v) ->
  Forall P m -> Forall P (map_set k v m).
Proof.
  intros Hrep Hnew. induction m as [|[k0 v0] m IH]; simpl; intros F.
  - constructor; [assumption | constructor].
  - inversion F; subst. destruct (strict_equal k0 k) eqn:E.
    + apply strict_equal_eq in E. constructor; [|assumption]. eauto.
    + constructor; auto.
Qed.

Lemma keyed_put m t : is_task t = true -> keyed m -> keyed (put_task m t).
Proof.
  intros T [F ND]. split.
  - apply map_set_Forall; simpl; auto.
  - apply map_set_NoDup; [apply is_task_primitive; exact T | exact ND].
Qed.

Lemma keyed_fold_put l m :
  Forall (fun t => is_task t = true) l -> keyed m -> keyed (fold_left put_task l m).
Proof.
  revert m. induction l as [|t l IH]; simpl; intros m F K; [exact K|].
  inversion F; subst. apply IH; [assumption|]. apply keyed_put; assumption.
Qed.

Lemma keyed_get_truthy m k :
  keyed m -> In k (map fst m) -> truthy (map_get k m) = true.
Proof.
  intros [F ND]. induction m as [|[k0 v0] m IH]; simpl; [tauto|].
  inversion F; subst. inversion ND; subst. simpl in *. intros [->|I].
  - destruct H1 as [-> T]. rewrite strict_equal_refl.
    + apply is_task_truthy; exact T.
    + apply is_task_primitive; exact T.
  - destruct (strict_equal k0 k); [apply is_task_truthy; tauto | auto].
Qed.

Lemma keyed_get m k :
  keyed m -> truthy (map_get k m) = true ->
  is_task (map_get k m) = true /\ id_of (map_get k m) = k.
Proof.
  intros [F _] T. apply map_get_in in T.
  rewrite List.Forall_forall in F. apply F in T. simpl in T. intuition congruence.
Qed.

Lemma keyed_values m x :
  keyed m -> In x (map_values m) -> is_task x = true /\ map_get (id_of x) m = x.
Proof.
  intros [F ND] I. unfold map_values in I. apply in_map_iff in I.
  destruct I as [[k v] [<- I]]. simpl.
  rewrite List.Forall_forall in F. pose proof (F _ I) as [E T]. simpl in *.
  split; [exact T|]. apply map_get_unique; [apply is_task_primitive; exact T | exact ND |].
  rewrite <- E. exact I.
Qed.

(** ** Running [mergeTasks] *)

Section MergeRuns.
Context `{Platform}.

Lemma add_requests_nil w : add_requests [] w = w.
Proof. destruct w. unfold add_requests. simpl. rewrite app_nil_r. reflexivity. Qed.

Lemma add_requests_app a b w :
  add_requests b (add_requests a w) = add_requests (a ++ b) w.
Proof. unfold add_requests. simpl. rewrite app_assoc. reflexivity. Qed.

Lemma add_request_one c w : add_request c w = add_requests [c] w.
Proof. reflexivity. Qed.

Lemma uniform_ret {A} (a : A) : uniform (mret a).
Proof.
  exists (Ok a), []. split; [constructor|]. intros w.
  rewrite add_requests_nil. reflexivity.
Qed.

Lemma uniform_lift {A} (r : Result A) : uniform (lift r).
Proof.
  exists r, []. split; [constructor|]. intros w.
  rewrite add_requests_nil. reflexivity.
Qed.

Lemma uniform_bind {A B} (m : M A) (f : A -> M B) :
  uniform m -> (forall a, uniform (f a)) -> uniform (m ≫= f).
Proof.
  intros (r & cs & Fc & Hm) Hf. destruct r as [a|e].
  - destruct (Hf a) as (r' & cs' & Fc' & Hfa).
    exists r', (cs ++ cs'). split; [apply Forall_app; auto|]. intros w.
    unfold mbind, M_bind. rewrite Hm, Hfa. rewrite add_requests_app. reflexivity.
  - exists (Throw e), cs. split; [assumption|]. intros w.
    unfold mbind, M_bind. rewrite Hm. reflexivity.
Qed.

Lemma uniform_updateTask k t : uniform (apiClient_updateTask k t).
Proof.
  exists (Ok tt), [ApiUpdateTask k t]. split; [repeat constructor|].
  intros w. reflexivity.
Qed.

Lemma uniform_foldM {S A} (body : S -> A -> M S) l :
  (forall s x, uniform (body s x)) -> forall s, uniform (foldM body s l).
Proof.
  intros Hb. induction l as [|x l IH]; intros s; simpl.
  - apply uniform_ret.
  - apply uniform_bind; auto.
Qed.

Lemma uniform_addLocal m t : uniform (addLocal m t).
Proof.
  unfold addLocal. apply uniform_bind; [apply uniform_lift|].
  intros a. apply uniform_ret.
Qed.

Lemma uniform_overrideWithServer m t : uniform (overrideWithServer m t).
Proof.
  unfold overrideWithServer. apply uniform_bind; [apply uniform_lift|].
  intros id. destruct (negb (truthy (map_get id m))); [apply uniform_ret|].
  apply uniform_bind; [apply uniform_lift|]. intros su.
  apply uniform_bind; [apply uniform_lift|]. intros lu.
  destruct (date_ge (Date_value su) (Date_value lu)); [apply uniform_ret|].
  apply uniform_bind; [apply uniform_updateTask|]. intros _. apply uniform_ret.
Qed.

Lemma uniform_mergeTasks L S : uniform (mergeTasks L S).
Proof.
  unfold mergeTasks.
  apply uniform_bind; [apply uniform_foldM, uniform_addLocal|]. intros m.
  apply uniform_bind; [apply uniform_foldM, uniform_overrideWithServer|].
  intros m'. apply uniform_ret.
Qed.

Lemma run_addLocal L : forall m w,
  Forall (fun t => is_task t = true) L ->
  foldM addLocal m L w = (Ok (fold_left put_task L m), w).
Proof.
  induction L as [|t L IH]; intros m w F; simpl; [reflexivity|].
  inversion F; subst. unfold mbind, M_bind at 1. unfold addLocal at 1.
  unfold mbind, M_bind, lift. rewrite prop_task by (apply is_task_truthy; assumption).
  simpl. apply IH. assumption.
Qed.

Lemma merge_step_calls m cs t :
  merge_step (m, cs) t =
  (fst (merge_step (m, []) t), cs ++ snd (merge_step (m, []) t)).
Proof.
  unfold merge_step.
  destruct (negb (truthy (map_get (id_of t) m))); simpl;
    [rewrite app_nil_r; reflexivity|].
  destruct (date_ge _ _); simpl; [rewrite app_nil_r|]; reflexivity.
Qed.

Lemma merge_fold_calls S : forall m cs,
  fold_left merge_step S (m, cs) =
  (fst (fold_left merge_step S (m, [])),
   cs ++ snd (fold_left merge_step S (m, []))).
Proof.
  induction S as [|t S IH]; intros m cs; cbn [fold_left].
  - simpl. rewrite app_nil_r. reflexivity.
  - rewrite (merge_step_calls m cs t).
    destruct (merge_step (m, []) t) as [m1 c1] eqn:E. simpl.
    rewrite (IH m1 (cs ++ c1)), (IH m1 c1). simpl.
    rewrite app_assoc. reflexivity.
Qed.

Lemma override_step m t w :
  is_task t = true ->
  overrideWithServer m t w =
  (Ok (fst (merge_step (m, []) t)), add_requests (snd (merge_step (m, []) t)) w).
Proof.
  intros T. unfold overrideWithServer, merge_step, mbind, M_bind, lift.
  rewrite prop_task by (apply is_task_truthy; assumption).
  fold (id_of t). destruct (truthy (map_get (id_of t) m)) eqn:G; simpl.
  - rewrite prop_task by (apply is_task_truthy; assumption).
    rewrite prop_task by assumption.
    unfold updated. destruct (date_ge _ _); simpl.
    + rewrite add_requests_nil. reflexivity.
    + reflexivity.
  - rewrite add_requests_nil. reflexivity.
Qed.

Lemma run_overrideWithServer S : forall m w,
  Forall (fun t => is_task t = true) S ->
  foldM overrideWithServer m S w =
  (Ok (fst (fold_left merge_step S (m, []))),
   add_requests (snd (fold_left merge_step S (m, []))) w).
Proof.
  induction S as [|t S IH]; intros m w F; cbn [fold_left foldM].
  - simpl. rewrite add_requests_nil. reflexivity.
  - inversion F; subst. unfold mbind, M_bind at 1.
    rewrite override_step by assumption.
    destruct (merge_step (m, []) t) as [m1 c1] eqn:E. simpl.
    rewrite IH by assumption. rewrite (merge_fold_calls S m1 c1). simpl.
    rewrite add_requests_app. reflexivity.
Qed.

(** On task lists [mergeTasks] returns: its result is the values of the
    folded map, and the world gains the requests of the fold. *)
Lemma mergeTasks_run L S w :
  Forall (fun t => is_task t = true) L ->
  Forall (fun t => is_task t = true) S ->
  mergeTasks L S w =
  (Ok (map_values (fst (merge_fold L S))),
   add_requests (snd (merge_fold L S)) w).
Proof.
  intros FL FS. unfold mergeTasks, merge_fold, mbind, M_bind at 1.
  rewrite run_addLocal by assumption. unfold M_bind at 1.
  rewrite run_overrideWithServer by assumption. reflexivity.
Qed.

(** *** The folded map *)

Lemma put_fold_keys L : forall m k,
  In k (map fst (fold_left put_task L m)) <-> In k (map fst m) \/ In k (ids L).
Proof.
  induction L as [|t L IH]; intros m k; cbn [fold_left]; [simpl; tauto|].
  rewrite IH. unfold put_task. rewrite map_set_keys. simpl. intuition congruence.
Qed.

Lemma merge_step_keys m cs t k :
  In k (map fst (fst (merge_step (m, cs) t))) <->
  In k (map fst m) \/ k = id_of t.
Proof.
  unfold merge_step. destruct (truthy (map_get (id_of t) m)) eqn:G; simpl.
  - assert (In (id_of t) (map fst m)) as I.
    { apply map_get_in in G. apply (in_map fst) in G. exact G. }
    destruct (date_ge _ _); simpl.
    + unfold put_task. rewrite map_set_keys. intuition congruence.
    + intuition congruence.
  - unfold put_task. rewrite map_set_keys. tauto.
Qed.

Lemma merge_fold_keys S : forall m cs k,
  In k (map fst (fst (fold_left merge_step S (m, cs)))) <->
  In k (map fst m) \/ In k (ids S).
Proof.
  induction S as [|t S IH]; intros m cs k; cbn [fold_left]; [simpl; tauto|].
  destruct (merge_step (m, cs) t) as [m1 c1] eqn:E.
  rewrite IH. pose proof (merge_step_keys m cs t k) as K. rewrite E in K.
  simpl in K. rewrite K. simpl. intuition congruence.
Qed.

Lemma keyed_merge_step m cs t :
  is_task t = true -> keyed m -> keyed (fst (merge_step (m, cs) t)).
Proof.
  intros T K. unfold merge_step.
  destruct (negb (truthy (map_get (id_of t) m))); simpl;
    [apply keyed_put; assumption|].
  destruct (date_ge _ _); simpl; [apply keyed_put|]; assumption.
Qed.

Lemma keyed_merge_fold S : forall m cs,
  Forall (fun t => is_task t = true) S -> keyed m ->
  keyed (fst (fold_left merge_step S (m, cs))).
Proof.
  induction S as [|t S IH]; intros m cs F K; cbn [fold_left]; [exact K|].
  inversion F; subst.
  destruct (merge_step (m, cs) t) as [m1 c1] eqn:E.
  apply IH; [assumption|]. pose proof (keyed_merge_step m cs t H2 K) as K1.
  rewrite E in K1. exact K1.
Qed.

Lemma keyed_ids m : keyed m -> ids (map_values m) = map fst m.
Proof.
  intros [F _]. unfold ids, map_values. rewrite map_map.
  apply map_ext_in. intros kv I. rewrite List.Forall_forall in F.
  symmetry. apply F. exact I.
Qed.

Lemma merge_step_resolve m cs t :
  merge_step (m, cs) t =
  let held := map_get (id_of t) m in
  (if pushes held t then m else put_task m t,
   cs ++ if pushes held t then [ApiUpdateTask (id_of t) held] else []).
Proof.
  unfold merge_step, pushes. cbv zeta.
  destruct (truthy (map_get (id_of t) m)); simpl.
  - destruct (date_ge _ _); simpl; rewrite ?app_nil_r; reflexivity.
  - rewrite app_nil_r. reflexivity.
Qed.

Lemma merge_step_get m cs t :
  is_task t = true ->
  map_get (id_of t) (fst (merge_step (m, cs) t)) =
  resolve (map_get (id_of t) m) t.
Proof.
  intros T. rewrite merge_step_resolve. cbv zeta. unfold resolve.
  destruct (pushes _ _); simpl; [reflexivity|].
  apply map_get_set_eq, is_task_primitive, T.
Qed.

Lemma merge_step_get_other m cs t k :
  k <> id_of t ->
  map_get k (fst (merge_step (m, cs) t)) = map_get k m.
Proof.
  intros N. rewrite merge_step_resolve. cbv zeta.
  destruct (pushes _ _); simpl; [reflexivity|].
  apply map_get_set_ne. congruence.
Qed.

Lemma put_fold_get_other L : forall m k,
  ~ In k (ids L) -> map_get k (fold_left put_task L m) = map_get k m.
Proof.
  induction L as [|t L IH]; intros m k N; cbn [fold_left]; [reflexivity|].
  simpl in N. rewrite IH by tauto. apply map_get_set_ne. intros E. tauto.
Qed.

(** Among local tasks with one id the last is the one the map keeps. *)
Lemma put_fold_get_last L1 l L2 m :
  is_task l = true -> ~ In (id_of l) (ids L2) ->
  map_get (id_of l) (fold_left put_task (L1 ++ l :: L2) m) = l.
Proof.
  intros T N. rewrite fold_left_app. cbn [fold_left].
  rewrite put_fold_get_other by assumption.
  apply map_get_set_eq, is_task_primitive, T.
Qed.


Lemma merge_fold_get_other S : forall m cs k,
  ~ In k (ids S) ->
  map_get k (fst (fold_left merge_step S (m, cs))) = map_get k m.
Proof.
  induction S as [|t S IH]; intros m cs k N; cbn [fold_left]; [reflexivity|].
  simpl in N. destruct (merge_step (m, cs) t) as [m1 c1] eqn:E.
  rewrite IH by tauto.
  pose proof (merge_step_get_other m cs t k) as G. rewrite E in G.
  apply G. intros ->. tauto.
Qed.

(** With one server task per id, each meets the entry the local tasks left
    under its id. *)
Lemma merge_fold_get S : forall m cs s,
  List.NoDup (ids S) -> Forall (fun t => is_task t = true) S -> In s S ->
  map_get (id_of s) (fst (fold_left merge_step S (m, cs))) =
  resolve (map_get (id_of s) m) s.
Proof.
  induction S as [|t S IH]; intros m cs s ND F I; [destruct I|].
  cbn [fold_left]. simpl in ND. inversion ND; subst. inversion F; subst.
  destruct (merge_step (m, cs) t) as [m1 c1] eqn:E.
  destruct I as [->|I].
  - rewrite merge_fold_get_other by assumption.
    pose proof (merge_step_get m cs s H4) as G. rewrite E in G. exact G.
  - rewrite IH by assumption.
    assert (id_of s <> id_of t) as N.
    { intros Eq. apply H2. rewrite <- Eq. apply in_map. exact I. }
    pose proof (merge_step_get_other m cs t (id_of s) N) as G.
    rewrite E in G. simpl in G. rewrite G. reflexivity.
Qed.


End MergeRuns.

(** ** Running the merge phase of /sync *)

Section SyncRuns.
Context `{Platform}.

Lemma taskMap_of_fold l : forall m,
  Forall (fun t => is_task t = true) l ->
  foldR (fun m task => id ← prop task "id"; mret (map_set id task m)) m l =
  Ok (fold_left put_task l m).
Proof.
  induction l as [|t l IH]; intros m F; simpl; [reflexivity|].
  inversion F; subst. rewrite prop_task by (apply is_task_truthy; assumption).
  simpl. apply IH. assumption.
Qed.

Lemma taskMap_of_run l :
  Forall (fun t => is_task t = true) l ->
  taskMap_of l = Ok (fold_left put_task l []).
Proof. apply taskMap_of_fold. Qed.

Lemma processClient_run sm plan c :
  is_task c = true ->
  processClient sm plan c =
  Ok (if on_server sm c then
        if client_newer sm c then
          mkSyncPlan (mergedTasks plan ++ [c]) (tasksToCreate plan)
                     (tasksToUpdate plan ++ [c])
        else
          mkSyncPlan (mergedTasks plan ++ [map_get (id_of c) sm])
                     (tasksToCreate plan) (tasksToUpdate plan)
      else
        mkSyncPlan (mergedTasks plan) (tasksToCreate plan ++ [c])
                   (tasksToUpdate plan)).
Proof.
  intros T. unfold processClient, on_server, client_newer, updated, id_of.
  rewrite !(prop_task c) by (apply is_task_truthy; assumption).
  unfold mbind at 1, Result_bind at 1.
  destruct (truthy (map_get (get c "id") sm)) eqn:G; simpl.
  - rewrite prop_task by assumption. simpl.
    destruct (date_gt _ _); reflexivity.
  - reflexivity.
Qed.

Lemma processClient_fold sm C : forall plan,
  Forall (fun t => is_task t = true) C ->
  foldR (processClient sm) plan C =
  Ok (mkSyncPlan
        (mergedTasks plan ++ map (winner sm) (List.filter (on_server sm) C))
        (tasksToCreate plan ++ List.filter (fun c => negb (on_server sm c)) C)
        (tasksToUpdate plan ++
           List.filter (fun c => on_server sm c && client_newer sm c) C)).
Proof.
  induction C as [|c C IH]; intros plan F; cbn [foldR List.filter map].
  - rewrite !app_nil_r. destruct plan; reflexivity.
  - inversion F; subst. rewrite processClient_run by assumption.
    unfold mbind, Result_bind. rewrite IH by assumption.
    destruct (on_server sm c) eqn:E1; [destruct (client_newer sm c) eqn:E2|];
      simpl; unfold winner; rewrite ?E2, <- ?app_assoc; reflexivity.
Qed.

Lemma processServer_run cm plan s :
  is_task s = true ->
  processServer cm plan s =
  Ok (if negb (map_has (id_of s) cm) then
        mkSyncPlan (mergedTasks plan ++ [s]) (tasksToCreate plan)
                   (tasksToUpdate plan)
      else plan).
Proof.
  intros T. unfold processServer, id_of.
  rewrite prop_task by (apply is_task_truthy; assumption).
  unfold mbind, Result_bind.
  destruct (negb (map_has (get s "id") cm)); reflexivity.
Qed.

Lemma processServer_fold cm S : forall plan,
  Forall (fun t => is_task t = true) S ->
  foldR (processServer cm) plan S =
  Ok (mkSyncPlan
        (mergedTasks plan ++
           List.filter (fun s => negb (map_has (id_of s) cm)) S)
        (tasksToCreate plan) (tasksToUpdate plan)).
Proof.
  induction S as [|s S IH]; intros plan F; cbn [foldR List.filter].
  - rewrite app_nil_r. destruct plan; reflexivity.
  - inversion F; subst. rewrite processServer_run by assumption.
    unfold mbind, Result_bind. rewrite IH by assumption.
    destruct (negb (map_has (id_of s) cm)); simpl;
      rewrite <- ?app_assoc; reflexivity.
Qed.

(** On task lists the merge phase returns the plan in closed form. *)
Lemma sync_merge_run C S :
  Forall (fun t => is_task t = true) C ->
  Forall (fun t => is_task t = true) S ->
  sync_merge C S = Ok (plan_of C S).
Proof.
  intros FC FS. unfold sync_merge.
  rewrite !taskMap_of_run by assumption. unfold mbind, Result_bind.
  rewrite processClient_fold by assumption.
  rewrite processServer_fold by assumption. reflexivity.
Qed.

End SyncRuns.

(** ** The reconciler *)

Section Reconciler.
Context `{Platform}.


Lemma values_of_get k m :
  truthy (map_get k m) = true -> In (map_get k m) (map_values m).
Proof.
  intros T. apply map_get_in in T. apply (in_map snd) in T. exact T.
Qed.

Lemma merge_fold_keyed L S :
  Forall (fun t => is_task t = true) L ->
  Forall (fun t => is_task t = true) S ->
  keyed (fst (merge_fold L S)).
Proof.
  intros FL FS. apply keyed_merge_fold; [assumption|].
  apply keyed_fold_put; [assumption | apply keyed_nil].
Qed.

Lemma merge_fold_ids L S k :
  Forall (fun t => is_task t = true) L ->
  Forall (fun t => is_task t = true) S ->
  In k (ids (map_values (fst (merge_fold L S)))) <->
  In k (ids L) \/ In k (ids S).
Proof.
  intros FL FS. rewrite keyed_ids by (apply merge_fold_keyed; assumption).
  unfold merge_fold. rewrite merge_fold_keys, put_fold_keys. simpl. tauto.
Qed.


(** A local task whose id no later local task and no server task has is in
    the merged list. *)
Lemma last_local_merged L1 l L2 S :
  Forall (fun t => is_task t = true) (L1 ++ l :: L2) ->
  ~ In (id_of l) (ids L2) -> ~ In (id_of l) (ids S) ->
  In l (map_values (fst (merge_fold (L1 ++ l :: L2) S))).
Proof.
  intros FL N2 NS.
  assert (is_task l = true) as T.
  { rewrite List.Forall_forall in FL. apply FL, in_or_app. simpl. auto. }
  assert (map_get (id_of l) (fst (merge_fold (L1 ++ l :: L2) S)) = l) as G.
  { unfold merge_fold. rewrite merge_fold_get_other by assumption.
    apply put_fold_get_last; assumption. }
  rewrite <- G at 1. apply values_of_get. rewrite G.
  apply is_task_truthy, T.
Qed.

Lemma merge_fold_snoc L S s :
  merge_fold L (S ++ [s]) = merge_step (merge_fold L S) s.
Proof. unfold merge_fold. rewrite fold_left_app. reflexivity. Qed.

End Reconciler.

Section SyncPlanFacts.
Context `{Platform}.

Lemma put_fold_keyed l :
  Forall (fun t => is_task t = true) l -> keyed (fold_left put_task l []).
Proof. intros F. apply keyed_fold_put; [assumption | apply keyed_nil]. Qed.

Lemma on_server_iff S c :
  Forall (fun t => is_task t = true) S ->
  on_server (fold_left put_task S []) c = true <-> In (id_of c) (ids S).
Proof.
  intros F. unfold on_server. split.
  - intros T. apply map_get_in in T. apply (in_map fst) in T. simpl in T.
    apply put_fold_keys in T. simpl in T. tauto.
  - intros I. apply keyed_get_truthy; [apply put_fold_keyed; assumption|].
    apply put_fold_keys. tauto.
Qed.

Lemma has_client_iff C s :
  is_task s = true ->
  map_has (id_of s) (fold_left put_task C []) = true <-> In (id_of s) (ids C).
Proof.
  intros T. rewrite map_has_in by (apply is_task_primitive; assumption).
  rewrite put_fold_keys. simpl. tauto.
Qed.

Lemma winner_id S c :
  Forall (fun t => is_task t = true) S ->
  on_server (fold_left put_task S []) c = true ->
  id_of (winner (fold_left put_task S []) c) = id_of c.
Proof.
  intros F O. unfold winner. destruct (client_newer _ _); [reflexivity|].
  apply keyed_get; [apply put_fold_keyed; assumption | exact O].
Qed.


Lemma NoDup_ids_filter f (l : list JSValue) :
  List.NoDup (ids l) -> List.NoDup (ids (List.filter f l)).
Proof.
  unfold ids. induction l as [|x l IH]; simpl; intros ND; [constructor|].
  inversion ND; subst. destruct (f x); simpl; [|auto].
  constructor; [|auto]. intros I. apply H2.
  apply in_map_iff in I. destruct I as (y & E & I).
  apply filter_In in I. apply in_map_iff. exists y. tauto.
Qed.

Lemma ids_filter_in f (l : list JSValue) k :
  In k (ids (List.filter f l)) <-> exists x, In x l /\ f x = true /\ id_of x = k.
Proof.
  unfold ids. rewrite in_map_iff. split.
  - intros (x & E & I). apply filter_In in I. exists x. tauto.
  - intros (x & I & Fx & E). exists x. rewrite filter_In. tauto.
Qed.

Lemma winners_ids S C :
  Forall (fun t => is_task t = true) S ->
  ids (map (winner (fold_left put_task S []))
           (List.filter (on_server (fold_left put_task S [])) C)) =
  ids (List.filter (on_server (fold_left put_task S [])) C).
Proof.
  intros F. unfold ids. rewrite map_map. apply map_ext_in.
  intros c I. apply filter_In in I. apply winner_id; tauto.
Qed.

End SyncPlanFacts.

(** ** Claims about the reconciler *)

Section ReconcilerClaims.
Context `{Platform}.

(** C1 (as amended).  On task lists, [mergeTasks] returns exactly one entry
    per id of the union of the ids of its two inputs.  Of local entries with
    one id the last-seen is the one that takes part.  A repeated id in
    [serverTasks] is resolved like a conflict: the last-seen server entry
    replaces the entry held under its id unless that one is strictly newer,
    in which case the merged list stays as it was.  In the /sync route, for
    inputs without repeated ids, [mergedTasks] holds exactly the ids of the
    server and [tasksToCreate] the ids found on the client only, so that the
    two together hold each id of the union once. *)
Theorem merge_covers_union (L S : list JSValue) (w : World) :
  Forall (fun t => is_task t = true) L ->
  Forall (fun t => is_task t = true) S ->
  exists merged,
    fst (mergeTasks L S w) = Ok merged /\
    (forall k, In k (ids merged) <-> In k (ids L) \/ In k (ids S)) /\
    List.NoDup (ids merged) /\
    (forall L1 l L2, L = L1 ++ l :: L2 -> ~ In (id_of l) (ids L2) ->
       ~ In (id_of l) (ids S) -> In l merged) /\
    (forall S1 s merged1, S = S1 ++ [s] ->
       fst (mergeTasks L S1 w) = Ok merged1 ->
       (forall h, In h merged1 -> id_of h = id_of s ->
          date_ge (updated s) (updated h) = false -> merged = merged1) /\
       ((forall h, In h merged1 -> id_of h = id_of s ->
           date_ge (updated s) (updated h) = true) -> In s merged)) /\
    (List.NoDup (ids L) -> List.NoDup (ids S) ->
     exists plan,
       sync_merge L S = Ok plan /\
       (forall k, In k (ids (mergedTasks plan)) <-> In k (ids S)) /\
       (forall k, In k (ids (tasksToCreate plan)) <->
                  In k (ids L) /\ ~ In k (ids S)) /\
       List.NoDup (ids (mergedTasks plan ++ tasksToCreate plan))).
Proof.
  intros FL FS. exists (map_values (fst (merge_fold L S))).
  rewrite mergeTasks_run by assumption. cbn [fst].
  pose proof (merge_fold_keyed L S FL FS) as K.
  split; [reflexivity|]. split; [|split; [|split; [|split]]].
  - intros k. apply merge_fold_ids; assumption.
  - rewrite keyed_ids by assumption. apply K.
  - intros L1 l L2 -> N2 NS. apply last_local_merged; assumption.
  - intros S1 s merged1 -> E1.
    apply Forall_app in FS. destruct FS as [FS1 Fs].
    inversion Fs as [|? ? Ts _]; subst.
    rewrite mergeTasks_run in E1 by assumption. cbn [fst] in E1.
    inversion E1; subst merged1. clear E1.
    pose proof (merge_fold_keyed L S1 FL FS1) as K1.
    rewrite merge_fold_snoc.
    destruct (merge_fold L S1) as [m1 c1] eqn:E. cbn [fst] in *.
    rewrite merge_step_resolve. cbv zeta. cbn [fst]. split.
    + intros h Ih Eh D.
      destruct (keyed_values m1 h K1 Ih) as [Th Gh]. rewrite Eh in Gh.
      unfold pushes. rewrite Gh, D, (is_task_truthy h Th). reflexivity.
    + intros Hall. destruct (pushes (map_get (id_of s) m1) s) eqn:P.
      * unfold pushes in P. apply andb_true_iff in P. destruct P as [Pt Pd].
        pose proof (values_of_get _ _ Pt) as Ih.
        destruct (keyed_get m1 (id_of s) K1 Pt) as [_ Eh].
        rewrite (Hall _ Ih Eh) in Pd. discriminate.
      * assert (map_get (id_of s) (put_task m1 s) = s) as G.
        { apply map_get_set_eq, is_task_primitive, Ts. }
        rewrite <- G at 1. apply values_of_get. rewrite G.
        apply is_task_truthy, Ts.
  - intros NL NS. exists (plan_of L S). split; [apply sync_merge_run; assumption|].
    unfold plan_of. cbn [mergedTasks tasksToCreate].
    set (sm := fold_left put_task S []). set (cm := fold_left put_task L []).
    assert (forall k, In k (ids (map (winner sm) (List.filter (on_server sm) L)
                   ++ List.filter (fun s => negb (map_has (id_of s) cm)) S))
                      <-> In k (ids S)) as Hm.
    { intros k. unfold ids at 1. rewrite map_app, in_app_iff.
      fold (ids (map (winner sm) (List.filter (on_server sm) L))).
      fold (ids (List.filter (fun s => negb (map_has (id_of s) cm)) S)).
      subst sm. rewrite winners_ids by assumption. rewrite !ids_filter_in. split.
      - intros [(c & _ & O & <-)|(s & I & _ & <-)].
        + apply on_server_iff in O; assumption.
        + apply in_map. exact I.
      - intros I. unfold ids in I. apply in_map_iff in I.
        destruct I as (s & <- & Is).
        assert (is_task s = true) as Ts.
        { rewrite List.Forall_forall in FS. apply FS, Is. }
        destruct (map_has (id_of s) cm) eqn:Hh.
        + left. subst cm. apply has_client_iff in Hh; [|assumption].
          unfold ids in Hh. apply in_map_iff in Hh.
          destruct Hh as (c & Ec & Ic). exists c. split; [exact Ic|].
          split; [|exact Ec]. apply on_server_iff; [assumption|].
          rewrite Ec. apply in_map. exact Is.
        + right. exists s. rewrite Hh. auto. }
    assert (forall k, In k (ids (List.filter (fun c => negb (on_server sm c)) L))
                      <-> In k (ids L) /\ ~ In k (ids S)) as Hc.
    { intros k. rewrite ids_filter_in. split.
      - intros (c & Ic & O & <-). split; [apply in_map; exact Ic|].
        intros I. subst sm. apply on_server_iff in I; [|assumption].
        rewrite I in O. discriminate.
      - intros [IL NI]. unfold ids in IL. apply in_map_iff in IL.
        destruct IL as (c & <- & Ic). exists c. split; [exact Ic|].
        split; [|reflexivity]. apply negb_true_iff.
        destruct (on_server sm c) eqn:O; [|reflexivity].
        subst sm. apply on_server_iff in O; [contradiction | assumption]. }
    split; [exact Hm|]. split; [exact Hc|].
    unfold ids. rewrite map_app. apply List.NoDup_app.
    + rewrite map_app. subst sm. fold (ids (map (winner (fold_left put_task S []))
        (List.filter (on_server (fold_left put_task S [])) L))).
      rewrite winners_ids by assumption. apply List.NoDup_app.
      * apply NoDup_ids_filter; assumption.
      * apply NoDup_ids_filter; assumption.
      * intros k I1 I2. apply ids_filter_in in I1. apply ids_filter_in in I2.
        destruct I1 as (c & Ic & _ & <-). destruct I2 as (s & Is & Hh & Es).
        apply negb_true_iff in Hh.
        assert (is_task s = true) as Ts.
        { rewrite List.Forall_forall in FS. apply FS, Is. }
        assert (map_has (id_of s) cm = true) as Hh'.
        { subst cm. apply has_client_iff; [assumption|].
          rewrite Es. apply in_map. exact Ic. }
        congruence.
    + apply NoDup_ids_filter; assumption.
    + intros k I1 I2. apply Hm in I1. apply Hc in I2. tauto.
Qed.










(** C5.  The outcome of [mergeTasks], the merged list or the exception, and
    the requests it issues are the same in any two worlds: they depend on
    the two input lists alone, not on the clock, the store or the tasks the
    manager holds.  (The merge phase of the /sync route is a function of its
    two inputs by construction.) *)
Theorem merge_deterministic (L S : list JSValue) (w1 w2 : World) :
  fst (mergeTasks L S w1) = fst (mergeTasks L S w2) /\
  exists calls,
    requests (snd (mergeTasks L S w1)) = requests w1 ++ calls /\
    requests (snd (mergeTasks L S w2)) = requests w2 ++ calls.
Proof.
  destruct (uniform_mergeTasks L S) as (r & calls & _ & E).
  rewrite !E. split; [reflexivity|]. exists calls. split; reflexivity.
Qed.

End ReconcilerClaims.

(** ** The local task store *)

Section Store.
Context `{Platform}.

Lemma try_catch_ok {A} (body : M A) handler w a w' :
  body w = (Ok a, w') -> try_catch body handler w = (Ok a, w').
Proof. intros E. unfold try_catch. rewrite E. reflexivity. Qed.

Lemma try_catch_throw {A} (body : M A) handler w e w' :
  body w = (Throw e, w') -> try_catch body handler w = handler e w'.
Proof. intros E. unfold try_catch. rewrite E. reflexivity. Qed.

Lemma loadTasksLocalStorage_frame w : snd (loadTasksLocalStorage w) = w.
Proof.
  unfold loadTasksLocalStorage, try_catch, localStorage_getItem, read,
    mbind, M_bind, mret, M_ret, throw.
  destruct (localStorage w) as [data|]; [|reflexivity].
  destruct (data =? EmptyString); [reflexivity|].
  destruct (JSON_parse data) as [parsed|]; [|reflexivity].
  destruct (truthy parsed && truthy (get parsed "tasks")); [|reflexivity].
  destruct (get parsed "tasks"); reflexivity.
Qed.

(** In localStorage mode the load returns, whatever is stored. *)
Lemma loadTasksLocalStorage_returns w :
  exists items, loadTasksLocalStorage w = (Ok items, w).
Proof.
  unfold loadTasksLocalStorage, try_catch, localStorage_getItem, read,
    mbind, M_bind, mret, M_ret, throw.
  destruct (localStorage w) as [data|]; [|eexists; reflexivity].
  destruct (data =? EmptyString); [eexists; reflexivity|].
  destruct (JSON_parse data) as [parsed|]; [|eexists; reflexivity].
  destruct (truthy parsed && truthy (get parsed "tasks")); [|eexists; reflexivity].
  destruct (get parsed "tasks"); eexists; reflexivity.
Qed.

Lemma loadTasksLocalStorage_unreadable w :
  unreadable (localStorage w) -> loadTasksLocalStorage w = (Ok [], w).
Proof.
  unfold unreadable, loadTasksLocalStorage, try_catch, localStorage_getItem,
    read, mbind, M_bind, mret, M_ret, throw.
  destruct (localStorage w) as [data|]; [|reflexivity].
  intros [->|U]; [reflexivity|].
  destruct (data =? EmptyString); [reflexivity|].
  destruct (JSON_parse data) as [parsed|]; [|reflexivity].
  destruct (truthy parsed && truthy (get parsed "tasks")); [|reflexivity].
  destruct (get parsed "tasks"); try reflexivity. discriminate.
Qed.

(** What is stored under [tasks] comes back entry for entry. *)
Lemma loadTasksLocalStorage_items w data parsed items :
  localStorage w = Some data -> data <> EmptyString ->
  JSON_parse data = Some parsed -> get parsed "tasks" = JArr items ->
  loadTasksLocalStorage w = (Ok items, w).
Proof.
  intros E N P G.
  unfold loadTasksLocalStorage, try_catch, localStorage_getItem, read,
    mbind, M_bind, mret, M_ret, throw.
  rewrite E. apply String.eqb_neq in N. rewrite N, P, G.
  assert (truthy parsed = true) as T.
  { destruct parsed; simpl in G; try discriminate. reflexivity. }
  rewrite T. reflexivity.
Qed.

Lemma loadTasks_frame w : snd (loadTasks w) = w.
Proof.
  unfold loadTasks, read, mbind, M_bind.
  destruct (useIndexedDB w); [|apply loadTasksLocalStorage_frame].
  unfold loadTasksIndexedDB, read, mbind, M_bind, throw, mret, M_ret.
  destruct (db w) as [d|]; [|reflexivity].
  destruct (idb_getAll d); reflexivity.
Qed.

Lemma loadTasks_localStorage w :
  useIndexedDB w = false -> loadTasks w = loadTasksLocalStorage w.
Proof.
  intros E. unfold loadTasks, read, mbind, M_bind. rewrite E. reflexivity.
Qed.

Lemma valid_entry_fields t :
  valid_entry t = true <->
  typeof_object t = true /\
  truthy (get t "id") = true /\ truthy (get t "title") = true /\
  truthy (get t "createdAt") = true /\ truthy (get t "updatedAt") = true.
Proof.
  unfold valid_entry. rewrite !andb_true_iff. split; [tauto|].
  intros (O & I & T & C & U). repeat split; try assumption.
  destruct t; simpl in *; try discriminate; reflexivity.
Qed.

Lemma filter_all {A} (f : A -> bool) l :
  length (List.filter f l) = length l -> List.filter f l = l.
Proof.
  induction l as [|x l IH]; simpl; [reflexivity|].
  destruct (f x); simpl; intros E.
  - f_equal. apply IH. lia.
  - pose proof (filter_length_le f l). lia.
Qed.

(** [cleanup] on a store that loads: it returns the valid entries, after
    writing them back when some entry was dropped. *)
Lemma cleanup_run w entries :
  fst (loadTasks w) = Ok entries ->
  cleanup w =
  if (length (List.filter valid_entry entries) =? length entries)%nat
  then (Ok entries, w)
  else match saveTasks (List.filter valid_entry entries) w with
       | (Ok _, w') => (Ok (List.filter valid_entry entries), w')
       | (Throw e, w') => (Throw e, w')
       end.
Proof.
  intros E. pose proof (loadTasks_frame w) as Fr.
  destruct (loadTasks w) as [r w1] eqn:El. simpl in E, Fr. subst r w1.
  unfold cleanup, try_catch, mbind, M_bind at 1. rewrite El.
  destruct (length (List.filter valid_entry entries) =? length entries)%nat eqn:Len.
  - simpl. apply Nat.eqb_eq in Len. rewrite (filter_all _ _ Len). reflexivity.
  - simpl. unfold M_bind.
    destruct (saveTasks (List.filter valid_entry entries) w) as [[[]|e] w'];
      reflexivity.
Qed.

End Store.

(** ** The task manager *)

Section Manager.
Context `{Platform}.

Lemma saveTasks_tasks ts w : tasks (snd (saveTasks ts w)) = tasks w.
Proof.
  unfold saveTasks, read, mbind, M_bind. destruct (useIndexedDB w).
  - unfold saveTasksIndexedDB, read, write, throw, mbind, M_bind.
    destruct (db w) as [d|]; [|reflexivity].
    destruct (idb_clear_add d ts); reflexivity.
  - unfold saveTasksLocalStorage, try_catch, localStorage_setItem, read, write,
      throw, mbind, M_bind.
    destruct (_ <=? _)%N; reflexivity.
Qed.


Lemma createTask_run w taskData :
  nullish taskData = false ->
  createTask taskData w =
  let task := created_task w taskData in
  match call_trim (get task "title") with
  | Throw e => (Throw e, w)
  | Ok trimmed =>
      if trimmed =? EmptyString then (Throw (Error "Task title is required"), w)
      else
        match saveTasks (tasks w ++ [task]) (set_tasks (tasks w ++ [task]) w) with
        | (Ok _, w2) => (Ok task, add_request (ApiCreateTask task) w2)
        | (Throw e, w2) => (Throw e, w2)
        end
  end.
Proof.
  intros N. unfold createTask, generateId, new_Date_toISOString, read, lift,
    mbind, M_bind, mret, M_ret, prop. rewrite N. cbv zeta.
  fold (created_task w taskData).
  destruct (call_trim (get (created_task w taskData) "title")) as [trimmed|e];
    [|reflexivity].
  destruct (trimmed =? EmptyString); [reflexivity|].
  unfold write, throw. simpl.
  destruct (saveTasks _ _) as [[[]|e] w2]; reflexivity.
Qed.



Lemma bind_run {A B} (m : M A) (f : A -> M B) w :
  (m ≫= f) w =
  match m w with
  | (Ok a, w') => f a w'
  | (Throw e, w') => (Throw e, w')
  end.
Proof. reflexivity. Qed.

Lemma updateTask_run taskId updates w :
  updateTask taskId updates w =
  match findIndex (fun t => id ← prop t "id"; mret (strict_equal id taskId))
                  (tasks w) 0 with
  | Throw e => (Throw e, w)
  | Ok None => (Throw (Error "Task not found"), w)
  | Ok (Some i) => update_at taskId updates i w
  end.
Proof.
  unfold updateTask. rewrite bind_run. unfold read at 1. cbv beta iota.
  rewrite bind_run. unfold lift at 1. cbv beta iota.
  destruct (findIndex _ (tasks w) 0) as [[i|]|e]; try reflexivity.
  unfold update_at. rewrite bind_run. unfold new_Date_toISOString at 1.
  rewrite bind_run. unfold read at 1. unfold mret at 1, M_ret at 1.
  rewrite bind_run. unfold lift at 1. cbv zeta.
  destruct (call_trim _) as [trimmed|e]; [|reflexivity].
  destruct (trimmed =? EmptyString); [reflexivity|].
  rewrite bind_run. unfold read at 1. rewrite bind_run. unfold write at 1.
  rewrite bind_run. unfold read at 1. rewrite bind_run.
  change (tasks (set_tasks ?x w)) with x.
  destruct (saveTasks _ _) as [[[]|e] w2]; reflexivity.
Qed.

(** [TaskManager.loadTasks] never throws: what the store returns becomes the
    collection, and the empty collection when the store throws. *)
Lemma TaskManager_loadTasks_run w :
  TaskManager_loadTasks w =
  match fst (loadTasks w) with
  | Ok l => (Ok l, set_tasks l w)
  | Throw _ => (Ok [], set_tasks [] w)
  end.
Proof.
  pose proof (loadTasks_frame w) as Fr.
  unfold TaskManager_loadTasks, try_catch. rewrite bind_run.
  destruct (loadTasks w) as [[l|e] w1]; simpl in Fr; subst w1; reflexivity.
Qed.

Lemma foldM_inv {S A} (P : S -> Prop) (Q : A -> Prop) (body : S -> A -> M S) l :
  (forall s x w s' w', Q x -> P s -> body s x w = (Ok s', w') -> P s') ->
  Forall Q l ->
  forall s w s' w', P s -> foldM body s l w = (Ok s', w') -> P s'.
Proof.
  intros Hb. induction l as [|x l IH]; intros F s w s' w' Ps E; simpl in E.
  - inversion E; subst. exact Ps.
  - inversion F as [|? ? Qx Fl]; subst. rewrite bind_run in E.
    destruct (body s x w) as [[s1|e] w1] eqn:Eb; [|discriminate].
    apply (IH Fl s1 w1 s' w'); [|exact E].
    apply (Hb s x w s1 w1); assumption.
Qed.

Lemma map_set_from (pool : list JSValue) k t m :
  In t pool -> Forall (fun kv => In (snd kv) pool) m ->
  Forall (fun kv => In (snd kv) pool) (map_set k t m).
Proof. intros I F. apply map_set_Forall; simpl; auto. Qed.

Lemma addLocal_from pool m t w m' w' :
  In t pool -> Forall (fun kv => In (snd kv) pool) m ->
  addLocal m t w = (Ok m', w') ->
  Forall (fun kv : JSValue * JSValue => In (snd kv) pool) m'.
Proof.
  intros I F. unfold addLocal. rewrite bind_run. unfold lift.
  destruct (prop t "id") as [id|e]; [|discriminate].
  intros [= <- _]. apply map_set_from; assumption.
Qed.

Lemma overrideWithServer_from pool m t w m' w' :
  In t pool -> Forall (fun kv => In (snd kv) pool) m ->
  overrideWithServer m t w = (Ok m', w') ->
  Forall (fun kv : JSValue * JSValue => In (snd kv) pool) m'.
Proof.
  intros I F. unfold overrideWithServer. rewrite bind_run. unfold lift at 1.
  destruct (prop t "id") as [id|e]; [|discriminate].
  destruct (negb (truthy (map_get id m))).
  { intros [= <- _]. apply map_set_from; assumption. }
  rewrite bind_run. unfold lift at 1.
  destruct (prop t "updatedAt") as [su|e]; [|discriminate].
  rewrite bind_run. unfold lift at 1.
  destruct (prop (map_get id m) "updatedAt") as [lu|e]; [|discriminate].
  destruct (date_ge _ _).
  { intros [= <- _]. apply map_set_from; assumption. }
  rewrite bind_run. unfold apiClient_updateTask, write.
  intros [= <- _]. exact F.
Qed.

(** Whatever [mergeTasks] returns, each entry of it is an entry of one of
    the two inputs. *)
Lemma mergeTasks_from_inputs L S w merged w' :
  mergeTasks L S w = (Ok merged, w') ->
  Forall (fun x => In x (L ++ S)) merged.
Proof.
  unfold mergeTasks. rewrite bind_run.
  destruct (foldM addLocal [] L w) as [[m1|e] w1] eqn:E1; [|discriminate].
  rewrite bind_run.
  destruct (foldM overrideWithServer m1 S w1) as [[m2|e] w2] eqn:E2;
    [|discriminate].
  intros [= <- _].
  assert (Forall (fun kv : JSValue * JSValue => In (snd kv) (L ++ S)) m1) as F1.
  { eapply (foldM_inv _ (fun t => In t (L ++ S))); [| |constructor|exact E1].
    - intros; eapply addLocal_from; eauto.
    - apply List.Forall_forall. intros x I. apply in_or_app. auto. }
  assert (Forall (fun kv : JSValue * JSValue => In (snd kv) (L ++ S)) m2) as F2.
  { eapply (foldM_inv _ (fun t => In t (L ++ S))); [| |exact F1|exact E2].
    - intros; eapply overrideWithServer_from; eauto.
    - apply List.Forall_forall. intros x I. apply in_or_app. auto. }
  unfold map_values. apply List.Forall_forall. intros x I.
  apply in_map_iff in I. destruct I as (kv & <- & I).
  rewrite List.Forall_forall in F2. apply F2. exact I.
Qed.

Lemma syncWithServer_run w :
  syncWithServer w =
  let w0 := add_request ApiGetTasks w in
  match server w with
  | None => (Throw NetworkError, w0)
  | Some serverTasks =>
      match mergeTasks (tasks w) serverTasks w0 with
      | (Throw e, w1) => (Throw e, w1)
      | (Ok merged, w1) =>
          match saveTasks merged (set_tasks merged w1) with
          | (Throw e, w2) => (Throw e, w2)
          | (Ok _, w2) => (Ok (tasks w2), set_lastSyncTime (JStr (clock w2)) w2)
          end
      end
  end.
Proof.
  unfold syncWithServer, try_catch. rewrite bind_run.
  unfold apiClient_getTasks at 1. rewrite bind_run. unfold write at 1.
  rewrite bind_run. unfold read at 1. cbv beta iota zeta.
  change (server (add_request ApiGetTasks w)) with (server w).
  destruct (server w) as [S|]; [|reflexivity].
  unfold mret at 1, M_ret at 1. cbv beta iota.
  rewrite bind_run. unfold read at 1. cbv beta iota.
  change (tasks (add_request ApiGetTasks w)) with (tasks w).
  rewrite bind_run.
  destruct (mergeTasks (tasks w) S (add_request ApiGetTasks w))
    as [[merged|e] w1] eqn:E; [|reflexivity].
  rewrite bind_run. unfold write at 1. cbv beta iota.
  rewrite bind_run. unfold read at 1. cbv beta iota.
  change (tasks (set_tasks merged w1)) with merged.
  rewrite bind_run.
  destruct (saveTasks merged (set_tasks merged w1)) as [[[]|e] w2];
    reflexivity.
Qed.

(** The collection [syncWithServer] leaves: the one it found, or the list
    [mergeTasks] returned for it and the answer of the server. *)
Lemma syncWithServer_tasks w :
  tasks (snd (syncWithServer w)) = tasks w \/
  exists S merged w0 w1,
    server w = Some S /\
    mergeTasks (tasks w) S w0 = (Ok merged, w1) /\
    tasks (snd (syncWithServer w)) = merged.
Proof.
  rewrite syncWithServer_run. cbv zeta.
  destruct (server w) as [S|]; [|left; reflexivity].
  destruct (uniform_mergeTasks (tasks w) S) as (r & calls & _ & Eu).
  pose proof (Eu (add_request ApiGetTasks w)) as Em.
  destruct (mergeTasks (tasks w) S (add_request ApiGetTasks w))
    as [[merged|e] w1] eqn:E.
  - right. exists S, merged, (add_request ApiGetTasks w), w1.
    split; [reflexivity|]. split; [exact E|].
    pose proof (saveTasks_tasks merged (set_tasks merged w1)) as Et.
    destruct (saveTasks merged (set_tasks merged w1)) as [[[]|e] w2];
      simpl in Et; simpl; exact Et.
  - left. inversion Em; subst. reflexivity.
Qed.

End Manager.

(** ** Claims about the local task store *)

Section StoreClaims.
Context `{Platform}.

(** C6 (as amended).  [load()] returns the stored entries as they are, the
    ones missing a required field included, and does not fail because of
    them.  Dropping them is what [cleanup()] does: what it returns is the
    stored entries that are objects with a truthy [id], [title],
    [createdAt] and [updatedAt], in their stored order; it returns at once
    when every entry is valid, and otherwise once the valid entries are
    written back. *)
Theorem load_keeps_cleanup_drops (w : World) (data : string)
  (parsed : JSValue) (items : list JSValue) :
  useIndexedDB w = false ->
  localStorage w = Some data -> data <> EmptyString ->
  JSON_parse data = Some parsed -> get parsed "tasks" = JArr items ->
  loadTasks w = (Ok items, w) /\
  (forall t, In t (List.filter valid_entry items) <->
     In t items /\ typeof_object t = true /\
     truthy (get t "id") = true /\ truthy (get t "title") = true /\
     truthy (get t "createdAt") = true /\ truthy (get t "updatedAt") = true) /\
  (forall kept, fst (cleanup w) = Ok kept ->
     kept = List.filter valid_entry items) /\
  (Forall (fun t => valid_entry t = true) items -> cleanup w = (Ok items, w)) /\
  (forall w', saveTasks (List.filter valid_entry items) w = (Ok tt, w') ->
     fst (cleanup w) = Ok (List.filter valid_entry items)).
Proof.
  intros Mode E N P G.
  assert (loadTasks w = (Ok items, w)) as El.
  { rewrite loadTasks_localStorage by assumption.
    eapply loadTasksLocalStorage_items; eassumption. }
  assert (fst (loadTasks w) = Ok items) as El1 by (rewrite El; reflexivity).
  pose proof (cleanup_run w items El1) as Ec.
  split; [exact El|]. split; [|split; [|split]].
  - intros t. rewrite filter_In, valid_entry_fields. tauto.
  - intros kept Ek. rewrite Ec in Ek.
    destruct (_ =? _)%nat eqn:Len.
    + apply Nat.eqb_eq in Len. rewrite (filter_all _ _ Len).
      simpl in Ek. congruence.
    + destruct (saveTasks _ w) as [[[]|e] w']; simpl in Ek; congruence.
  - intros F. rewrite Ec.
    assert (List.filter valid_entry items = items) as Ef.
    { clear -F. induction items as [|x l IH]; simpl; [reflexivity|].
      inversion F; subst. rewrite H1. f_equal. auto. }
    rewrite Ef, Nat.eqb_refl. reflexivity.
  - intros w' Es. rewrite Ec, Es.
    destruct (_ =? _)%nat eqn:Len; [|reflexivity].
    apply Nat.eqb_eq in Len. rewrite (filter_all _ _ Len). reflexivity.
Qed.

(** C7 (as amended).  In localStorage mode [load()] never throws, and it
    returns the empty collection when nothing is stored, when the stored
    text is empty or is not JSON, and when the stored value holds no array
    of tasks.  In IndexedDB mode an empty object store gives the empty
    collection, while a failing read request, or a database that was not
    opened, makes [StorageManager.loadTasks] reject; [TaskManager.loadTasks]
    catches that and goes on with the empty collection, so that it never
    throws. *)
Theorem load_without_data (w : World) :
  (useIndexedDB w = false -> exists items, loadTasks w = (Ok items, w)) /\
  (useIndexedDB w = false -> unreadable (localStorage w) ->
     loadTasks w = (Ok [], w)) /\
  (forall d, useIndexedDB w = true -> db w = Some d ->
     idb_getAll d = Some [] -> loadTasks w = (Ok [], w)) /\
  (forall d, useIndexedDB w = true -> db w = Some d ->
     idb_getAll d = None ->
     loadTasks w = (Throw (DOMException "RequestError"), w)) /\
  (useIndexedDB w = true -> db w = None ->
     loadTasks w = (Throw (Error "IndexedDB not initialized"), w)) /\
  (forall e, fst (loadTasks w) = Throw e ->
     TaskManager_loadTasks w = (Ok [], set_tasks [] w)) /\
  (exists l, fst (TaskManager_loadTasks w) = Ok l).
Proof.
  split; [|split; [|split; [|split; [|split; [|split]]]]].
  - intros Mode. rewrite loadTasks_localStorage by assumption.
    apply loadTasksLocalStorage_returns.
  - intros Mode U. rewrite loadTasks_localStorage by assumption.
    apply loadTasksLocalStorage_unreadable. exact U.
  - intros d Mode Ed Eg. unfold loadTasks. rewrite bind_run. unfold read at 1.
    rewrite Mode. unfold loadTasksIndexedDB. rewrite bind_run. unfold read.
    rewrite Ed, Eg. reflexivity.
  - intros d Mode Ed Eg. unfold loadTasks. rewrite bind_run. unfold read at 1.
    rewrite Mode. unfold loadTasksIndexedDB. rewrite bind_run. unfold read.
    rewrite Ed, Eg. reflexivity.
  - intros Mode Ed. unfold loadTasks. rewrite bind_run. unfold read at 1.
    rewrite Mode. unfold loadTasksIndexedDB. rewrite bind_run. unfold read.
    rewrite Ed. reflexivity.
  - intros e E. rewrite TaskManager_loadTasks_run, E. reflexivity.
  - rewrite TaskManager_loadTasks_run.
    destruct (fst (loadTasks w)); eexists; reflexivity.
Qed.


(** In IndexedDB mode [save] is one transaction on the object store and
    [load] returns what the store lists afterwards. *)
Lemma save_then_load_idb (T T' : list JSValue) (w : World) d d' :
  useIndexedDB w = true -> db w = Some d ->
  idb_clear_add d T = Some d' -> idb_getAll d' = Some T' ->
  saveTasks T w = (Ok tt, set_db (Some d') w) /\
  loadTasks (set_db (Some d') w) = (Ok T', set_db (Some d') w).
Proof.
  intros Mode Ed Ea Eg. split.
  - unfold saveTasks. rewrite bind_run. unfold read at 1. rewrite Mode.
    unfold saveTasksIndexedDB. rewrite bind_run. unfold read.
    rewrite Ed, Ea. reflexivity.
  - unfold loadTasks. rewrite bind_run. unfold read at 1.
    change (useIndexedDB (set_db (Some d') w)) with (useIndexedDB w).
    rewrite Mode. unfold loadTasksIndexedDB. rewrite bind_run. unfold read.
    cbn [db set_db]. rewrite Eg. reflexivity.
Qed.

End StoreClaims.

(** The reference object store lists the records it was given, in key
    order: the same records, whatever their order was. *)
Lemma store_add_perm task records records' :
  Reference.store_add task records = Some records' ->
  Permutation (task :: records) records'.
Proof.
  revert records'. induction records as [|r records IH]; intros records'; simpl.
  - destruct (negb _); [discriminate|]. intros [= <-]. reflexivity.
  - destruct (negb _); [discriminate|].
    destruct (strict_equal _ _); [discriminate|].
    destruct (Reference.key_lt _ _); [intros [= <-]; reflexivity|].
    destruct (Reference.store_add task records) as [rest|] eqn:E;
      [|discriminate].
    simpl. intros [= <-]. rewrite perm_swap. constructor. apply IH. reflexivity.
Qed.

Lemma store_add_all_perm T : forall records records',
  Reference.store_add_all T records = Some records' ->
  Permutation (T ++ records) records'.
Proof.
  induction T as [|t T IH]; intros records records'; simpl.
  - intros [= <-]. reflexivity.
  - destruct (Reference.store_add t records) as [r1|] eqn:E; [|discriminate].
    simpl. intros E'. apply IH in E'. rewrite <- E'.
    apply store_add_perm in E. rewrite <- E.
    rewrite Permutation_middle. reflexivity.
Qed.

(** On the reference platform, in IndexedDB mode, a save that succeeds
    followed by a load returns the saved tasks up to their order. *)
Lemma save_then_load_reference_idb (T records : list JSValue)
  (w w' : @World Reference.platform) :
  useIndexedDB w = true -> db w = Some (Some records : Reference.Store) ->
  saveTasks T w = (Ok tt, w') ->
  exists T', loadTasks w' = (Ok T', w') /\ Permutation T T'.
Proof.
  intros Mode Ed Es.
  destruct (Reference.store_add_all T []) as [T'|] eqn:Ea.
  - destruct (save_then_load_idb T T' w (Some records) (Some T') Mode Ed)
      as [Es' El].
    + simpl. unfold Reference.clear_add. rewrite Ea. reflexivity.
    + reflexivity.
    + rewrite Es' in Es. inversion Es; subst. exists T'. split; [exact El|].
      apply store_add_all_perm in Ea. rewrite app_nil_r in Ea. exact Ea.
  - exfalso. unfold saveTasks in Es. rewrite bind_run in Es.
    unfold read at 1 in Es. rewrite Mode in Es.
    unfold saveTasksIndexedDB in Es. rewrite bind_run in Es. unfold read in Es.
    rewrite Ed in Es. simpl in Es. unfold Reference.clear_add in Es.
    rewrite Ea in Es. simpl in Es. discriminate.
Qed.

(** ** The reference JSON codec *)

Section Codec.
Import Reference Json.
Local Open Scope string_scope.

Lemma append_assoc (a b c : string) : (a ++ b) ++ c = a ++ (b ++ c).
Proof. induction a as [|x a IH]; simpl; [reflexivity|]. rewrite IH. reflexivity. Qed.

Lemma length_append (a b : string) :
  String.length (a ++ b) = (String.length a + String.length b)%nat.
Proof. induction a as [|x a IH]; simpl; [reflexivity|]. rewrite IH. reflexivity. Qed.

Lemma rev_string_app s acc : rev_string s acc = rev_string s EmptyString ++ acc.
Proof.
  revert acc. induction s as [|c s IH]; intros acc; simpl; [reflexivity|].
  rewrite IH, (IH (String c EmptyString)), append_assoc. reflexivity.
Qed.

Lemma rev_string_rev s acc :
  rev_string (rev_string s acc) EmptyString = rev_string acc EmptyString ++ s.
Proof.
  revert acc. induction s as [|c s IH]; intros acc; simpl.
  - induction (rev_string acc EmptyString); simpl; congruence.
  - rewrite IH. simpl. rewrite (rev_string_app acc), append_assoc. reflexivity.
Qed.

Lemma parse_chars_char c fuel rest acc :
  parse_chars (S fuel) (quote_char c ++ rest) acc =
  parse_chars fuel rest (String c acc).
Proof.
  destruct c as [[] [] [] [] [] [] [] []]; reflexivity.
Qed.

Lemma parse_chars_end fuel rest acc :
  parse_chars (S fuel) (dquote ++ rest) acc = Some (rev_string acc EmptyString, rest).
Proof. reflexivity. Qed.

Lemma parse_chars_quoted s : forall fuel rest acc,
  String.length s < fuel ->
  parse_chars fuel (quote_chars s ++ dquote ++ rest) acc =
  Some (rev_string acc EmptyString ++ s, rest).
Proof.
  induction s as [|c s IH]; intros fuel rest acc L.
  - destruct fuel; [simpl in L; lia|].
    change (quote_chars EmptyString ++ dquote ++ rest) with (dquote ++ rest).
    rewrite parse_chars_end.
    induction (rev_string acc EmptyString); simpl; congruence.
  - destruct fuel; [simpl in L; lia|].
    change (quote_chars (String c s)) with (quote_char c ++ quote_chars s).
    rewrite append_assoc, parse_chars_char.
    rewrite IH by (simpl in L; lia).
    change (rev_string (String c acc) EmptyString) with (rev_string acc (String c EmptyString)).
    rewrite (rev_string_app acc), append_assoc. reflexivity.
Qed.

Lemma length_quote_char c : 1 <= String.length (quote_char c).
Proof. destruct c as [[] [] [] [] [] [] [] []]; simpl; lia. Qed.

Lemma length_quote_chars s : String.length s <= String.length (quote_chars s).
Proof.
  induction s as [|c s IH]; simpl; [lia|].
  rewrite length_append. pose proof (length_quote_char c). lia.
Qed.

Lemma stringify_head v :
  plain v = true ->
  exists c s, stringify v = String c s /\ opens c = true.
Proof.
  destruct v as [| |b|n|s|items|props]; simpl; try discriminate; intros _.
  - eexists _, _. split; reflexivity.
  - destruct b; eexists _, _; split; reflexivity.
  - eexists _, _. split; reflexivity.
  - eexists _, _. split; reflexivity.
  - eexists _, _. split; reflexivity.
Qed.

Lemma parse_value_string fuel s' :
  parse_value (S fuel) (dquote ++ s') =
  '(str, rest) ← parse_chars (String.length s') s' EmptyString;
  Some (JStr str, rest).
Proof. reflexivity. Qed.

Lemma parse_value_array fuel s' :
  parse_value (S fuel) ("[" ++ s') =
  match skip_space s' with
  | String c' rest =>
      if (nat_of_ascii c' =? 93)%nat then Some (JArr [], rest)
      else
        '(items, rest) ←
          parse_items (parse_value fuel) (String.length s') s' [];
        Some (JArr items, rest)
  | EmptyString => None
  end.
Proof. reflexivity. Qed.

Lemma parse_value_object fuel s' :
  parse_value (S fuel) ("{" ++ s') =
  match skip_space s' with
  | String c' rest =>
      if (nat_of_ascii c' =? 125)%nat then Some (JObj [], rest)
      else
        '(props, rest) ←
          parse_members (parse_value fuel) (String.length s') s' [];
        Some (JObj props, rest)
  | EmptyString => None
  end.
Proof. reflexivity. Qed.

Lemma skip_space_opens c s : opens c = true -> skip_space (String c s) = String c s.
Proof.
  intros O. simpl.
  assert (is_json_space c = false) as ->; [|reflexivity].
  destruct c as [[] [] [] [] [] [] [] []]; try reflexivity; discriminate O.
Qed.

Lemma opens_not_closing c :
  opens c = true ->
  (nat_of_ascii c =? 93)%nat = false /\ (nat_of_ascii c =? 125)%nat = false.
Proof.
  destruct c as [[] [] [] [] [] [] [] []]; intros O; try discriminate O;
    split; reflexivity.
Qed.

Lemma join_cons2 sep x y l : join sep (x :: y :: l) = x ++ sep ++ join sep (y :: l).
Proof. reflexivity. Qed.

Lemma join_length_in sep x l :
  In x l -> String.length x <= String.length (join sep l).
Proof.
  induction l as [|y l IH]; [intros []|]. intros I.
  destruct l as [|z l].
  - destruct I as [->|[]]. simpl. lia.
  - rewrite join_cons2, !length_append. destruct I as [->|I]; [lia|].
    specialize (IH I). lia.
Qed.

Lemma join_length sep l :
  Forall (fun x => 1 <= String.length x) l ->
  length l <= String.length (join sep l).
Proof.
  induction l as [|y l IH]; intros F; [simpl; lia|].
  inversion F as [|? ? Hy Fl]; subst. destruct l as [|z l].
  - simpl. lia.
  - rewrite join_cons2, !length_append. specialize (IH Fl). simpl in *. lia.
Qed.

Lemma parse_items_step value fuel s acc :
  parse_items value (S fuel) s acc =
  '(v, s1) ← value s;
  match skip_space s1 with
  | String c s3 =>
      if (nat_of_ascii c =? 44)%nat then
        parse_items value fuel s3 (acc ++ [v])%list
      else if (nat_of_ascii c =? 93)%nat then Some ((acc ++ [v])%list, s3)
      else None
  | EmptyString => None
  end.
Proof. reflexivity. Qed.

Lemma parse_items_join value items : forall acc fuel rest,
  items <> [] ->
  (forall x, In x items ->
     forall rest', value (stringify x ++ rest') = Some (x, rest')) ->
  length items <= fuel ->
  parse_items value fuel (join "," (map stringify items) ++ "]" ++ rest) acc
  = Some ((acc ++ items)%list, rest).
Proof.
  induction items as [|x xs IH]; intros acc fuel rest N Hv L; [congruence|].
  destruct fuel as [|fuel]; [simpl in L; lia|].
  rewrite parse_items_step. destruct xs as [|y ys].
  - change (join "," (map stringify [x])) with (stringify x).
    rewrite Hv by (simpl; auto). reflexivity.
  - change (map stringify (x :: y :: ys))
      with (stringify x :: stringify y :: map stringify ys).
    rewrite join_cons2, !append_assoc. rewrite Hv by (simpl; auto).
    change (mbind ?f (Some ?a)) with (f a). cbv beta iota.
    change (skip_space ("," ++ ?s)) with ("," ++ s).
    change (map stringify (y :: ys)) with (stringify y :: map stringify ys) in IH.
    cbn [append nat_of_ascii].
    change (String "]" rest) with ("]" ++ rest).
    change ((nat_of_ascii "," =? 44)%nat) with true. cbv iota.
    rewrite (IH (acc ++ [x])%list fuel rest); [| discriminate | | simpl in *; lia].
    + rewrite <- app_assoc. reflexivity.
    + intros x' I. apply Hv. simpl. simpl in I. tauto.
Qed.

Lemma member_texts_plain props :
  plain_props plain props = true ->
  member_texts stringify props = map entry props.
Proof.
  induction props as [|[k x] ps IH]; simpl; [reflexivity|].
  rewrite !andb_true_iff. intros [[Px _] Pp]. rewrite IH by exact Pp.
  destruct x; try reflexivity. discriminate Px.
Qed.

Lemma set_prop_fresh k v acc :
  existsb (fun kv : string * JSValue => fst kv =? k) acc = false ->
  set_prop k v acc = (acc ++ [(k, v)])%list.
Proof.
  induction acc as [|[k' v'] acc IH]; simpl; [reflexivity|].
  rewrite orb_false_iff. intros [E F]. rewrite E, IH by exact F. reflexivity.
Qed.

Lemma parse_members_step value fuel s acc :
  parse_members value (S fuel) s acc =
  s0 ← strip_prefix dquote (skip_space s);
  '(k, s1) ← parse_chars (String.length s0) s0 EmptyString;
  s2 ← strip_prefix ":" (skip_space s1);
  '(v, s3) ← value s2;
  match skip_space s3 with
  | String c s4 =>
      if (nat_of_ascii c =? 44)%nat then
        parse_members value fuel s4 (set_prop k v acc)
      else if (nat_of_ascii c =? 125)%nat then Some (set_prop k v acc, s4)
      else None
  | EmptyString => None
  end.
Proof. reflexivity. Qed.

(** Reading one member written by [entry], up to what follows it. *)
Lemma parse_entry value k x tail :
  value (stringify x ++ tail) = Some (x, tail) ->
  (s0 ← strip_prefix dquote (skip_space (entry (k, x) ++ tail));
   '(k', s1) ← parse_chars (String.length s0) s0 EmptyString;
   s2 ← strip_prefix ":" (skip_space s1);
   '(v, s3) ← value s2;
   Some (k', v, s3)) = Some (k, x, tail).
Proof.
  intros Hv. unfold entry. cbn [fst snd]. rewrite !append_assoc.
  change (skip_space (dquote ++ ?s)) with (dquote ++ s).
  change (strip_prefix dquote (dquote ++ ?s)) with (Some s).
  change (mbind ?f (Some ?a)) with (f a). cbv beta.
  rewrite parse_chars_quoted.
  - change (mbind ?f (Some ?a)) with (f a). cbv beta iota.
    change (skip_space (":" ++ ?s)) with (":" ++ s).
    change (strip_prefix ":" (":" ++ ?s)) with (Some s).
    change (mbind ?f (Some ?a)) with (f a). cbv beta. rewrite Hv. reflexivity.
  - rewrite length_append. pose proof (length_quote_chars k). simpl. lia.
Qed.

Lemma parse_members_read value fuel s acc :
  parse_members value (S fuel) s acc =
  match read_member value s with
  | Some (k, v, s3) =>
      match skip_space s3 with
      | String c s4 =>
          if (nat_of_ascii c =? 44)%nat then
            parse_members value fuel s4 (set_prop k v acc)
          else if (nat_of_ascii c =? 125)%nat then Some (set_prop k v acc, s4)
          else None
      | EmptyString => None
      end
  | None => None
  end.
Proof.
  rewrite parse_members_step. unfold read_member.
  destruct (strip_prefix dquote (skip_space s)) as [s0|]; [|reflexivity].
  cbn [mbind option_bind].
  destruct (parse_chars _ s0 _) as [[k s1]|]; [|reflexivity].
  cbn [mbind option_bind].
  destruct (strip_prefix ":" (skip_space s1)) as [s2|]; [|reflexivity].
  cbn [mbind option_bind].
  destruct (value s2) as [[v s3]|]; reflexivity.
Qed.

Lemma parse_members_join value p props : forall acc fuel rest,
  props <> [] ->
  (forall kv, In kv props ->
     forall rest', value (stringify (snd kv) ++ rest') = Some (snd kv, rest')) ->
  (forall kv, In kv props ->
     existsb (fun kv' : string * JSValue => fst kv' =? fst kv) acc = false) ->
  plain_props p props = true ->
  length props <= fuel ->
  parse_members value fuel (join "," (map entry props) ++ "}" ++ rest) acc
  = Some ((acc ++ props)%list, rest).
Proof.
  induction props as [|[k x] ps IH]; intros acc fuel rest N Hv Hf Hd L;
    [congruence|].
  destruct fuel as [|fuel]; [simpl in L; lia|].
  rewrite parse_members_read.
  assert (set_prop k x acc = (acc ++ [(k, x)])%list) as Es.
  { apply set_prop_fresh. apply (Hf (k, x)). simpl. auto. }
  destruct ps as [|[k2 x2] ps].
  - change (join "," (map entry [(k, x)])) with (entry (k, x)).
    fold (read_member value (entry (k, x) ++ "}" ++ rest)).
    pose proof (parse_entry value k x ("}" ++ rest)) as R.
    fold (read_member value (entry (k, x) ++ "}" ++ rest)) in R.
    rewrite R by (apply (Hv (k, x)); simpl; auto).
    rewrite Es. reflexivity.
  - change (map entry ((k, x) :: (k2, x2) :: ps))
      with (entry (k, x) :: entry (k2, x2) :: map entry ps).
    rewrite join_cons2, !append_assoc.
    pose proof (parse_entry value k x
                  ("," ++ join "," (entry (k2, x2) :: map entry ps) ++ "}" ++ rest)) as R.
    fold (read_member value (entry (k, x) ++ "," ++
            join "," (entry (k2, x2) :: map entry ps) ++ "}" ++ rest)) in R.
    rewrite R by (apply (Hv (k, x)); simpl; auto).
    change (skip_space ("," ++ ?s)) with ("," ++ s).
    cbn [append nat_of_ascii].
    change (String "}" rest) with ("}" ++ rest).
    change ((nat_of_ascii "," =? 44)%nat) with true. cbv iota.
    rewrite Es.
    cbn [plain_props] in Hd. apply andb_true_iff in Hd. destruct Hd as [Hk Hd].
    apply andb_true_iff in Hk. destruct Hk as [_ Hk].
    change (entry (k2, x2) :: map entry ps) with (map entry ((k2, x2) :: ps)).
    rewrite (IH (acc ++ [(k, x)])%list fuel rest).
    + rewrite <- app_assoc. reflexivity.
    + discriminate.
    + intros kv I. apply Hv. simpl. simpl in I. tauto.
    + intros kv I. rewrite existsb_app, orb_false_iff. split.
      * apply Hf. simpl. simpl in I. tauto.
      * simpl. rewrite orb_false_r.
        apply negb_true_iff in Hk.
        assert (forall q, In q ((k2, x2) :: ps) -> (fst q =? k) = false) as Hq.
        { clear -Hk. intros q Iq.
          destruct (fst q =? k) eqn:E; [|reflexivity].
          assert (existsb (fun kv : string * JSValue => fst kv =? k)
                    ((k2, x2) :: ps) = true) as Hx.
          { apply existsb_exists. exists q. auto. }
          congruence. }
        rewrite String.eqb_sym. apply Hq. exact I.
    + exact Hd.
    + simpl in *. lia.
Qed.

Lemma join_head sep x l :
  forall c s, x = String c s ->
  exists s', join sep (x :: l) = String c s'.
Proof.
  intros c s ->. destruct l as [|y l]; [exists s; reflexivity|].
  rewrite join_cons2. eexists. reflexivity.
Qed.

Lemma entry_head kv : exists s, entry kv = dquote ++ s.
Proof. destruct kv as [k x]. eexists. reflexivity. Qed.

Lemma length_entry kv : 1 <= String.length (entry kv).
Proof. destruct (entry_head kv) as [s ->]. simpl. lia. Qed.

Lemma length_stringify v : plain v = true -> 1 <= String.length (stringify v).
Proof.
  intros P. destruct (stringify_head v P) as (c & s & -> & _). simpl. lia.
Qed.

Lemma plain_props_values props x k :
  plain_props plain props = true -> In (k, x) props -> plain x = true.
Proof.
  induction props as [|[k' x'] ps IH]; [intros _ []|].
  cbn [plain_props]. rewrite !andb_true_iff. intros [[Px _] Pp] [E|I].
  - inversion E; subst. exact Px.
  - exact (IH Pp I).
Qed.

Lemma length_entry_value k x :
  String.length (stringify x) <= String.length (entry (k, x)).
Proof.
  unfold entry. cbn [fst snd]. rewrite !length_append. lia.
Qed.

Lemma parse_value_items fuel s' c t :
  s' = String c t -> opens c = true ->
  parse_value (S fuel) ("[" ++ s') =
  '(items, rest) ← parse_items (parse_value fuel) (String.length s') s' [];
  Some (JArr items, rest).
Proof.
  intros E O. rewrite parse_value_array. rewrite E at 1.
  rewrite (skip_space_opens c t O).
  destruct (opens_not_closing c O) as [-> _]. reflexivity.
Qed.

Lemma parse_value_members fuel s' c t :
  s' = String c t -> opens c = true ->
  parse_value (S fuel) ("{" ++ s') =
  '(props, rest) ← parse_members (parse_value fuel) (String.length s') s' [];
  Some (JObj props, rest).
Proof.
  intros E O. rewrite parse_value_object. rewrite E at 1.
  rewrite (skip_space_opens c t O).
  destruct (opens_not_closing c O) as [_ ->]. reflexivity.
Qed.

(** The reference parser reads back what the reference printer wrote,
    whatever follows it. *)
Lemma parse_value_stringify : forall fuel v rest,
  plain v = true ->
  String.length (stringify v) < fuel ->
  parse_value fuel (stringify v ++ rest) = Some (v, rest).
Proof.
  induction fuel as [|fuel IH]; intros v rest P L; [lia|].
  destruct v as [| |b|n|s|items|props]; try discriminate P.
  - reflexivity.
  - destruct b; reflexivity.
  - change (stringify (JStr s)) with (dquote ++ quote_chars s ++ dquote).
    rewrite !append_assoc, parse_value_string.
    rewrite parse_chars_quoted; [reflexivity|].
    rewrite !length_append. pose proof (length_quote_chars s). simpl. lia.
  - change (stringify (JArr items))
      with ("[" ++ join "," (map stringify items) ++ "]") in *.
    rewrite !append_assoc.
    destruct items as [|x items]; [reflexivity|].
    cbn [plain forallb] in P. apply andb_true_iff in P. destruct P as [Px Pi].
    destruct (stringify_head x Px) as (c & s & Ex & O).
    destruct (join_head "," (stringify x) (map stringify items) c s Ex)
      as (s' & Ej).
    change (map stringify (x :: items))
      with (stringify x :: map stringify items) in *.
    remember (join "," (stringify x :: map stringify items)) as body eqn:Eb.
    rewrite (parse_value_items fuel (body ++ "]" ++ rest) c (s' ++ "]" ++ rest))
      by (rewrite ?Ej; reflexivity || exact O).
    assert (forall y, In y (x :: items) -> plain y = true) as Py.
    { intros y [<-|I]; [exact Px|].
      rewrite forallb_forall in Pi. exact (Pi y I). }
    assert (String.length body + 2 <= S fuel) as Lb.
    { rewrite !length_append in L. simpl in L. simpl. lia. }
    subst body.
    change (stringify x :: map stringify items)
      with (map stringify (x :: items)) in *.
    rewrite (parse_items_join (parse_value fuel) (x :: items) []).
    + reflexivity.
    + discriminate.
    + intros y I rest'. apply IH; [exact (Py y I)|].
      pose proof (join_length_in "," (stringify y) (map stringify (x :: items))
                    (in_map stringify _ _ I)). lia.
    + rewrite !length_append.
      pose proof (join_length "," (map stringify (x :: items))) as J.
      rewrite length_map in J.
      assert (length (x :: items)
              <= String.length (join "," (map stringify (x :: items)))); [|lia].
      apply J. apply List.Forall_forall. intros t It.
      apply in_map_iff in It. destruct It as (y & <- & Iy).
      apply length_stringify. exact (Py y Iy).
  - change (stringify (JObj props))
      with ("{" ++ join "," (member_texts stringify props) ++ "}") in *.
    cbn [plain] in P. rewrite (member_texts_plain props P) in *.
    rewrite !append_assoc.
    destruct props as [|[k x] props]; [reflexivity|].
    destruct (entry_head (k, x)) as (s & Ee).
    destruct (join_head "," (entry (k, x)) (map entry props) _ s Ee)
      as (s' & Ej).
    change (map entry ((k, x) :: props))
      with (entry (k, x) :: map entry props) in *.
    remember (join "," (entry (k, x) :: map entry props)) as body eqn:Eb.
    rewrite (parse_value_members fuel (body ++ "}" ++ rest) (ascii_of_nat 34)
               (s' ++ "}" ++ rest))
      by (rewrite ?Ej; reflexivity).
    assert (String.length body + 2 <= S fuel) as Lb.
    { rewrite !length_append in L. simpl in L. simpl. lia. }
    subst body.
    change (entry (k, x) :: map entry props)
      with (map entry ((k, x) :: props)) in *.
    rewrite (parse_members_join (parse_value fuel) plain ((k, x) :: props) []).
    + reflexivity.
    + discriminate.
    + intros [k' y] I rest'. cbn [snd]. apply IH.
      * exact (plain_props_values _ _ _ P I).
      * pose proof (join_length_in "," (entry (k', y))
                      (map entry ((k, x) :: props)) (in_map entry _ _ I)).
        pose proof (length_entry_value k' y). lia.
    + reflexivity.
    + exact P.
    + rewrite !length_append.
      pose proof (join_length "," (map entry ((k, x) :: props))) as J.
      rewrite length_map in J.
      assert (length ((k, x) :: props)
              <= String.length (join "," (map entry ((k, x) :: props)))); [|lia].
      apply J. apply List.Forall_forall. intros t It.
      apply in_map_iff in It. destruct It as (y & <- & Iy).
      apply length_entry.
Qed.

Lemma append_empty (s : string) : s ++ EmptyString = s.
Proof. induction s as [|c s IH]; simpl; [reflexivity|]. rewrite IH. reflexivity. Qed.

(** [JSON.parse (JSON.stringify v)] is [v] for every [plain] value. *)
Lemma parse_stringify v : plain v = true -> parse (stringify v) = Some v.
Proof.
  intros P. unfold parse.
  rewrite <- (append_empty (stringify v)) at 2.
  rewrite parse_value_stringify by (exact P || lia). reflexivity.
Qed.

End Codec.

(** On the reference platform, in localStorage mode, every array of [plain]
    tasks that fits the quota is loaded back as it was saved. *)
Lemma save_then_load_reference (T : list JSValue)
  (w : @World Reference.platform) :
  useIndexedDB w = false ->
  forallb Json.plain T = true ->
  (N.of_nat (String.length (Reference.stringify (envelope (clock w) T)))
     <= quota w)%N ->
  exists w',
    saveTasks T w = (Ok tt, w') /\ loadTasks w' = (Ok T, w').
Proof.
  intros Mode P Q.
  assert (Json.plain (envelope (clock w) T) = true) as Pe.
  { unfold envelope. cbn [Json.plain Json.plain_props]. rewrite P. reflexivity. }
  exists (set_localStorage
            (Some (Reference.stringify (envelope (clock w) T))) w).
  split.
  - unfold saveTasks. rewrite bind_run. unfold read at 1. rewrite Mode.
    unfold saveTasksLocalStorage, try_catch. rewrite bind_run. unfold read at 1.
    cbv beta iota. unfold localStorage_setItem. rewrite bind_run.
    unfold read at 1. cbv beta iota.
    change (JSON_stringify (envelope (clock w) T))
      with (Reference.stringify (envelope (clock w) T)).
    apply N.leb_le in Q. rewrite Q. reflexivity.
  - rewrite loadTasks_localStorage by exact Mode.
    eapply loadTasksLocalStorage_items.
    + reflexivity.
    + pose proof (length_stringify _ Pe) as L. intros E. rewrite E in L.
      simpl in L. lia.
    + exact (parse_stringify _ Pe).
    + reflexivity.
Qed.

(** ** Claims about the task manager *)

Section ManagerClaims.
Context `{Platform}.

Lemma call_trim_ok v trimmed :
  call_trim v = Ok trimmed -> exists s, v = JStr s /\ trimmed = trim s.
Proof. destruct v; simpl; try discriminate. intros [= <-]. eauto. Qed.

Lemma has_title_nonempty t : has_title t -> nonempty_title t.
Proof.
  intros (s & E & N). exists s. split; [exact E|]. intros ->. apply N. reflexivity.
Qed.

Lemma validated_title t trimmed :
  call_trim (get t "title") = Ok trimmed ->
  (trimmed =? EmptyString) = false -> has_title t.
Proof.
  intros E N. apply call_trim_ok in E. destruct E as (s & E & ->).
  exists s. split; [exact E|]. apply String.eqb_neq. exact N.
Qed.

(** [createTask] leaves the collection as it was, or with one validated
    task more. *)
Lemma createTask_tasks taskData w :
  tasks (snd (createTask taskData w)) = tasks w \/
  (tasks (snd (createTask taskData w)) = tasks w ++ [created_task w taskData] /\
   has_title (created_task w taskData)).
Proof.
  destruct (nullish taskData) eqn:N.
  - left. unfold createTask, generateId. rewrite bind_run, bind_run.
    unfold read at 1. cbv beta iota. unfold mret at 1, M_ret at 1.
    cbv beta iota. rewrite bind_run. unfold lift, prop. rewrite N. reflexivity.
  - rewrite createTask_run by exact N. cbv zeta.
    destruct (call_trim _) as [trimmed|e] eqn:Et; [|left; reflexivity].
    destruct (trimmed =? EmptyString) eqn:Eb; [left; reflexivity|].
    right. split; [|eapply validated_title; eassumption].
    pose proof (saveTasks_tasks (tasks w ++ [created_task w taskData])
                  (set_tasks (tasks w ++ [created_task w taskData]) w)) as Es.
    destruct (saveTasks _ _) as [[[]|e] w2]; simpl in Es; simpl; exact Es.
Qed.

(** [updateTask] leaves the collection as it was, or with a validated task
    in the place of one of its tasks. *)
Lemma updateTask_tasks taskId updates w :
  tasks (snd (updateTask taskId updates w)) = tasks w \/
  exists i u, tasks (snd (updateTask taskId updates w)) = <[i := u]> (tasks w) /\
              has_title u.
Proof.
  rewrite updateTask_run.
  destruct (findIndex _ (tasks w) 0) as [[i|]|e]; try (left; reflexivity).
  unfold update_at. cbv zeta.
  destruct (call_trim _) as [trimmed|e] eqn:Et; [|left; reflexivity].
  destruct (trimmed =? EmptyString) eqn:Eb; [left; reflexivity|].
  right. eexists i, _. split; [|eapply validated_title; eassumption].
  match goal with |- context [saveTasks ?ts ?w0] =>
    pose proof (saveTasks_tasks ts w0) as Es;
    destruct (saveTasks ts w0) as [[[]|e] w2] end; simpl in Es; simpl; exact Es.
Qed.

(** C9 (as amended).  [createTask] and [updateTask] keep the invariant that
    every task of the collection has a non-empty string for title: they add
    or change a task only when its title, trimmed, is not empty.
    [loadTasks] and [syncWithServer] validate nothing: they keep the
    invariant when the entries the store returns, respectively the tasks the
    server answers, satisfy it. *)
Theorem title_invariant (w : World) :
  Forall nonempty_title (tasks w) ->
  (forall taskData,
     Forall nonempty_title (tasks (snd (createTask taskData w)))) /\
  (forall taskId updates,
     Forall nonempty_title (tasks (snd (updateTask taskId updates w)))) /\
  ((forall entries, fst (loadTasks w) = Ok entries ->
      Forall nonempty_title entries) ->
   Forall nonempty_title (tasks (snd (TaskManager_loadTasks w)))) /\
  ((forall serverTasks, server w = Some serverTasks ->
      Forall nonempty_title serverTasks) ->
   Forall nonempty_title (tasks (snd (syncWithServer w)))).
Proof.
  intros Inv. split; [|split; [|split]].
  - intros taskData.
    destruct (createTask_tasks taskData w) as [->|[-> T]]; [exact Inv|].
    apply Forall_app. split; [exact Inv|].
    constructor; [apply has_title_nonempty; exact T | constructor].
  - intros taskId updates.
    destruct (updateTask_tasks taskId updates w) as [->|(i & u & -> & T)];
      [exact Inv|].
    apply Forall_insert; [exact Inv | apply has_title_nonempty; exact T].
  - intros Hs. rewrite TaskManager_loadTasks_run.
    destruct (fst (loadTasks w)) as [l|e] eqn:E; simpl; [auto | constructor].
  - intros Hs.
    destruct (syncWithServer_tasks w)
      as [->|(S & merged & w0 & w1 & Es & Em & ->)]; [exact Inv|].
    apply mergeTasks_from_inputs in Em.
    apply List.Forall_forall. intros x Ix.
    rewrite List.Forall_forall in Em. apply Em in Ix.
    apply in_app_iff in Ix. destruct Ix as [Ix|Ix].
    + rewrite List.Forall_forall in Inv. auto.
    + specialize (Hs S Es). rewrite List.Forall_forall in Hs. auto.
Qed.






End ManagerClaims.

(** ** Concrete runs *)

Section Runs.
Import Reference Samples.

(** C1, as stated, fails.  Of two server entries with one id [mergeTasks]
    keeps the first-seen, newer one, and the last-seen is not in the merged
    list; and in the /sync route a client list that repeats an id gets that
    id twice into [mergedTasks]. *)
Lemma last_seen_does_not_win :
  fst (mergeTasks [] [a_first; a_last] fresh) = Ok [a_first] /\
  ~ In a_last [a_first] /\
  sync_merge [a_stale; a_stale] [a_server]
    = Ok (mkSyncPlan [a_server; a_server] [] []).
Proof.
  split; [vm_compute; reflexivity|]. split; [|vm_compute; reflexivity].
  intros [E|[]]. discriminate E.
Qed.

Lemma merge_covers_union_witness :
  Forall (fun t => is_task t = true) [a_local; b_local] /\
  Forall (fun t => is_task t = true) [a_server; c_server] /\
  exists merged,
    fst (mergeTasks [a_local; b_local] [a_server; c_server] fresh) = Ok merged /\
    (forall k, In k (ids merged) <->
       In k (ids [a_local; b_local]) \/ In k (ids [a_server; c_server])) /\
    List.NoDup (ids merged).
Proof.
  assert (Forall (fun t => is_task t = true) [a_local; b_local]) as FL
    by (repeat constructor).
  assert (Forall (fun t => is_task t = true) [a_server; c_server]) as FS
    by (repeat constructor).
  split; [exact FL|]. split; [exact FS|].
  destruct (merge_covers_union [a_local; b_local] [a_server; c_server] fresh
              FL FS) as (merged & E & U & ND & _).
  exists merged. auto.
Defined.



(** With the id free, the create loop appends the task built from the
    inserted row, which is not the client's object. *)
Example created_row_is_merged :
  sync_create [] (JStr "user-1") [b_local] []
    = Ok ([row_of (JStr "user-1") b_local],
          mkSyncPlan [task_of_row (row_of (JStr "user-1") b_local)]
                     [b_local] []) /\
  task_of_row (row_of (JStr "user-1") b_local) <> b_local.
Proof. split; [exact eq_refl | discriminate]. Qed.



(** C6, as stated, fails.  A stored entry with nothing but an id comes back
    from [load()]. *)
Lemma load_returns_invalid_entry :
  valid_entry no_title = false /\
  fst (loadTasks (stored [no_title])) = Ok [no_title].
Proof. split; vm_compute; reflexivity. Qed.

Lemma load_keeps_cleanup_drops_witness :
  useIndexedDB (stored [no_title; a_local]) = false /\
  localStorage (stored [no_title; a_local]) = Some (text_of [no_title; a_local]) /\
  loadTasks (stored [no_title; a_local])
    = (Ok [no_title; a_local], stored [no_title; a_local]) /\
  fst (cleanup (stored [no_title; a_local])) = Ok [a_local].
Proof.
  split; [reflexivity|]. split; [reflexivity|].
  destruct (load_keeps_cleanup_drops (stored [no_title; a_local])
              (text_of [no_title; a_local])
              (envelope "2024-01-03T08:00:00.000Z" [no_title; a_local])
              [no_title; a_local])
    as (El & _ & _ & _ & Ec).
  - reflexivity.
  - reflexivity.
  - vm_compute. discriminate.
  - vm_compute. reflexivity.
  - reflexivity.
  - split; [exact El|].
    apply (Ec (stored [a_local])). exact eq_refl.
Defined.

(** C7, as stated, fails.  In IndexedDB mode, with an object store whose
    read request fails, [load()] rejects. *)
Lemma load_rejects_when_read_fails :
  fst (loadTasks failing_idb) = Throw (DOMException "RequestError").
Proof. vm_compute. reflexivity. Qed.


(** C9, as stated, fails.  With an empty collection, loading a store that
    holds a task with the empty title, or merging such a task from the
    server, puts it into the collection. *)
Lemma empty_title_gets_in :
  get empty_title "title" = JStr EmptyString /\
  tasks (stored [empty_title]) = [] /\
  tasks (snd (TaskManager_loadTasks (stored [empty_title]))) = [empty_title] /\
  tasks (answering [empty_title]) = [] /\
  tasks (snd (syncWithServer (answering [empty_title]))) = [empty_title].
Proof. repeat split; vm_compute; reflexivity. Qed.

Lemma title_invariant_witness :
  Forall nonempty_title (tasks (holding [a_local])) /\
  Forall nonempty_title
    (tasks (snd (createTask (JObj [("title", JStr "new")]) (holding [a_local])))) /\
  Forall nonempty_title
    (tasks (snd (updateTask (JStr "a") (JObj [("title", JStr " ")])
                            (holding [a_local])))).
Proof.
  assert (Forall nonempty_title (tasks (holding [a_local]))) as Inv.
  { repeat constructor. exists "X". split; [reflexivity | discriminate]. }
  split; [exact Inv|].
  destruct (title_invariant (holding [a_local]) Inv) as (C & U & _).
  split; [apply C | apply U].
Defined.



End Runs.

(** * The rest of the managers *)

(** ** Arrays *)

Lemma findIndex_at (p : JSValue -> Result bool) before t after : forall i,
  Forall (fun x => p x = Ok false) before -> p t = Ok true ->
  findIndex p (before ++ t :: after) i = Ok (Some (i + length before)%nat).
Proof.
  induction before as [|x before IH]; intros i F Pt; simpl.
  - rewrite Pt. simpl. rewrite Nat.add_0_r. reflexivity.
  - inversion F as [|? ? Px Fb]; subst. rewrite Px. simpl.
    rewrite IH by assumption. do 2 f_equal. lia.
Qed.

Lemma Array_find_at (p : JSValue -> Result bool) before t after :
  Forall (fun x => p x = Ok false) before -> p t = Ok true ->
  Array_find p (before ++ t :: after) = Ok t.
Proof.
  induction before as [|x before IH]; intros F Pt; simpl.
  - rewrite Pt. reflexivity.
  - inversion F as [|? ? Px Fb]; subst. rewrite Px. simpl. auto.
Qed.

Lemma Array_find_none (p : JSValue -> Result bool) l :
  Forall (fun x => p x = Ok false) l -> Array_find p l = Ok JUndefined.
Proof.
  induction l as [|x l IH]; intros F; simpl; [reflexivity|].
  inversion F as [|? ? Px Fl]; subst. rewrite Px. simpl. auto.
Qed.

Lemma findIndex_none (p : JSValue -> Result bool) l : forall i,
  Forall (fun x => p x = Ok false) l -> findIndex p l i = Ok None.
Proof.
  induction l as [|x l IH]; intros i F; simpl; [reflexivity|].
  inversion F as [|? ? Px Fl]; subst. rewrite Px. simpl. auto.
Qed.

(** The test [t.id === taskId] on an entry that is not [null] or
    [undefined]. *)
Lemma id_test taskId t :
  nullish t = false ->
  (id ← prop t "id"; mret (strict_equal id taskId)) = Ok (has_id taskId t).
Proof. intros N. unfold prop. rewrite N. reflexivity. Qed.

Lemma id_tests taskId l (b : bool) :
  Forall (fun t => nullish t = false) l ->
  Forall (fun t => has_id taskId t = b) l ->
  Forall (fun t =>
    (id ← prop t "id"; mret (strict_equal id taskId)) = Ok b) l.
Proof.
  intros N F. induction l as [|x l IH]; constructor.
  - inversion N; inversion F; subst. rewrite id_test by assumption. congruence.
  - inversion N; inversion F; subst. auto.
Qed.

Lemma delete_middle {A} (before : list A) t after :
  delete (length before) (before ++ t :: after) = before ++ after.
Proof. induction before as [|x before IH]; simpl; [reflexivity|]. f_equal. exact IH. Qed.

Lemma nth_middle_at (before : list JSValue) t after :
  nth (length before) (before ++ t :: after) JUndefined = t.
Proof. induction before as [|x before IH]; simpl; auto. Qed.

(** ** Lookup and deletion *)

Section Deleting.
Context `{Platform}.
Variable apiClient_deleteTask : JSValue -> M unit.
Hypothesis api_frame : forall taskId, only_requests (apiClient_deleteTask taskId).

Lemma add_requests_tasks calls (w : World) : tasks (add_requests calls w) = tasks w.
Proof. reflexivity. Qed.

Lemma deleteTask_run taskId w :
  deleteTask apiClient_deleteTask taskId w =
  match findIndex (fun t => id ← prop t "id"; mret (strict_equal id taskId))
                  (tasks w) 0 with
  | Throw e => (Throw e, w)
  | Ok None => (Throw (Error "Task not found"), w)
  | Ok (Some i) =>
      let rest := delete i (tasks w) in
      match saveTasks rest (set_tasks rest w) with
      | (Ok _, w2) =>
          (Ok (nth i (tasks w) JUndefined),
           snd (try_catch (apiClient_deleteTask taskId) (fun _ => mret tt) w2))
      | (Throw e, w2) => (Throw e, w2)
      end
  end.
Proof.
  unfold deleteTask. rewrite bind_run. unfold read at 1. cbv beta iota.
  rewrite bind_run. unfold lift at 1.
  destruct (findIndex _ (tasks w) 0) as [[i|]|e]; try reflexivity.
  cbv beta iota zeta. rewrite !bind_run. unfold read at 1, write at 1.
  cbv beta iota. rewrite !bind_run. unfold read at 1. cbv beta iota.
  change (tasks (set_tasks (delete i (tasks w)) w)) with (delete i (tasks w)).
  rewrite bind_run.
  destruct (saveTasks _ _) as [[[]|e] w2]; [|reflexivity].
  rewrite bind_run. unfold try_catch.
  destruct (apiClient_deleteTask taskId w2) as [[[]|e] w3]; reflexivity.
Qed.

Lemma deleted_tasks taskId w2 :
  tasks (snd (try_catch (apiClient_deleteTask taskId) (fun _ => mret tt) w2))
  = tasks w2.
Proof.
  unfold try_catch. destruct (api_frame taskId w2) as (r & calls & ->).
  destruct r; reflexivity.
Qed.

Lemma getTask_run taskId (w : World) :
  getTask taskId w =
  (Array_find (fun t => id ← prop t "id"; mret (strict_equal id taskId))
              (tasks w), w).
Proof.
  unfold getTask. rewrite bind_run. unfold read, lift. cbv beta iota.
  reflexivity.
Qed.

(** X1.  An id the collection does not hold: [getTask] returns [undefined],
    [deleteTask] throws "Task not found", and neither changes anything. *)
Theorem unknown_id (taskId : JSValue) (w : World) :
  Forall (fun t => nullish t = false) (tasks w) ->
  Forall (fun t => has_id taskId t = false) (tasks w) ->
  getTask taskId w = (Ok JUndefined, w) /\
  deleteTask apiClient_deleteTask taskId w = (Throw (Error "Task not found"), w).
Proof.
  intros N F. pose proof (id_tests taskId _ false N F) as T. split.
  - rewrite getTask_run, Array_find_none by exact T. reflexivity.
  - rewrite deleteTask_run, findIndex_none by exact T. reflexivity.
Qed.

Lemma deleteTask_at (taskId : JSValue) (w : World)
  (before after : list JSValue) (t : JSValue) :
  tasks w = before ++ t :: after ->
  Forall (fun x => nullish x = false) before ->
  Forall (fun x => has_id taskId x = false) before ->
  nullish t = false -> has_id taskId t = true ->
  deleteTask apiClient_deleteTask taskId w =
  match saveTasks (before ++ after) (set_tasks (before ++ after) w) with
  | (Ok _, w2) =>
      (Ok t, snd (try_catch (apiClient_deleteTask taskId) (fun _ => mret tt) w2))
  | (Throw e, w2) => (Throw e, w2)
  end.
Proof.
  intros E N F Nt Ht. rewrite deleteTask_run, E.
  rewrite (findIndex_at _ before t after 0).
  - cbv zeta. change (0 + length before)%nat with (length before).
    rewrite delete_middle, nth_middle_at. reflexivity.
  - exact (id_tests taskId before false N F).
  - rewrite id_test by exact Nt. congruence.
Qed.

(** X2.  [deleteTask] takes out one entry, the first whose id is [taskId], and
    returns it; the entries before and after it stay, in their order.  It
    throws only when the save fails, and the entry is then already gone
    from the collection. *)
Theorem deleteTask_removes_first (taskId : JSValue) (w : World)
  (before after : list JSValue) (t : JSValue) :
  tasks w = before ++ t :: after ->
  Forall (fun x => nullish x = false) before ->
  Forall (fun x => has_id taskId x = false) before ->
  nullish t = false -> has_id taskId t = true ->
  let saved := saveTasks (before ++ after) (set_tasks (before ++ after) w) in
  tasks (snd (deleteTask apiClient_deleteTask taskId w)) = before ++ after /\
  match fst saved with
  | Ok _ => fst (deleteTask apiClient_deleteTask taskId w) = Ok t
  | Throw e => deleteTask apiClient_deleteTask taskId w = (Throw e, snd saved)
  end.
Proof.
  intros E N F Nt Ht saved. subst saved.
  rewrite (deleteTask_at taskId w before after t) by assumption.
  pose proof (saveTasks_tasks (before ++ after)
                (set_tasks (before ++ after) w)) as Et.
  destruct (saveTasks _ _) as [[[]|e] w2]; simpl in *.
  - rewrite deleted_tasks. auto.
  - auto.
Qed.

(** X3.  A task just created is the one [getTask] returns for its id, and
    deleting it gives back the collection there was before it was created,
    provided no task held the generated id. *)
Theorem create_then_find_and_delete (taskData : JSValue) (w w1 : World)
  (t : JSValue) :
  createTask taskData w = (Ok t, w1) ->
  Forall (fun x => nullish x = false) (tasks w) ->
  Forall (fun x => has_id (id_of t) x = false) (tasks w) ->
  tasks w1 = tasks w ++ [t] /\
  getTask (id_of t) w1 = (Ok t, w1) /\
  tasks (snd (deleteTask apiClient_deleteTask (id_of t) w1)) = tasks w.
Proof.
  intros Ec N F.
  assert (nullish taskData = false) as Nd.
  { destruct taskData; try reflexivity; vm_compute in Ec; discriminate. }
  pose proof (createTask_run w taskData Nd) as R. cbv zeta in R.
  rewrite Ec in R.
  destruct (call_trim _) as [trimmed|e]; [|discriminate].
  destruct (trimmed =? EmptyString); [discriminate|].
  pose proof (saveTasks_tasks (tasks w ++ [created_task w taskData])
                (set_tasks (tasks w ++ [created_task w taskData]) w)) as Et.
  destruct (saveTasks _ _) as [[[]|e] w2]; [|discriminate].
  injection R as -> ->. simpl in Et.
  assert (tasks (add_request (ApiCreateTask (created_task w taskData)) w2)
          = tasks w ++ [created_task w taskData]) as E1 by exact Et.
  set (t := created_task w taskData) in *.
  set (w1 := add_request (ApiCreateTask t) w2) in *.
  assert (nullish t = false) as Nt by reflexivity.
  assert (has_id (id_of t) t = true) as Ht.
  { unfold has_id, id_of. subst t. simpl. apply String.eqb_refl. }
  split; [exact E1|]. split.
  - rewrite getTask_run, E1.
    rewrite (Array_find_at _ (tasks w) t []); [reflexivity| |].
    + exact (id_tests _ _ false N F).
    + rewrite id_test by exact Nt. congruence.
  - rewrite (deleteTask_at (id_of t) w1 (tasks w) [] t E1 N F Nt Ht).
    rewrite app_nil_r.
    pose proof (saveTasks_tasks (tasks w) (set_tasks (tasks w) w1)) as Es.
    destruct (saveTasks _ _) as [[[]|e] w3]; simpl in *.
    + rewrite deleted_tasks. exact Es.
    + exact Es.
Qed.

End Deleting.

(** ** The fields of an updated task *)

Lemma lookup_set_prop k k' v ps :
  lookup_prop k (set_prop k' v ps) = if k' =? k then v else lookup_prop k ps.
Proof.
  induction ps as [|[k0 v0] ps IH]; simpl.
  - destruct (k' =? k); reflexivity.
  - destruct (k0 =? k') eqn:E0; simpl.
    + apply String.eqb_eq in E0. subst k0. destruct (k' =? k); reflexivity.
    + rewrite IH. destruct (k0 =? k) eqn:E1; [|reflexivity].
      apply String.eqb_eq in E1. subst k0. rewrite String.eqb_sym, E0.
      reflexivity.
Qed.

Lemma lookup_absent k ps : has_own k ps = false -> lookup_prop k ps = JUndefined.
Proof.
  induction ps as [|[k0 v0] ps IH]; simpl; [reflexivity|].
  destruct (k0 =? k); simpl; [discriminate|]. exact IH.
Qed.

Lemma lookup_spread k qs : forall ps,
  List.NoDup (map fst qs) ->
  lookup_prop k (spread ps qs) =
  if has_own k qs then lookup_prop k qs else lookup_prop k ps.
Proof.
  unfold spread. induction qs as [|[k0 v0] qs IH]; intros ps D; simpl;
    [reflexivity|].
  inversion D as [|? ? Nin Dq]; subst. rewrite IH by exact Dq.
  rewrite lookup_set_prop.
  destruct (k0 =? k) eqn:E0; simpl; [|reflexivity].
  apply String.eqb_eq in E0. subst k0.
  assert (has_own k qs = false) as ->; [|reflexivity].
  unfold has_own. apply not_true_is_false. intros Ex.
  apply existsb_exists in Ex. destruct Ex as ([k1 v1] & I & E1).
  simpl in E1. apply String.eqb_eq in E1. subst k1.
  apply Nin. apply in_map_iff. exists (k, v1). auto.
Qed.

Section Updating.
Context `{Platform}.

(** X4.  [updateTask] replaces the first task whose id is [taskId], where it
    stands, by a task that has the fields of [updates], [updatedAt] set to
    the current time, and for the rest the fields the task had. *)
Theorem updateTask_fields (taskId : JSValue) (w : World)
  (before after : list JSValue) (ps us : list (string * JSValue))
  (u : JSValue) :
  tasks w = before ++ JObj ps :: after ->
  Forall (fun x => nullish x = false) before ->
  Forall (fun x => has_id taskId x = false) before ->
  has_id taskId (JObj ps) = true ->
  List.NoDup (map fst ps) -> List.NoDup (map fst us) ->
  fst (updateTask taskId (JObj us) w) = Ok u ->
  tasks (snd (updateTask taskId (JObj us) w)) = before ++ u :: after /\
  forall k,
    get u k =
    if k =? "updatedAt" then JStr (clock w)
    else if has_own k us then get (JObj us) k else get (JObj ps) k.
Proof.
  intros E N F Ht Dp Du Eu.
  rewrite updateTask_run, E in *.
  rewrite (findIndex_at _ before (JObj ps) after 0) in *;
    try exact (id_tests taskId before false N F);
    try (rewrite id_test by reflexivity; congruence).
  change (0 + length before)%nat with (length before) in *.
  unfold update_at in *. rewrite E, nth_middle_at in *.
  set (u' := updatedTask_of (JObj ps) (JObj us) (JStr (clock w))) in *.
  destruct (call_trim (get u' "title")) as [trimmed|e]; [|discriminate].
  destruct (trimmed =? EmptyString); [discriminate|].
  assert (<[length before := u']> (before ++ JObj ps :: after)
          = before ++ u' :: after) as Ei.
  { clear. induction before as [|x before IH]; simpl; [reflexivity|].
    f_equal. exact IH. }
  rewrite Ei in *.
  pose proof (saveTasks_tasks (before ++ u' :: after)
                (set_tasks (before ++ u' :: after) w)) as Et.
  destruct (saveTasks _ _) as [[[]|e] w2]; [|discriminate].
  simpl in Eu. injection Eu as <-. split; [exact Et|].
  intros k. unfold u', updatedTask_of. simpl.
  rewrite lookup_set_prop, String.eqb_sym.
  destruct (k =? "updatedAt"); [reflexivity|].
  rewrite lookup_spread by exact Du.
  destruct (has_own k us); [reflexivity|].
  rewrite lookup_spread by exact Dp.
  destruct (has_own k ps) eqn:Hk; [reflexivity|].
  simpl. symmetry. apply lookup_absent. exact Hk.
Qed.

End Updating.

(** ** Searching and filtering *)

Lemma Array_filter_pure (p : JSValue -> Result bool) (f : JSValue -> bool) l :
  Forall (fun t => p t = Ok (f t)) l ->
  Array_filter p l = Ok (List.filter f l).
Proof.
  induction l as [|t l IH]; intros F; simpl; [reflexivity|].
  inversion F as [|? ? Pt Fl]; subst. rewrite Pt, IH by exact Fl. simpl.
  destruct (f t); reflexivity.
Qed.

Lemma Array_filter_sublist (p : JSValue -> Result bool) l : forall l',
  Array_filter p l = Ok l' ->
  sublist l' l /\ Forall (fun t => p t = Ok true) l'.
Proof.
  induction l as [|t l IH]; intros l'; simpl.
  - intros [= <-]. split; constructor.
  - destruct (p t) as [b|e] eqn:Pt; [|discriminate]. simpl.
    destruct (Array_filter p l) as [rest|e]; [|discriminate]. simpl.
    destruct (IH rest eq_refl) as [S F].
    destruct b; intros [= <-].
    + split; [apply sublist_skip; exact S | constructor; assumption].
    + split; [apply sublist_cons; exact S | exact F].
Qed.

Lemma filter_sublist {A} (f : A -> bool) l : sublist (List.filter f l) l.
Proof.
  induction l as [|x l IH]; simpl; [constructor|].
  destruct (f x); [apply sublist_skip | apply sublist_cons]; exact IH.
Qed.
















Lemma Forall_sublist_of {A} (P : A -> Prop) (l' l : list A) :
  sublist l' l -> Forall P l -> Forall P l'.
Proof.
  induction 1 as [|x l1 l2 S IH|x l1 l2 S IH]; intros F.
  - constructor.
  - inversion F; subst. constructor; auto.
  - inversion F; subst. auto.
Qed.

Lemma filter_by_keeps key filters ts l :
  filter_by key filters ts = Ok l ->
  sublist l ts /\
  (truthy (get filters key) = true ->
   Forall (fun t => strict_equal (get t key) (get filters key) = true) l).
Proof.
  unfold filter_by, prop. destruct (nullish filters); [discriminate|].
  cbn [mbind Result_bind]. destruct (truthy (get filters key)).
  - intros E. apply Array_filter_sublist in E. destruct E as [S F].
    split; [exact S|]. intros _. eapply Forall_impl; [exact F|].
    intros t. cbv beta. destruct (nullish t); [discriminate|].
    intros E. injection E as E. exact E.
  - intros [= <-]. split; [reflexivity|discriminate].
Qed.

Lemma searchTasks_sublist ts query l :
  searchTasks ts query = Ok l -> sublist l ts.
Proof.
  unfold searchTasks. destruct (call_trim query) as [trimmed|]; [|discriminate].
  cbn [mbind Result_bind]. destruct (trimmed =? EmptyString).
  - intros [= <-]. reflexivity.
  - destruct (call_toLowerCase query); [|discriminate].
    cbn [mbind Result_bind]. intros E.
    apply Array_filter_sublist in E. tauto.
Qed.

(** X8.  What [filterTasks] returns is a selection of the tasks, in their order,
    in which every task has the status, the category and the priority the
    filters ask for; with no filter set it is the tasks as they were. *)
Theorem filterTasks_selects (tasks : list JSValue) (filters : JSValue) :
  (nullish filters = false ->
   truthy (get filters "status") = false ->
   truthy (get filters "category") = false ->
   truthy (get filters "priority") = false ->
   truthy (get filters "search") = false ->
   filterTasks tasks filters = Ok tasks) /\
  forall l, filterTasks tasks filters = Ok l ->
    sublist l tasks /\
    forall key, In key ["status"; "category"; "priority"] ->
      truthy (get filters key) = true ->
      Forall (fun t => strict_equal (get t key) (get filters key) = true) l.
Proof.
  split.
  - intros N S C P Q. unfold filterTasks, filter_by, prop. rewrite N.
    cbn [mbind Result_bind]. rewrite S. cbn [mbind Result_bind].
    rewrite C. cbn [mbind Result_bind]. rewrite P, Q. reflexivity.
  - intros l. unfold filterTasks.
    destruct (filter_by "status" filters tasks) as [l1|] eqn:E1; [|discriminate].
    cbn [mbind Result_bind].
    destruct (filter_by "category" filters l1) as [l2|] eqn:E2; [|discriminate].
    cbn [mbind Result_bind].
    destruct (filter_by "priority" filters l2) as [l3|] eqn:E3; [|discriminate].
    cbn [mbind Result_bind].
    destruct (prop filters "search") as [search|]; [|discriminate].
    cbn [mbind Result_bind].
    apply filter_by_keeps in E1, E2, E3.
    destruct E1 as [S1 F1], E2 as [S2 F2], E3 as [S3 F3].
    intros E.
    assert (sublist l l3) as S4.
    { destruct (truthy search).
      - apply searchTasks_sublist in E. exact E.
      - injection E as <-. reflexivity. }
    assert (sublist l l2) as S5 by (transitivity l3; assumption).
    assert (sublist l l1) as S6 by (transitivity l2; assumption).
    split; [transitivity l1; assumption|].
    intros key [<-|[<-|[<-|[]]]] T.
    + apply (Forall_sublist_of _ l l1); auto.
    + apply (Forall_sublist_of _ l l2); auto.
    + apply (Forall_sublist_of _ l l3); auto.
Qed.

(** ** Import, export, restore and clearing *)

Section Exchange.
Context `{Platform}.

Lemma Array_map_ids l :
  Forall (fun t => nullish t = false) l ->
  Array_map (fun t => prop t "id") l = Ok (ids l).
Proof.
  induction l as [|t l IH]; intros F; simpl; [reflexivity|].
  inversion F as [|? ? Nt Fl]; subst.
  assert (prop t "id" = Ok (id_of t)) as ->
    by (unfold prop; rewrite Nt; reflexivity).
  cbn [mbind Result_bind]. rewrite IH by exact Fl. reflexivity.
Qed.

Lemma importable_filter items :
  Forall (fun t => nullish t = false) items ->
  Array_filter (fun task =>
      id ← prop task "id";
      if truthy id then
        title ← prop task "title";
        mret (truthy title && typeof_string title)
      else mret false) items
  = Ok (List.filter importable items).
Proof.
  intros F. apply Array_filter_pure. eapply Forall_impl; [exact F|].
  intros t N. cbv beta. unfold prop, importable. rewrite N.
  cbn [mbind Result_bind]. destruct (truthy (get t "id")); reflexivity.
Qed.

Lemma restorable_filter items :
  Forall (fun t => nullish t = false) items ->
  Array_filter (fun task =>
      id ← prop task "id";
      mret (truthy id && truthy (get task "title") &&
            truthy (get task "status") && truthy (get task "priority") &&
            truthy (get task "createdAt") &&
            truthy (get task "updatedAt"))) items
  = Ok (List.filter restorable items).
Proof.
  intros F. apply Array_filter_pure. eapply Forall_impl; [exact F|].
  intros t N. cbv beta. unfold prop, restorable. rewrite N. reflexivity.
Qed.

Lemma filter_nonnullish (f : JSValue -> bool) l :
  Forall (fun t => nullish t = false) l ->
  Forall (fun t => nullish t = false) (List.filter f l).
Proof. apply Forall_sublist_of, filter_sublist. Qed.

Lemma is_new_filter existing valid :
  Forall (fun t => nullish t = false) valid ->
  Array_filter (fun task =>
      id ← prop task "id"; mret (negb (set_has id (ids existing)))) valid
  = Ok (List.filter (is_new existing) valid).
Proof.
  intros F. apply Array_filter_pure. eapply Forall_impl; [exact F|].
  intros t N. cbv beta. unfold prop, is_new. rewrite N. reflexivity.
Qed.

Lemma import_format data :
  truthy data = true -> isArray (get data "tasks") = true ->
  negb (truthy data) || negb (truthy (get data "tasks"))
  || negb (isArray (get data "tasks")) = false.
Proof.
  intros T A. rewrite T, A. destruct (get data "tasks"); try discriminate A.
  reflexivity.
Qed.

Lemma importTasks_run data items (w : World) :
  truthy data = true -> get data "tasks" = JArr items ->
  Forall (fun t => nullish t = false) items ->
  Forall (fun t => nullish t = false) (tasks w) ->
  importTasks data w =
  let valid := List.filter importable items in
  let new := List.filter (is_new (tasks w)) valid in
  if (length valid =? 0)%nat
  then (Throw (Error "No valid tasks found in import data"), w)
  else
    match saveTasks (tasks w ++ new) (set_tasks (tasks w ++ new) w) with
    | (Ok _, w2) =>
        (Ok (counts "imported" (Z.of_nat (length new))
               (Z.of_nat (length valid) - Z.of_nat (length new))), w2)
    | (Throw e, w2) => (Throw e, w2)
    end.
Proof.
  intros T G Fi Ft. unfold importTasks.
  rewrite import_format by (rewrite ?G; auto). rewrite G.
  rewrite bind_run. unfold lift at 1. rewrite importable_filter by exact Fi.
  cbv zeta. destruct (length _ =? 0)%nat; [reflexivity|].
  rewrite bind_run. unfold read at 1. cbv beta iota.
  rewrite bind_run. unfold lift at 1. rewrite Array_map_ids by exact Ft.
  rewrite bind_run. unfold lift at 1.
  rewrite is_new_filter by (apply filter_nonnullish; exact Fi).
  rewrite !bind_run. unfold read at 1, write at 1. cbv beta iota.
  rewrite !bind_run. unfold read at 1. cbv beta iota.
  rewrite bind_run.
  destruct (saveTasks _ _) as [[[]|e] w2]; reflexivity.
Qed.

Lemma restoreFromBackup_run backupData items (w : World) :
  truthy backupData = true -> get backupData "tasks" = JArr items ->
  Forall (fun t => nullish t = false) items ->
  restoreFromBackup backupData w =
  let valid := List.filter restorable items in
  if (length valid =? 0)%nat
  then (Throw (Error "No valid tasks found in backup"), w)
  else
    match saveTasks valid w with
    | (Ok _, w2) =>
        (Ok (counts "restored" (Z.of_nat (length valid))
               (Z.of_nat (length items) - Z.of_nat (length valid))), w2)
    | (Throw e, w2) => (Throw e, w2)
    end.
Proof.
  intros T G Fi. unfold restoreFromBackup.
  rewrite import_format by (rewrite ?G; auto). rewrite G.
  rewrite bind_run. unfold lift at 1. rewrite restorable_filter by exact Fi.
  cbv zeta. destruct (length _ =? 0)%nat; [reflexivity|].
  rewrite bind_run.
  destruct (saveTasks _ _) as [[[]|e] w2]; reflexivity.
Qed.

Lemma filter_none {A} (f : A -> bool) l :
  Forall (fun t => f t = false) l -> List.filter f l = [].
Proof.
  induction l as [|x l IH]; intros F; simpl; [reflexivity|].
  inversion F as [|? ? Fx Fl]; subst. rewrite Fx. auto.
Qed.

(** X9.  [importTasks] and [restoreFromBackup] refuse data that is falsy or has
    no array under [tasks], and data in which no task passes their filter;
    they then leave the collection and the store as they were. *)
Theorem import_and_restore_reject (data : JSValue) (w : World) :
  (truthy data = false \/ isArray (get data "tasks") = false ->
   importTasks data w = (Throw (Error "Invalid import data format"), w) /\
   restoreFromBackup data w = (Throw (Error "Invalid backup data format"), w)) /\
  (forall items,
     truthy data = true -> get data "tasks" = JArr items ->
     Forall (fun t => nullish t = false) items ->
     (Forall (fun t => importable t = false) items ->
      importTasks data w =
      (Throw (Error "No valid tasks found in import data"), w)) /\
     (Forall (fun t => restorable t = false) items ->
      restoreFromBackup data w =
      (Throw (Error "No valid tasks found in backup"), w))).
Proof.
  split.
  - intros Bad. unfold importTasks, restoreFromBackup.
    destruct Bad as [T|A].
    + rewrite T. split; reflexivity.
    + rewrite A, orb_true_r.
      destruct (get data "tasks"); try discriminate A; split; reflexivity.
  - intros items T G Fi. split; intros Fv.
    + unfold importTasks. rewrite import_format by (rewrite ?G; auto).
      rewrite G, bind_run. unfold lift at 1.
      rewrite importable_filter, filter_none by assumption. reflexivity.
    + rewrite (restoreFromBackup_run data items) by assumption.
      cbv zeta. rewrite filter_none by assumption. reflexivity.
Qed.

Lemma filter_nonempty {A} (f : A -> bool) l x :
  In x l -> f x = true -> (length (List.filter f l) =? 0)%nat = false.
Proof.
  intros I Fx. apply Nat.eqb_neq. intros E.
  assert (In x (List.filter f l)) as Ix by (apply filter_In; auto).
  destruct (List.filter f l); [destruct Ix|discriminate].
Qed.

(** X10.  [importTasks] appends to the collection, in the order of the data, the
    tasks of the data that pass its filter and whose id no task of the
    collection has; the tasks there were stay as they are, and two tasks of
    the data with one new id are both added.  [imported] counts the tasks
    added and [skipped] the other tasks that passed the filter. *)
Theorem importTasks_appends (data : JSValue) (items : list JSValue)
  (w : World) (t : JSValue) :
  truthy data = true -> get data "tasks" = JArr items ->
  Forall (fun x => nullish x = false) items ->
  Forall (fun x => nullish x = false) (tasks w) ->
  In t items -> importable t = true ->
  let valid := List.filter importable items in
  let new := List.filter (is_new (tasks w)) valid in
  tasks (snd (importTasks data w)) = tasks w ++ new /\
  (forall x, In x new <->
     In x items /\ importable x = true /\
     Forall (fun held => strict_equal (id_of held) (id_of x) = false) (tasks w)) /\
  forall r, fst (importTasks data w) = Ok r ->
    r = counts "imported" (Z.of_nat (length new))
          (Z.of_nat (length valid - length new)).
Proof.
  intros T G Fi Ft I V valid new.
  rewrite (importTasks_run data items w T G Fi Ft). cbv zeta.
  fold valid. fold new.
  unfold valid at 1 3. rewrite (filter_nonempty importable items t I V).
  pose proof (saveTasks_tasks (tasks w ++ new)
                (set_tasks (tasks w ++ new) w)) as Et.
  split; [|split].
  - destruct (saveTasks _ _) as [[[]|e] w2]; exact Et.
  - intros x. unfold new, valid. rewrite !filter_In. unfold is_new, set_has.
    rewrite negb_true_iff. unfold ids.
    rewrite <- not_true_iff_false, existsb_exists, List.Forall_forall.
    split.
    + intros [[Ix Vx] Nx]. split; [exact Ix|]. split; [exact Vx|].
      intros held Ih. apply not_true_is_false. intros E. apply Nx.
      exists (id_of held). split; [apply in_map; exact Ih|exact E].
    + intros (Ix & Vx & Nx). split; [tauto|]. intros (k & Ik & E).
      apply in_map_iff in Ik. destruct Ik as (held & <- & Ih).
      rewrite (Nx held Ih) in E. discriminate.
  - intros r. destruct (saveTasks _ _) as [[[]|e] w2]; [|discriminate].
    intros [= <-].
    assert (length new <= length valid)%nat as L
      by apply sublist_length, filter_sublist.
    rewrite Nat2Z.inj_sub by exact L. reflexivity.
Qed.

Lemma filter_all_true {A} (f : A -> bool) l :
  Forall (fun t => f t = true) l -> List.filter f l = l.
Proof.
  induction l as [|x l IH]; intros F; simpl; [reflexivity|].
  inversion F as [|? ? Fx Fl]; subst. rewrite Fx, IH by exact Fl. reflexivity.
Qed.

Lemma importable_not_nullish t : importable t = true -> nullish t = false.
Proof. destruct t; try reflexivity; discriminate. Qed.

Lemma restorable_not_nullish t : restorable t = true -> nullish t = false.
Proof. destruct t; try reflexivity; discriminate. Qed.

(** X11.  What [exportTasks] returns, [importTasks] takes into a manager that
    holds no task: the collection there is afterwards the exported one,
    when each of its tasks has a truthy id and a non-empty string for
    title.  The export of an empty collection is refused by
    [importTasks]. *)
Theorem export_then_import (w w0 : World) :
  tasks w0 = [] ->
  Forall (fun t => importable t = true) (tasks w) ->
  exists data,
    exportTasks w = (Ok data, w) /\
    (tasks w = [] ->
     importTasks data w0 =
     (Throw (Error "No valid tasks found in import data"), w0)) /\
    (tasks w <> [] ->
     tasks (snd (importTasks data w0)) = tasks w /\
     forall r, fst (importTasks data w0) = Ok r ->
       r = counts "imported" (Z.of_nat (length (tasks w))) 0).
Proof.
  intros E0 V.
  exists (JObj [("version", JStr "1.0"); ("exportDate", JStr (clock w));
                ("tasks", JArr (tasks w))]).
  split; [reflexivity|].
  assert (Forall (fun t => nullish t = false) (tasks w)) as N.
  { eapply Forall_impl; [exact V|]. apply importable_not_nullish. }
  assert (Forall (fun t => nullish t = false) (tasks w0)) as N0
    by (rewrite E0; constructor).
  rewrite (importTasks_run
             (JObj [("version", JStr "1.0"); ("exportDate", JStr (clock w));
                    ("tasks", JArr (tasks w))])
             (tasks w) w0 eq_refl eq_refl N N0).
  cbv zeta.
  rewrite (filter_all_true importable) by exact V.
  rewrite E0.
  assert (List.filter (is_new []) (tasks w) = tasks w) as ->.
  { apply filter_all_true. apply List.Forall_forall. reflexivity. }
  split.
  - intros ->. reflexivity.
  - intros Ne. destruct (tasks w) as [|t ts] eqn:Et; [congruence|].
    cbn [length Nat.eqb app].
    pose proof (saveTasks_tasks (t :: ts) (set_tasks (t :: ts) w0)) as Es.
    destruct (saveTasks _ _) as [[[]|e] w2]; simpl in *.
    + split; [exact Es|]. intros r [= <-]. unfold counts.
      rewrite Z.sub_diag. reflexivity.
    + split; [exact Es|]. discriminate.
Qed.

(** In localStorage mode a successful save leaves the text of the envelope
    in the store. *)
Lemma saveTasks_localStorage ts (w : World) :
  useIndexedDB w = false ->
  (N.of_nat (String.length (JSON_stringify (envelope (clock w) ts)))
     <= quota w)%N ->
  saveTasks ts w =
  (Ok tt, set_localStorage (Some (JSON_stringify (envelope (clock w) ts))) w).
Proof.
  intros Mode Q. unfold saveTasks. rewrite bind_run. unfold read at 1.
  rewrite Mode. unfold saveTasksLocalStorage, try_catch.
  rewrite bind_run. unfold read at 1. cbv beta iota.
  unfold localStorage_setItem. rewrite bind_run. unfold read at 1.
  cbv beta iota. apply N.leb_le in Q. rewrite Q. reflexivity.
Qed.

Lemma restorable_valid t : restorable t = true -> valid_entry t = true.
Proof.
  destruct t as [| | | | | |ps]; try discriminate.
  unfold restorable, valid_entry. rewrite !andb_true_iff.
  intros [[[[[I T] _] _] C] U]. repeat split; assumption.
Qed.

(** X12.  [restoreFromBackup] writes to the store the tasks of the backup that
    pass its filter, in place of what the store held.  In localStorage
    mode, when JSON carries them and they fit the quota, a load returns
    exactly these tasks afterwards, and [cleanup] finds nothing to drop
    among them and writes nothing.  The collection of the task manager is
    not touched. *)
Theorem restore_then_load (backupData : JSValue) (items : list JSValue)
  (w : World) (t : JSValue) :
  truthy backupData = true -> get backupData "tasks" = JArr items ->
  Forall (fun x => nullish x = false) items ->
  In t items -> restorable t = true ->
  let valid := List.filter restorable items in
  let text := JSON_stringify (envelope (clock w) valid) in
  useIndexedDB w = false ->
  JSON_parse text = Some (envelope (clock w) valid) ->
  text <> EmptyString ->
  (N.of_nat (String.length text) <= quota w)%N ->
  let w' := set_localStorage (Some text) w in
  restoreFromBackup backupData w =
  (Ok (counts "restored" (Z.of_nat (length valid))
         (Z.of_nat (length items) - Z.of_nat (length valid))), w') /\
  loadTasks w' = (Ok valid, w') /\
  cleanup w' = (Ok valid, w') /\
  tasks w' = tasks w.
Proof.
  intros T G Fi I V valid text Mode P Ne Q w'.
  assert (loadTasks w' = (Ok valid, w')) as El.
  { rewrite loadTasks_localStorage by exact Mode.
    eapply loadTasksLocalStorage_items; [reflexivity|exact Ne|exact P|].
    reflexivity. }
  split; [|split; [exact El|split; [|reflexivity]]].
  - rewrite (restoreFromBackup_run backupData items w T G Fi). cbv zeta.
    fold valid. unfold valid at 1.
    rewrite (filter_nonempty restorable items t I V).
    rewrite saveTasks_localStorage by assumption. reflexivity.
  - rewrite (cleanup_run w' valid) by (rewrite El; reflexivity).
    rewrite (filter_all_true valid_entry).
    + rewrite Nat.eqb_refl. reflexivity.
    + apply List.Forall_forall. intros x Ix. apply restorable_valid.
      apply filter_In in Ix. tauto.
Qed.

(** X13.  [clearLocalData] never throws and leaves the collection empty.  In
    localStorage mode the stored item is gone, so that loading afterwards
    gives no task; in IndexedDB mode with no database opened the failure of
    the clearing is lost and nothing but the collection changes. *)
Theorem clearLocalData_clears (w : World) :
  exists w',
    clearLocalData w = (Ok tt, w') /\ tasks w' = [] /\
    (useIndexedDB w = false ->
     w' = set_localStorage None (set_tasks [] w) /\
     TaskManager_loadTasks w' = (Ok [], w')) /\
    (useIndexedDB w = true -> db w = None -> w' = set_tasks [] w).
Proof.
  unfold clearLocalData. rewrite bind_run. unfold write at 1. cbv beta iota.
  unfold try_catch, clearTasks. rewrite bind_run. unfold read at 1.
  cbv beta iota. change (useIndexedDB (set_tasks [] w)) with (useIndexedDB w).
  destruct (useIndexedDB w) eqn:Mode.
  - unfold clearTasksIndexedDB. rewrite bind_run. unfold read at 1.
    cbv beta iota. change (db (set_tasks [] w)) with (db w).
    destruct (db w) as [d|] eqn:Ed.
    + destruct (idb_clear d) as [d'|].
      * eexists. split; [reflexivity|]. split; [reflexivity|].
        split; discriminate.
      * eexists. split; [reflexivity|]. split; [reflexivity|].
        split; discriminate.
    + eexists. split; [reflexivity|]. split; [reflexivity|].
      split; [discriminate|reflexivity].
  - eexists. split; [reflexivity|]. split; [reflexivity|].
    split; [|discriminate]. intros _. split; [reflexivity|].
    rewrite TaskManager_loadTasks_run.
    rewrite (loadTasks_localStorage (set_localStorage None (set_tasks [] w)))
      by exact Mode.
    rewrite loadTasksLocalStorage_unreadable by exact I. reflexivity.
Qed.

Lemma getTasksBy_run key (wanted : JSValue) (w : World) (m : M (list JSValue)) :
  m = (ts ← read tasks;
       lift (Array_filter (fun t =>
           v ← prop t key; mret (strict_equal v wanted)) ts)) ->
  truthy wanted = true -> (key =? "status") || (key =? "category")
                          || (key =? "priority") = true ->
  fst (m w) = filterTasks (tasks w) (JObj [(key, wanted)]).
Proof.
  intros -> T K. rewrite bind_run. unfold read, lift. cbv beta iota.
  cbn [fst]. unfold filterTasks, filter_by, prop.
  cbn [nullish get lookup_prop].
  destruct (Array_filter _ (tasks w)) as [l|e] eqn:E.
  - destruct (key =? "status") eqn:K1.
    + apply String.eqb_eq in K1. subst key. cbn. rewrite T, E. reflexivity.
    + destruct (key =? "category") eqn:K2.
      * apply String.eqb_eq in K2. subst key. cbn. rewrite T, E. reflexivity.
      * destruct (key =? "priority") eqn:K3; [|discriminate K].
        apply String.eqb_eq in K3. subst key. cbn. rewrite T, E. reflexivity.
  - destruct (key =? "status") eqn:K1.
    + apply String.eqb_eq in K1. subst key. cbn. rewrite T, E. reflexivity.
    + destruct (key =? "category") eqn:K2.
      * apply String.eqb_eq in K2. subst key. cbn. rewrite T, E. reflexivity.
      * destruct (key =? "priority") eqn:K3; [|discriminate K].
        apply String.eqb_eq in K3. subst key. cbn. rewrite T, E. reflexivity.
Qed.

(** X14.  For a value that is truthy, [getTasksByStatus], [getTasksByCategory]
    and [getTasksByPriority] return what [filterTasks] returns for the
    collection with that one filter set. *)
Theorem queries_agree_with_filterTasks (wanted : JSValue) (w : World) :
  truthy wanted = true ->
  fst (getTasksByStatus wanted w)
    = filterTasks (tasks w) (JObj [("status", wanted)]) /\
  fst (getTasksByCategory wanted w)
    = filterTasks (tasks w) (JObj [("category", wanted)]) /\
  fst (getTasksByPriority wanted w)
    = filterTasks (tasks w) (JObj [("priority", wanted)]).
Proof.
  intros T. repeat split; apply getTasksBy_run; auto.
Qed.

(** X15.  In localStorage mode, when JSON carries the entries [cleanup] keeps and
    they fit the quota, a second [cleanup] returns the same entries and
    writes nothing. *)
Theorem cleanup_twice (w w' : World) (kept : list JSValue) :
  useIndexedDB w = false ->
  (let text := JSON_stringify (envelope (clock w) kept) in
   JSON_parse text = Some (envelope (clock w) kept) /\ text <> EmptyString) ->
  cleanup w = (Ok kept, w') ->
  cleanup w' = (Ok kept, w').
Proof.
  intros Mode [P Ne] Ec.
  destruct (loadTasksLocalStorage_returns w) as (entries & El).
  assert (fst (loadTasks w) = Ok entries) as El1.
  { rewrite loadTasks_localStorage, El by exact Mode. reflexivity. }
  rewrite (cleanup_run w entries El1) in Ec.
  destruct (_ =? _)%nat eqn:Len.
  - injection Ec as <- <-. rewrite (cleanup_run w entries El1), Len.
    reflexivity.
  - assert (Forall (fun t => valid_entry t = true)
              (List.filter valid_entry entries)) as Fv.
    { apply List.Forall_forall. intros t I. apply filter_In in I. tauto. }
    unfold saveTasks in Ec. rewrite bind_run in Ec. unfold read at 1 in Ec.
    rewrite Mode in Ec. unfold saveTasksLocalStorage, try_catch in Ec.
    rewrite bind_run in Ec. unfold read at 1 in Ec. cbv beta iota in Ec.
    unfold localStorage_setItem in Ec. rewrite bind_run in Ec.
    unfold read at 1 in Ec. cbv beta iota in Ec.
    destruct (_ <=? _)%N; [|discriminate].
    unfold write in Ec. injection Ec as <- <-.
    set (valid := List.filter valid_entry entries) in *.
    set (w1 := set_localStorage _ w).
    assert (loadTasks w1 = (Ok valid, w1)) as El2.
    { rewrite loadTasks_localStorage by exact Mode.
      eapply loadTasksLocalStorage_items; [reflexivity|exact Ne|exact P|].
      reflexivity. }
    rewrite (cleanup_run w1 valid) by (rewrite El2; reflexivity).
    rewrite (filter_all_true valid_entry valid Fv), Nat.eqb_refl.
    reflexivity.
Qed.

End Exchange.

(** ** The store after an operation *)

Section Persisted.
Context `{Platform}.
Variable apiClient_deleteTask : JSValue -> M unit.
Hypothesis api_frame : forall taskId, only_requests (apiClient_deleteTask taskId).

Lemma saveTasks_persists ts (w0 w2 : World) u :
  useIndexedDB w0 = false ->
  saveTasks ts w0 = (Ok u, w2) ->
  w2 = set_localStorage (Some (JSON_stringify (envelope (clock w0) ts))) w0.
Proof.
  intros Mode. unfold saveTasks. rewrite bind_run. unfold read at 1.
  rewrite Mode. unfold saveTasksLocalStorage, try_catch.
  rewrite bind_run. unfold read at 1. cbv beta iota.
  unfold localStorage_setItem. rewrite bind_run. unfold read at 1.
  cbv beta iota. destruct (_ <=? _)%N; [|discriminate].
  unfold write. intros [= _ <-]. reflexivity.
Qed.

Lemma persisted_loads (w w' : World) :
  persisted w w' -> carried w (tasks w') ->
  loadTasks w' = (Ok (tasks w'), w').
Proof.
  intros (Mode & _ & Es) [P Ne].
  rewrite loadTasks_localStorage by exact Mode.
  eapply loadTasksLocalStorage_items; [exact Es|exact Ne|exact P|].
  reflexivity.
Qed.

Lemma saved_persisted ts (w w2 : World) u :
  useIndexedDB w = false ->
  saveTasks ts (set_tasks ts w) = (Ok u, w2) -> persisted w w2.
Proof.
  intros Mode E. apply saveTasks_persists in E; [|exact Mode].
  subst w2. repeat split; assumption.
Qed.

Lemma persisted_requests (w w2 : World) calls :
  persisted w w2 -> persisted w (add_requests calls w2).
Proof. intros P. exact P. Qed.

Lemma createTask_persisted taskData (w w' : World) t :
  useIndexedDB w = false ->
  createTask taskData w = (Ok t, w') -> persisted w w'.
Proof.
  intros Mode E.
  assert (nullish taskData = false) as Nd.
  { destruct taskData; try reflexivity; vm_compute in E; discriminate. }
  rewrite (createTask_run w taskData Nd) in E. cbv zeta in E.
  destruct (call_trim _) as [trimmed|]; [|discriminate].
  destruct (trimmed =? EmptyString); [discriminate|].
  destruct (saveTasks _ _) as [[u|] w2] eqn:Es; [|discriminate].
  injection E as _ <-. apply (saved_persisted _ w w2 u Mode) in Es. exact Es.
Qed.

Lemma updateTask_persisted taskId updates (w w' : World) t :
  useIndexedDB w = false ->
  updateTask taskId updates w = (Ok t, w') -> persisted w w'.
Proof.
  intros Mode E. rewrite updateTask_run in E.
  destruct (findIndex _ (tasks w) 0) as [[i|]|]; try discriminate.
  unfold update_at in E.
  destruct (call_trim _) as [trimmed|]; [|discriminate].
  destruct (trimmed =? EmptyString); [discriminate|].
  destruct (saveTasks _ _) as [[u|] w2] eqn:Es; [|discriminate].
  injection E as _ <-. apply (saved_persisted _ w w2 u Mode) in Es. exact Es.
Qed.

Lemma deleteTask_persisted taskId (w w' : World) t :
  useIndexedDB w = false ->
  deleteTask apiClient_deleteTask taskId w = (Ok t, w') -> persisted w w'.
Proof.
  intros Mode E. rewrite deleteTask_run in E.
  destruct (findIndex _ (tasks w) 0) as [[i|]|]; try discriminate.
  cbv zeta in E.
  destruct (saveTasks _ _) as [[u|] w2] eqn:Es; [|discriminate].
  injection E as _ <-. apply (saved_persisted _ w w2 u Mode) in Es.
  unfold try_catch. destruct (api_frame taskId w2) as (r & calls & ->).
  destruct r; exact Es.
Qed.

Lemma importTasks_persisted data (w w' : World) r :
  useIndexedDB w = false ->
  importTasks data w = (Ok r, w') -> persisted w w'.
Proof.
  intros Mode. unfold importTasks.
  destruct (_ || _); [discriminate|].
  destruct (get data "tasks") as [| | | | |items|]; try discriminate.
  rewrite bind_run. unfold lift at 1.
  destruct (Array_filter _ items) as [valid|]; [|discriminate].
  destruct (length valid =? 0)%nat; [discriminate|].
  rewrite bind_run. unfold read at 1. cbv beta iota.
  rewrite bind_run. unfold lift at 1.
  destruct (Array_map _ (tasks w)) as [existing|]; [|discriminate].
  rewrite bind_run. unfold lift at 1.
  destruct (Array_filter _ valid) as [new|]; [|discriminate].
  rewrite !bind_run. unfold read at 1, write at 1. cbv beta iota.
  rewrite !bind_run. unfold read at 1. cbv beta iota. rewrite bind_run.
  change (tasks (set_tasks (tasks w ++ new) w)) with (tasks w ++ new).
  destruct (saveTasks _ _) as [[u|] w2] eqn:Es; [|discriminate].
  intros [= _ <-]. exact (saved_persisted _ w w2 u Mode Es).
Qed.

Lemma syncWithServer_persisted (w w' : World) r :
  useIndexedDB w = false ->
  syncWithServer w = (Ok r, w') -> persisted w w'.
Proof.
  intros Mode E. rewrite syncWithServer_run in E. cbv zeta in E.
  destruct (server w) as [S|]; [|discriminate].
  destruct (uniform_mergeTasks (tasks w) S) as (res & calls & _ & Em).
  rewrite Em in E. destruct res as [merged|]; [|discriminate].
  destruct (saveTasks _ _) as [[u|] w2] eqn:Es; [|discriminate].
  injection E as _ <-.
  apply (saved_persisted merged
           (add_requests calls (add_request ApiGetTasks w)) w2 u Mode) in Es.
  exact Es.
Qed.

(** X23.  In localStorage mode, when [createTask], [updateTask], [deleteTask],
    [importTasks] or [syncWithServer] returns, the store holds the
    collection the manager has in memory: a load returns exactly it,
    provided JSON carries it. *)
Theorem store_matches_collection (w w' : World) :
  useIndexedDB w = false ->
  carried w (tasks w') ->
  (exists taskData t, createTask taskData w = (Ok t, w')) \/
  (exists taskId updates t, updateTask taskId updates w = (Ok t, w')) \/
  (exists taskId t, deleteTask apiClient_deleteTask taskId w = (Ok t, w')) \/
  (exists data r, importTasks data w = (Ok r, w')) \/
  (exists r, syncWithServer w = (Ok r, w')) ->
  loadTasks w' = (Ok (tasks w'), w').
Proof.
  intros Mode C Op. apply (persisted_loads w w'); [|exact C].
  destruct Op as [(d & t & E)|[(i & u & t & E)|[(i & t & E)|[(d & r & E)|(r & E)]]]].
  - exact (createTask_persisted d w w' t Mode E).
  - exact (updateTask_persisted i u w w' t Mode E).
  - exact (deleteTask_persisted i w w' t Mode E).
  - exact (importTasks_persisted d w w' r Mode E).
  - exact (syncWithServer_persisted w w' r Mode E).
Qed.

End Persisted.

(** ** Syncing again *)

Lemma map_set_fresh k v (m : JSMap) :
  ~ In k (map fst m) -> map_set k v m = m ++ [(k, v)].
Proof.
  induction m as [|[k' v'] m IH]; simpl; [reflexivity|]. intros N.
  rewrite strict_equal_ne by (intros ->; apply N; auto).
  rewrite IH by (intros I; apply N; auto). reflexivity.
Qed.

Lemma map_set_same k v (m : JSMap) :
  List.NoDup (map fst m) -> In (k, v) m -> primitive k = true ->
  map_set k v m = m.
Proof.
  induction m as [|[k' v'] m IH]; simpl; [intros _ []|].
  intros D I Pk. inversion D as [|? ? Nk Dm]; subst.
  destruct I as [[= -> ->]|I].
  - rewrite strict_equal_refl by exact Pk. reflexivity.
  - rewrite strict_equal_ne.
    + rewrite IH by assumption. reflexivity.
    + intros ->. apply Nk. apply in_map_iff. exists (k, v). auto.
Qed.

(** A task map is the map of its values. *)
Lemma put_fold_values (rest : JSMap) : forall acc,
  keyed (acc ++ rest) ->
  fold_left put_task (map_values rest) acc = acc ++ rest.
Proof.
  induction rest as [|[k v] rest IH]; intros acc K; simpl.
  - rewrite app_nil_r. reflexivity.
  - assert (k = id_of v /\ ~ In k (map fst acc)) as [-> Nk].
    { destruct K as [F D]. rewrite Forall_app in F. destruct F as [_ F].
      inversion F as [|? ? [E _] _]; subst. split; [exact E|].
      rewrite map_app in D. simpl in D.
      apply NoDup_remove_2 in D. intros I. apply D.
      apply in_or_app. auto. }
    unfold put_task at 2. rewrite map_set_fresh by exact Nk.
    rewrite IH by (rewrite <- app_assoc; exact K).
    rewrite <- app_assoc. reflexivity.
Qed.

Section SyncAgain.
Context `{Platform}.

Lemma merge_step_held (m : JSMap) cs s :
  keyed m -> is_task s = true ->
  resolve (map_get (id_of s) m) s = map_get (id_of s) m ->
  truthy (map_get (id_of s) m) = true ->
  fst (merge_step (m, cs) s) = m.
Proof.
  intros K Ts R T. rewrite merge_step_resolve. cbv zeta. cbn [fst].
  unfold resolve in R. destruct (pushes (map_get (id_of s) m) s);
    [reflexivity|].
  unfold put_task. apply map_set_same.
  - destruct K as [_ D]. exact D.
  - rewrite R at 2. apply map_get_in. exact T.
  - apply is_task_primitive. exact Ts.
Qed.

(** Merged once more with the same server tasks, the merged tasks come out
    as they are. *)
Lemma merge_fold_again L S :
  Forall (fun t => is_task t = true) L ->
  Forall (fun t => is_task t = true) S ->
  List.NoDup (ids S) ->
  fst (merge_fold (map_values (fst (merge_fold L S))) S) = fst (merge_fold L S).
Proof.
  intros FL FS DS. set (M := fst (merge_fold L S)).
  assert (keyed M) as K by (apply merge_fold_keyed; assumption).
  unfold merge_fold at 1.
  rewrite (put_fold_values M []) by exact K. cbn [app].
  assert (forall s, In s S ->
          resolve (map_get (id_of s) M) s = map_get (id_of s) M /\
          truthy (map_get (id_of s) M) = true) as Hs.
  { intros s Is. rewrite List.Forall_forall in FS.
    assert (map_get (id_of s) M
            = resolve (map_get (id_of s) (fold_left put_task L [])) s) as E.
    { unfold M, merge_fold. apply merge_fold_get; [exact DS| |exact Is].
      apply List.Forall_forall. exact FS. }
    rewrite E. unfold resolve.
    destruct (pushes (map_get (id_of s) (fold_left put_task L [])) s) eqn:Ps.
    - rewrite Ps. split; [reflexivity|].
      unfold pushes in Ps. apply andb_true_iff in Ps. tauto.
    - split; [|apply is_task_truthy; auto].
      destruct (pushes s s); reflexivity. }
  clearbody M. clear -K Hs FS. revert Hs FS.
  generalize (@nil ApiCall). induction S as [|s S IH]; intros cs Hs FS.
  - reflexivity.
  - inversion FS as [|? ? Ts FS']; subst. cbn [fold_left].
    destruct (Hs s (or_introl eq_refl)) as [R T].
    pose proof (merge_step_held M cs s K Ts R T) as E.
    destruct (merge_step (M, cs) s) as [m' cs'] eqn:Em. cbn [fst] in E.
    subst m'. apply IH; [|exact FS'].
    intros x Ix. apply Hs. right. exact Ix.
Qed.

Lemma saveTasks_server ts (w : World) : server (snd (saveTasks ts w)) = server w.
Proof.
  unfold saveTasks. rewrite bind_run. unfold read at 1. cbv beta iota.
  destruct (useIndexedDB w).
  - unfold saveTasksIndexedDB. rewrite bind_run. unfold read at 1.
    cbv beta iota. destruct (db w) as [d|]; [|reflexivity].
    destruct (idb_clear_add d ts); reflexivity.
  - unfold saveTasksLocalStorage, try_catch. rewrite bind_run.
    unfold read at 1. cbv beta iota. unfold localStorage_setItem.
    rewrite bind_run. unfold read at 1. cbv beta iota.
    destruct (_ <=? _)%N; reflexivity.
Qed.

(** X24.  When [syncWithServer] has returned, a second [syncWithServer] that
    gets the same answer from the server leaves the collection as the
    first left it, whether or not its save succeeds. *)
Theorem syncWithServer_again (w w1 : World) (S r : list JSValue) :
  server w = Some S ->
  Forall (fun t => is_task t = true) (tasks w) ->
  Forall (fun t => is_task t = true) S ->
  List.NoDup (ids S) ->
  syncWithServer w = (Ok r, w1) ->
  server w1 = Some S /\ r = tasks w1 /\
  tasks (snd (syncWithServer w1)) = tasks w1.
Proof.
  intros Es FL FS DS E. rewrite syncWithServer_run, Es in E. cbv zeta in E.
  rewrite (mergeTasks_run (tasks w) S _ FL FS) in E.
  set (M := fst (merge_fold (tasks w) S)) in *.
  pose proof (saveTasks_tasks (map_values M)
                (set_tasks (map_values M)
                   (add_requests (snd (merge_fold (tasks w) S))
                      (add_request ApiGetTasks w)))) as Et.
  pose proof (saveTasks_server (map_values M)
                (set_tasks (map_values M)
                   (add_requests (snd (merge_fold (tasks w) S))
                      (add_request ApiGetTasks w)))) as Ev.
  destruct (saveTasks _ _) as [[u|] w2]; [|discriminate].
  cbn [snd] in Et, Ev. injection E as <- <-.
  assert (tasks (set_lastSyncTime (JStr (clock w2)) w2) = map_values M) as T1
    by exact Et.
  assert (server (set_lastSyncTime (JStr (clock w2)) w2) = Some S) as S1
    by (rewrite <- Es; exact Ev).
  split; [exact S1|]. split; [reflexivity|].
  set (w1 := set_lastSyncTime (JStr (clock w2)) w2) in *.
  rewrite syncWithServer_run, S1, T1. cbv zeta.
  assert (Forall (fun t => is_task t = true) (map_values M)) as FM.
  { apply List.Forall_forall. intros x Ix.
    apply (keyed_values M x); [|exact Ix].
    apply merge_fold_keyed; assumption. }
  rewrite (mergeTasks_run (map_values M) S _ FM FS).
  unfold M at 1 2 3. rewrite (merge_fold_again (tasks w) S FL FS DS).
  fold M.
  pose proof (saveTasks_tasks (map_values M)
                (set_tasks (map_values M)
                   (add_requests (snd (merge_fold (map_values M) S))
                      (add_request ApiGetTasks w1)))) as Et2.
  destruct (saveTasks _ _) as [[u2|] w3]; exact Et2.
Qed.

End SyncAgain.

(** ** Sorting *)

Lemma insert_by_perm comparefn x : forall sorted l,
  insert_by comparefn x sorted = Ok l -> Permutation (x :: sorted) l.
Proof.
  induction sorted as [|y rest IH]; intros l; simpl.
  - intros [= <-]. reflexivity.
  - destruct (comparefn x y) as [v|]; [|discriminate]. simpl.
    destruct (0 <? default 0 v)%Z.
    + destruct (insert_by comparefn x rest) as [rest'|]; [|discriminate].
      simpl. intros [= <-]. rewrite perm_swap. constructor. auto.
    + intros [= <-]. reflexivity.
Qed.

Lemma sort_by_perm comparefn : forall l l',
  sort_by comparefn l = Ok l' -> Permutation l l'.
Proof.
  induction l as [|x l IH]; intros l'; simpl.
  - intros [= <-]. reflexivity.
  - destruct (sort_by comparefn l) as [sorted|]; [|discriminate]. simpl.
    intros E. apply insert_by_perm in E. rewrite <- E. constructor. auto.
Qed.

Lemma partition_perm {A} (f : A -> bool) l :
  Permutation l (List.filter (fun v => negb (f v)) l ++ List.filter f l).
Proof.
  induction l as [|x l IH]; simpl; [reflexivity|].
  destruct (f x); simpl.
  - rewrite <- Permutation_middle. constructor. exact IH.
  - constructor. exact IH.
Qed.

Lemma Array_sort_perm comparefn l l' :
  Array_sort comparefn l = Ok l' -> Permutation l l'.
Proof.
  unfold Array_sort.
  destruct (sort_by comparefn _) as [sorted|] eqn:E; [|discriminate].
  simpl. intros [= <-]. apply sort_by_perm in E.
  rewrite <- E. apply partition_perm.
Qed.

(** The sort under a comparison function that agrees with a total
    preorder [le] on the elements that are [ok]. *)
Section Sorted.
Variable comparefn : JSValue -> JSValue -> Result (option Z).
Variable ok : JSValue -> Prop.
Variable le : JSValue -> JSValue -> Prop.
Variable same : JSValue -> JSValue -> bool.
Hypothesis compares : forall a b, ok a -> ok b ->
  exists v, comparefn a b = Ok v /\ ((0 <? default 0 v)%Z = false <-> le a b).
Hypothesis le_total : forall a b, le a b \/ le b a.
Hypothesis le_trans : forall a b c, le a b -> le b c -> le a c.
Hypothesis same_le : forall a b, same a b = true <-> le a b /\ le b a.
Hypothesis ok_defined : forall a, ok a -> is_undefined a = false.

Lemma insert_by_sorted x : forall sorted,
  ok x -> Forall ok sorted -> StronglySorted le sorted ->
  exists l,
    insert_by comparefn x sorted = Ok l /\
    StronglySorted le l /\
    forall t, List.filter (same t) l =
              (if same t x then [x] else []) ++ List.filter (same t) sorted.
Proof.
  induction sorted as [|y rest IH]; intros Ox Fo So.
  - exists [x]. split; [reflexivity|]. split.
    + repeat constructor.
    + intros t. simpl. destruct (same t x); reflexivity.
  - inversion Fo as [|? ? Oy Fr]; subst.
    inversion So as [|? ? Sr Ly]; subst. cbn [insert_by].
    destruct (compares x y Ox Oy) as (v & -> & Hv). cbn [mbind Result_bind].
    destruct (0 <? default 0 v)%Z eqn:Ev.
    + assert (~ le x y) as Nxy by (intros L; apply Hv in L; discriminate).
      assert (le y x) as Lyx by (destruct (le_total x y); tauto).
      destruct (IH Ox Fr Sr) as (l & Ei & Sl & St). rewrite Ei. simpl.
      exists (y :: l). split; [reflexivity|]. split.
      * constructor; [exact Sl|].
        pose proof (insert_by_perm comparefn x rest l Ei) as P.
        apply List.Forall_forall. intros z Iz.
        apply (Permutation_in _ (Permutation_sym P)) in Iz.
        destruct Iz as [<-|Iz]; [exact Lyx|].
        rewrite List.Forall_forall in Ly. auto.
      * intros t. simpl. rewrite St.
        destruct (same t y) eqn:Ty, (same t x) eqn:Tx; try reflexivity.
        exfalso. apply Nxy. apply same_le in Ty, Tx.
        apply le_trans with t; tauto.
    + assert (le x y) as Lxy by (apply Hv; reflexivity).
      exists (x :: y :: rest). split; [reflexivity|]. split.
      * constructor; [exact So|]. constructor; [exact Lxy|].
        eapply Forall_impl; [exact Ly|]. intros z. apply le_trans. exact Lxy.
      * intros t. simpl. destruct (same t x); reflexivity.
Qed.

Lemma sort_by_sorted : forall l,
  Forall ok l ->
  exists l',
    sort_by comparefn l = Ok l' /\ Permutation l l' /\
    StronglySorted le l' /\
    forall t, List.filter (same t) l' = List.filter (same t) l.
Proof.
  induction l as [|x l IH]; intros Fo.
  - exists []. repeat split; constructor.
  - inversion Fo as [|? ? Ox Fl]; subst.
    destruct (IH Fl) as (sorted & Es & Ps & Ss & Ts). simpl. rewrite Es. simpl.
    assert (Forall ok sorted) as Fs.
    { apply List.Forall_forall. intros z Iz.
      rewrite List.Forall_forall in Fl. apply Fl.
      apply (Permutation_in _ (Permutation_sym Ps)). exact Iz. }
    destruct (insert_by_sorted x sorted Ox Fs Ss) as (l' & Ei & Si & Ti).
    exists l'. split; [exact Ei|]. split; [|split; [exact Si|]].
    + apply insert_by_perm in Ei. rewrite <- Ei. constructor. exact Ps.
    + intros t. rewrite Ti, Ts. simpl. destruct (same t x); reflexivity.
Qed.

Lemma Array_sort_sorted l :
  Forall ok l ->
  exists l',
    Array_sort comparefn l = Ok l' /\ Permutation l l' /\
    StronglySorted le l' /\
    forall t, List.filter (same t) l' = List.filter (same t) l.
Proof.
  intros Fo. unfold Array_sort.
  assert (List.filter (fun v => negb (is_undefined v)) l = l) as ->.
  { apply filter_all_true. eapply Forall_impl; [exact Fo|].
    intros a Oa. rewrite (ok_defined a Oa). reflexivity. }
  assert (List.filter is_undefined l = []) as ->.
  { apply filter_none. eapply Forall_impl; [exact Fo|]. exact ok_defined. }
  destruct (sort_by_sorted l Fo) as (l' & -> & P & S & T).
  exists l'. simpl. rewrite app_nil_r. auto.
Qed.

End Sorted.

Section SortingTasks.
Context `{Platform}.
Variable localeCompare : string -> string -> Z.

(** X16.  Whatever the order asked for, what [sortTasks] returns holds the same
    tasks as the list it was given, each as often. *)
Theorem sortTasks_permutes (tasks : list JSValue) (sortBy : JSValue)
  (l : list JSValue) :
  sortTasks localeCompare tasks sortBy = Ok l -> Permutation tasks l.
Proof.
  unfold sortTasks.
  repeat (match goal with
          | |- (if ?c then _ else _) = _ -> _ =>
              destruct c; [apply Array_sort_perm|]
          end).
  intros [= <-]. reflexivity.
Qed.

Lemma by_date_compares field (descending : bool) a b :
  dated field a -> dated field b ->
  exists v, by_date field descending a b = Ok v /\
    ((0 <? default 0 v)%Z = false <->
     if descending then (date_of field b <= date_of field a)%Z
     else (date_of field a <= date_of field b)%Z).
Proof.
  intros [Na Da] [Nb Db]. unfold by_date, prop, date_of.
  rewrite Na, Nb. cbn [mbind Result_bind].
  destruct (Date_value (get a field)) as [x|]; [|congruence].
  destruct (Date_value (get b field)) as [y|]; [|congruence].
  destruct descending; eexists; (split; [reflexivity|]); simpl;
    rewrite Z.ltb_ge; lia.
Qed.

Lemma dated_defined field a : dated field a -> is_undefined a = false.
Proof. intros [N _]. destruct a; try reflexivity; discriminate. Qed.

(** X17.  By [createdAt] or [updatedAt], on tasks whose field is a date:
    [-desc] puts later dates first and [-asc] earlier dates first, and
    tasks with one date stay in the order they had. *)
Theorem sortTasks_by_date (tasks : list JSValue) (field : string) :
  In field ["createdAt"; "updatedAt"] ->
  Forall (dated field) tasks ->
  exists newest oldest,
    sortTasks localeCompare tasks (JStr (field ++ "-desc")) = Ok newest /\
    sortTasks localeCompare tasks (JStr (field ++ "-asc")) = Ok oldest /\
    StronglySorted (fun a b => (date_of field b <= date_of field a)%Z) newest /\
    StronglySorted (fun a b => (date_of field a <= date_of field b)%Z) oldest /\
    forall t,
      List.filter (same_date field t) newest
        = List.filter (same_date field t) tasks /\
      List.filter (same_date field t) oldest
        = List.filter (same_date field t) tasks.
Proof.
  intros If F.
  destruct (Array_sort_sorted (by_date field true) (dated field)
              (fun a b => (date_of field b <= date_of field a)%Z)
              (same_date field)) with (l := tasks)
    as (newest & En & _ & Sn & Tn); try exact F.
  { intros a b Da Db. exact (by_date_compares field true a b Da Db). }
  { intros a b. lia. }
  { intros a b c. lia. }
  { intros a b. unfold same_date. rewrite Z.eqb_eq. lia. }
  { apply dated_defined. }
  destruct (Array_sort_sorted (by_date field false) (dated field)
              (fun a b => (date_of field a <= date_of field b)%Z)
              (same_date field)) with (l := tasks)
    as (oldest & Eo & _ & So & To); try exact F.
  { intros a b Da Db. exact (by_date_compares field false a b Da Db). }
  { intros a b. lia. }
  { intros a b c. lia. }
  { intros a b. unfold same_date. rewrite Z.eqb_eq. lia. }
  { apply dated_defined. }
  exists newest, oldest.
  split; [|split; [|split; [exact Sn|split; [exact So|]]]].
  - destruct If as [<-|[<-|[]]]; exact En.
  - destruct If as [<-|[<-|[]]]; exact Eo.
  - intros t. split; [apply Tn|apply To].
Qed.

Lemma by_dueDate_compares (descending : bool) a b :
  due_ok a -> due_ok b ->
  exists v, by_dueDate descending a b = Ok v /\
    ((0 <? default 0 v)%Z = false <->
     if descending then due_desc a b else due_asc a b).
Proof.
  intros [Na Da] [Nb Db]. unfold by_dueDate, prop, due_desc, due_asc, due, date_of.
  rewrite Na, Nb. cbn [mbind Result_bind].
  destruct (truthy (get a "dueDate")), (truthy (get b "dueDate"));
    cbn [negb].
  - destruct (Date_value (get a "dueDate")) as [x|];
      [|exact (False_ind _ (Da eq_refl eq_refl))].
    destruct (Date_value (get b "dueDate")) as [y|];
      [|exact (False_ind _ (Db eq_refl eq_refl))].
    destruct descending; eexists; (split; [reflexivity|]); simpl;
      rewrite Z.ltb_ge; lia.
  - destruct descending; eexists; (split; [reflexivity|]); simpl;
      split; try discriminate; try tauto.
  - destruct descending; eexists; (split; [reflexivity|]); simpl;
      split; try discriminate; try tauto.
  - destruct descending; eexists; (split; [reflexivity|]); simpl; tauto.
Qed.

Lemma due_ok_defined a : due_ok a -> is_undefined a = false.
Proof. intros [N _]. destruct a; try reflexivity; discriminate. Qed.

(** X18.  By due date, on tasks whose due date, when they have one, is a date:
    [dueDate-asc] puts the earlier due dates first and the tasks without a
    due date last, [dueDate-desc] the tasks without a due date first and
    then the later due dates; tasks that compare equal stay in the order
    they had. *)
Theorem sortTasks_by_dueDate (tasks : list JSValue) :
  Forall due_ok tasks ->
  exists soonest latest,
    sortTasks localeCompare tasks (JStr "dueDate-asc") = Ok soonest /\
    sortTasks localeCompare tasks (JStr "dueDate-desc") = Ok latest /\
    StronglySorted due_asc soonest /\
    StronglySorted due_desc latest /\
    forall t,
      List.filter (same_due t) soonest = List.filter (same_due t) tasks /\
      List.filter (same_due t) latest = List.filter (same_due t) tasks.
Proof.
  intros F.
  destruct (Array_sort_sorted (by_dueDate false) due_ok due_asc same_due)
    with (l := tasks) as (soonest & Es & _ & Ss & Ts); try exact F.
  { intros a b Da Db. exact (by_dueDate_compares false a b Da Db). }
  { intros a b. unfold due_asc. destruct (due a), (due b); try tauto. lia. }
  { intros a b c. unfold due_asc. destruct (due a), (due b), (due c);
      try tauto. lia. }
  { intros a b. unfold same_due, due_asc. destruct (due a), (due b);
      rewrite ?Z.eqb_eq; try lia; split; try tauto; try discriminate. }
  { apply due_ok_defined. }
  destruct (Array_sort_sorted (by_dueDate true) due_ok due_desc same_due)
    with (l := tasks) as (latest & El & _ & Sl & Tl); try exact F.
  { intros a b Da Db. exact (by_dueDate_compares true a b Da Db). }
  { intros a b. unfold due_desc. destruct (due a), (due b); try tauto. lia. }
  { intros a b c. unfold due_desc. destruct (due a), (due b), (due c);
      try tauto. lia. }
  { intros a b. unfold same_due, due_desc. destruct (due a), (due b);
      rewrite ?Z.eqb_eq; try lia; split; try tauto; try discriminate. }
  { apply due_ok_defined. }
  exists soonest, latest.
  split; [exact Es|]. split; [exact El|]. split; [exact Ss|].
  split; [exact Sl|]. intros t. split; [apply Ts|apply Tl].
Qed.

Lemma priority_weight_rank high medium low t :
  prioritised t ->
  priority_weight high medium low (get t "priority") =
  Ok (Some (if (priority_rank t =? 3)%Z then high
            else if (priority_rank t =? 2)%Z then medium else low)).
Proof.
  intros [_ R]. unfold priority_rank in *. unfold priority_weight.
  destruct (get t "priority") as [| | | |s| |]; try lia.
  cbn [ToString mbind Result_bind].
  destruct (s =? "High"); [reflexivity|].
  destruct (s =? "Medium"); [reflexivity|].
  destruct (s =? "Low"); [reflexivity|]. lia.
Qed.

Lemma priority_rank_range t : prioritised t -> (1 <= priority_rank t <= 3)%Z.
Proof.
  intros [_ R]. split; [exact R|]. unfold priority_rank.
  destruct (get t "priority"); try lia.
  destruct (s =? "High"); [lia|]. destruct (s =? "Medium"); [lia|].
  destruct (s =? "Low"); lia.
Qed.

Lemma by_priority_compares (high_first : bool) a b :
  prioritised a -> prioritised b ->
  exists v,
    (if high_first then by_priority 3 2 1 a b else by_priority 1 2 3 a b)
    = Ok v /\
    ((0 <? default 0 v)%Z = false <->
     if high_first then (priority_rank b <= priority_rank a)%Z
     else (priority_rank a <= priority_rank b)%Z).
Proof.
  intros Pa Pb. pose proof (priority_rank_range a Pa) as Ra.
  pose proof (priority_rank_range b Pb) as Rb.
  unfold by_priority, prop. destruct Pa as [Na ?], Pb as [Nb ?].
  rewrite Na, Nb. cbn [mbind Result_bind].
  destruct high_first;
    rewrite !priority_weight_rank by (split; assumption);
    cbn [mbind Result_bind js_minus]; eexists; (split; [reflexivity|]);
    cbn [default from_option]; unfold id; rewrite Z.ltb_ge;
    destruct (priority_rank a =? 3)%Z eqn:A3,
             (priority_rank a =? 2)%Z eqn:A2,
             (priority_rank b =? 3)%Z eqn:B3,
             (priority_rank b =? 2)%Z eqn:B2; lia.
Qed.

Lemma prioritised_defined a : prioritised a -> is_undefined a = false.
Proof. intros [N _]. destruct a; try reflexivity; discriminate. Qed.

(** X19.  By priority, on tasks whose priority is High, Medium or Low:
    [priority-high] puts High before Medium before Low, [priority-low] the
    other way round, and tasks of one priority stay in the order they
    had. *)
Theorem sortTasks_by_priority (tasks : list JSValue) :
  Forall prioritised tasks ->
  exists high_first low_first,
    sortTasks localeCompare tasks (JStr "priority-high") = Ok high_first /\
    sortTasks localeCompare tasks (JStr "priority-low") = Ok low_first /\
    StronglySorted (fun a b => (priority_rank b <= priority_rank a)%Z)
                   high_first /\
    StronglySorted (fun a b => (priority_rank a <= priority_rank b)%Z)
                   low_first /\
    forall t,
      List.filter (same_priority t) high_first
        = List.filter (same_priority t) tasks /\
      List.filter (same_priority t) low_first
        = List.filter (same_priority t) tasks.
Proof.
  intros F.
  destruct (Array_sort_sorted (by_priority 3 2 1) prioritised
              (fun a b => (priority_rank b <= priority_rank a)%Z)
              same_priority) with (l := tasks)
    as (high_first & Eh & _ & Sh & Th); try exact F.
  { intros a b Pa Pb. exact (by_priority_compares true a b Pa Pb). }
  { intros a b. lia. }
  { intros a b c. lia. }
  { intros a b. unfold same_priority. rewrite Z.eqb_eq. lia. }
  { apply prioritised_defined. }
  destruct (Array_sort_sorted (by_priority 1 2 3) prioritised
              (fun a b => (priority_rank a <= priority_rank b)%Z)
              same_priority) with (l := tasks)
    as (low_first & El & _ & Sl & Tl); try exact F.
  { intros a b Pa Pb. exact (by_priority_compares false a b Pa Pb). }
  { intros a b. lia. }
  { intros a b c. lia. }
  { intros a b. unfold same_priority. rewrite Z.eqb_eq. lia. }
  { apply prioritised_defined. }
  exists high_first, low_first.
  split; [exact Eh|]. split; [exact El|]. split; [exact Sh|].
  split; [exact Sl|]. intros t. split; [apply Th|apply Tl].
Qed.

End SortingTasks.

(** ** The sync routes *)

Section SyncRoute.
Context `{Platform} `{SyncQueries}.








(** X21.  The tasks POST /sync returns are in the order of their [updatedAt],
    latest first, whenever each of them has a date there. *)
Theorem post_sync_sorted (database database' : Database)
  (userId body rbody : JSValue) :
  post_sync database userId body = (database', mkResponse 200 rbody) ->
  exists tasks,
    get rbody "tasks" = JArr tasks /\
    (Forall (dated "updatedAt") tasks ->
     StronglySorted
       (fun a b => (date_of "updatedAt" b <= date_of "updatedAt" a)%Z) tasks).
Proof.
  unfold post_sync.
  destruct (prop body "tasks") as [[| | | | |clientTasks|]|];
    try discriminate.
  destruct (sync_transaction database userId clientTasks)
    as [[[[d serverTasks] plan] merged]|]; [|discriminate].
  unfold sync_response.
  destruct (Array_sort _ merged) as [sorted|] eqn:E; [|discriminate].
  cbn [mbind Result_bind].
  destruct (taskMap_of serverTasks) as [sm|]; [|discriminate].
  cbn [mbind Result_bind].
  destruct (Array_filter _ clientTasks) as [known|]; [|discriminate].
  cbn [mbind Result_bind mret Result_ret]. intros [= _ <-].
  exists sorted. split; [reflexivity|]. intros F.
  pose proof (Array_sort_perm _ _ _ E) as P.
  assert (Forall (dated "updatedAt") merged) as Fm.
  { apply List.Forall_forall. intros x Ix.
    rewrite List.Forall_forall in F. apply F.
    apply (Permutation_in _ P). exact Ix. }
  destruct (Array_sort_sorted (by_date "updatedAt" true) (dated "updatedAt")
              (fun a b => (date_of "updatedAt" b <= date_of "updatedAt" a)%Z)
              (same_date "updatedAt")) with (l := merged)
    as (l' & El & _ & Sl & _); try exact Fm.
  { intros a b Da Db. exact (by_date_compares "updatedAt" true a b Da Db). }
  { intros a b. lia. }
  { intros a b c. lia. }
  { intros a b. unfold same_date. rewrite Z.eqb_eq. lia. }
  { apply dated_defined. }
  rewrite E in El. injection El as <-. exact Sl.
Qed.




End SyncRoute.

(** ** The authentication middleware *)

Lemma split_space_end s : forall piece,
  spaceless s = true ->
  split_space s piece = [(rev_string piece EmptyString ++ s)%string].
Proof.
  induction s as [|c s IH]; intros piece; simpl.
  - intros _. rewrite append_empty. reflexivity.
  - destruct (nat_of_ascii c =? 32)%nat; [discriminate|]. simpl. intros S.
    rewrite IH by exact S. simpl. rewrite rev_string_app, append_assoc.
    reflexivity.
Qed.

Lemma split_space_piece s rest : forall piece,
  spaceless s = true ->
  split_space (s ++ String " " rest)%string piece =
  (rev_string piece EmptyString ++ s)%string :: split_space rest EmptyString.
Proof.
  induction s as [|c s IH]; intros piece; simpl.
  - intros _. rewrite append_empty. reflexivity.
  - destruct (nat_of_ascii c =? 32)%nat; [discriminate|]. simpl. intros S.
    rewrite IH by exact S. simpl. rewrite rev_string_app, append_assoc.
    reflexivity.
Qed.

Section MiddlewareFacts.
Variable jwt_verify : string -> option JSValue.

(** X25.  [authenticateToken] answers 401, without looking at any token, when
    there is no Authorization header or the header has no space in it.
    Otherwise the token it verifies is what stands between the first and
    the second space of the header: the word before it is not looked at,
    and what follows the second space is dropped. *)
Theorem authenticateToken_reads_second_piece :
  authenticateToken jwt_verify None
    = Answered (mkResponse 401 (message "Access token required")) /\
  (forall header, spaceless header = true ->
     authenticateToken jwt_verify (Some header)
     = Answered (mkResponse 401 (message "Access token required"))) /\
  (forall scheme token rest,
     spaceless scheme = true -> spaceless token = true ->
     token <> EmptyString ->
     rest = EmptyString \/ (exists rest', rest = String " " rest') ->
     authenticateToken jwt_verify (Some (scheme ++ " " ++ token ++ rest)%string)
     = match jwt_verify token with
       | None => Answered (mkResponse 403 (message "Invalid or expired token"))
       | Some user => Next user
       end).
Proof.
  split; [reflexivity|]. split.
  - intros header S. unfold authenticateToken.
    destruct (header =? EmptyString) eqn:E.
    + rewrite E. reflexivity.
    + rewrite split_space_end by exact S. reflexivity.
  - intros scheme token rest Ss St Ne R. unfold authenticateToken.
    assert (((scheme ++ " " ++ token ++ rest)%string =? EmptyString) = false)
      as ->.
    { apply String.eqb_neq. destruct scheme; discriminate. }
    change (scheme ++ " " ++ token ++ rest)%string
      with (scheme ++ String " " (token ++ rest))%string.
    rewrite split_space_piece by exact Ss. cbn [nth_error].
    assert (exists more, split_space (token ++ rest) EmptyString = token :: more)
      as (more & ->).
    { destruct R as [->|(rest' & ->)].
      - rewrite append_empty, split_space_end by exact St. eexists. reflexivity.
      - rewrite split_space_piece by exact St. eexists. reflexivity. }
    apply String.eqb_neq in Ne. rewrite Ne. reflexivity.
Qed.

End MiddlewareFacts.

(** ** Runs on the reference platform *)

Section MoreRuns.
Import Reference Samples ReferenceServer Cases.

Lemma offline_frame taskId : only_requests (offline taskId).
Proof.
  intros w. exists (Throw NetworkError), []. unfold offline, throw.
  f_equal. destruct w. unfold add_requests. simpl. rewrite app_nil_r.
  reflexivity.
Qed.

Lemma unknown_id_witness :
  getTask (JStr "z") (holding [a_local])
    = (Ok JUndefined, holding [a_local]) /\
  deleteTask offline (JStr "z") (holding [a_local])
    = (Throw (Error "Task not found"), holding [a_local]).
Proof.
  apply (unknown_id offline (JStr "z") (holding [a_local]));
    repeat constructor.
Defined.

Lemma deleteTask_removes_first_witness :
  tasks (snd (deleteTask offline (JStr "b") (holding [a_local; b_local; a_stale])))
    = [a_local; a_stale] /\
  fst (deleteTask offline (JStr "b") (holding [a_local; b_local; a_stale]))
    = Ok b_local.
Proof.
  assert (Forall (fun x => nullish x = false) [a_local]) as N
    by (repeat constructor).
  assert (Forall (fun x => has_id (JStr "b") x = false) [a_local]) as F
    by (repeat constructor).
  pose proof (deleteTask_removes_first offline offline_frame (JStr "b")
                (holding [a_local; b_local; a_stale]) [a_local] [a_stale]
                b_local eq_refl N F eq_refl eq_refl) as R.
  cbv zeta in R. destruct R as [Et Er]. split; [exact Et|].
  assert (fst (saveTasks ([a_local] ++ [a_stale])
                 (set_tasks ([a_local] ++ [a_stale])
                    (holding [a_local; b_local; a_stale]))) = Ok tt) as Es
    by (vm_compute; reflexivity).
  rewrite Es in Er. exact Er.
Defined.

Lemma create_then_find_and_delete_witness :
  exists t w1,
    createTask (JObj [("title", JStr "new")]) (holding [a_local]) = (Ok t, w1) /\
    getTask (id_of t) w1 = (Ok t, w1) /\
    tasks (snd (deleteTask offline (id_of t) w1)) = [a_local].
Proof.
  destruct (createTask (JObj [("title", JStr "new")]) (holding [a_local]))
    as [[t|e] w1] eqn:E.
  - exists t, w1. split; [reflexivity|].
    assert (Ok t = Ok (created_task (holding [a_local])
                         (JObj [("title", JStr "new")]))) as Et.
    { change (Ok t) with (fst (Ok t, w1)). rewrite <- E. reflexivity. }
    injection Et as ->.
    assert (Forall (fun x => nullish x = false) (tasks (holding [a_local])))
      as N by (repeat constructor).
    assert (Forall (fun x =>
              has_id (id_of (created_task (holding [a_local])
                               (JObj [("title", JStr "new")]))) x = false)
              (tasks (holding [a_local]))) as F by (repeat constructor).
    pose proof (create_then_find_and_delete offline offline_frame
                  (JObj [("title", JStr "new")]) (holding [a_local]) w1 _
                  E N F) as (_ & Eg & Ed).
    split; [exact Eg|exact Ed].
  - exfalso.
    assert (Throw e = Ok (created_task (holding [a_local])
                            (JObj [("title", JStr "new")]))) as Et.
    { change (Throw e) with (fst (@Throw JSValue e, w1)). rewrite <- E.
      reflexivity. }
    discriminate.
Defined.

Lemma updateTask_fields_witness :
  exists u,
    fst (updateTask (JStr "a") (JObj [("title", JStr "Z")]) (holding [a_local]))
      = Ok u /\
    get u "title" = JStr "Z" /\
    get u "createdAt" = JStr "2024-01-01" /\
    get u "updatedAt" = JStr "2024-01-03T08:00:00.000Z".
Proof.
  destruct (fst (updateTask (JStr "a") (JObj [("title", JStr "Z")])
                   (holding [a_local]))) as [u|e] eqn:E;
    [|exfalso; vm_compute in E; discriminate].
  exists u. split; [reflexivity|].
  assert (List.NoDup (map fst
            [("id", JStr "a"); ("title", JStr "X");
             ("createdAt", JStr "2024-01-01");
             ("updatedAt", JStr "2024-01-02")])) as Dp.
  { repeat constructor; simpl; intros I; intuition discriminate. }
  assert (List.NoDup (map fst [("title", JStr "Z")])) as Du.
  { repeat constructor. simpl. tauto. }
  pose proof (updateTask_fields (JStr "a") (holding [a_local]) [] []
                [("id", JStr "a"); ("title", JStr "X");
                 ("createdAt", JStr "2024-01-01");
                 ("updatedAt", JStr "2024-01-02")]
                [("title", JStr "Z")] u eq_refl (List.Forall_nil _) (List.Forall_nil _)
                eq_refl Dp Du E) as [_ F].
  rewrite !F. repeat split; reflexivity.
Defined.




Lemma filterTasks_selects_witness :
  filterTasks [milk; taxes; nap] (JObj []) = Ok [milk; taxes; nap] /\
  forall l,
    filterTasks [milk; taxes; nap] (JObj [("priority", JStr "High")]) = Ok l ->
    Forall (fun t => strict_equal (get t "priority") (JStr "High") = true) l.
Proof.
  split.
  - apply (filterTasks_selects [milk; taxes; nap] (JObj [])); reflexivity.
  - intros l E.
    destruct (filterTasks_selects [milk; taxes; nap]
                (JObj [("priority", JStr "High")])) as [_ S].
    destruct (S l E) as [_ F].
    apply (F "priority"); [simpl; auto|reflexivity].
Defined.

Lemma import_and_restore_reject_witness :
  importTasks JNull fresh
    = (Throw (Error "Invalid import data format"), fresh) /\
  importTasks (JObj [("tasks", JArr [no_title])]) fresh
    = (Throw (Error "No valid tasks found in import data"), fresh) /\
  restoreFromBackup (JObj [("tasks", JArr [a_local])]) fresh
    = (Throw (Error "No valid tasks found in backup"), fresh).
Proof.
  split; [|split].
  - destruct (import_and_restore_reject JNull fresh) as [B _].
    apply B. left. reflexivity.
  - destruct (import_and_restore_reject
                (JObj [("tasks", JArr [no_title])]) fresh) as [_ V].
    destruct (V [no_title] eq_refl eq_refl) as [Vi _].
    + repeat constructor.
    + apply Vi. repeat constructor.
  - destruct (import_and_restore_reject
                (JObj [("tasks", JArr [a_local])]) fresh) as [_ V].
    destruct (V [a_local] eq_refl eq_refl) as [_ Vr].
    + repeat constructor.
    + apply Vr. repeat constructor.
Defined.

Lemma importTasks_appends_witness :
  tasks (snd (importTasks (JObj [("tasks", JArr [a_server; b_local; b_local])])
                          (holding [a_local])))
  = [a_local; b_local; b_local].
Proof.
  assert (Forall (fun x => nullish x = false) [a_server; b_local; b_local])
    as Ni by (repeat constructor).
  assert (Forall (fun x => nullish x = false) (tasks (holding [a_local])))
    as Nt by (repeat constructor).
  assert (In b_local [a_server; b_local; b_local]) as I by (simpl; auto).
  pose proof (importTasks_appends
                (JObj [("tasks", JArr [a_server; b_local; b_local])])
                [a_server; b_local; b_local] (holding [a_local]) b_local
                eq_refl eq_refl Ni Nt I eq_refl) as R.
  cbv zeta in R. destruct R as [Et _]. exact Et.
Defined.

Lemma export_then_import_witness :
  exists data,
    exportTasks (holding [a_local; b_local])
      = (Ok data, holding [a_local; b_local]) /\
    tasks (snd (importTasks data fresh)) = [a_local; b_local].
Proof.
  assert (Forall (fun t => importable t = true)
            (tasks (holding [a_local; b_local]))) as V by (repeat constructor).
  destruct (export_then_import (holding [a_local; b_local]) fresh eq_refl V)
    as (data & Ee & _ & Ei).
  exists data. split; [exact Ee|]. apply Ei. discriminate.
Defined.

Lemma restore_then_load_witness :
  exists w',
    restoreFromBackup (JObj [("tasks", JArr [milk; no_title])]) fresh
      = (Ok (counts "restored" 1 1), w') /\
    loadTasks w' = (Ok [milk], w') /\ cleanup w' = (Ok [milk], w').
Proof.
  assert (Forall (fun x => nullish x = false) [milk; no_title]) as N
    by (repeat constructor).
  assert (In milk [milk; no_title]) as I by (simpl; auto).
  assert (JSON_parse (JSON_stringify (envelope (clock fresh) [milk]))
          = Some (envelope (clock fresh) [milk])) as P
    by (vm_compute; reflexivity).
  assert (JSON_stringify (envelope (clock fresh) [milk]) <> EmptyString) as Ne
    by (vm_compute; discriminate).
  assert ((N.of_nat (String.length
             (JSON_stringify (envelope (clock fresh) [milk])))
           <= quota fresh)%N) as Q by (vm_compute; discriminate).
  pose proof (restore_then_load (JObj [("tasks", JArr [milk; no_title])])
                [milk; no_title] fresh milk eq_refl eq_refl N I eq_refl
                eq_refl P Ne Q) as R.
  cbv zeta in R. destruct R as (Er & El & Ec & _).
  eexists. split; [exact Er|]. split; [exact El|exact Ec].
Defined.

Lemma queries_agree_with_filterTasks_witness :
  fst (getTasksByPriority (JStr "High") (holding [milk; taxes; nap]))
    = filterTasks [milk; taxes; nap] (JObj [("priority", JStr "High")]).
Proof.
  destruct (queries_agree_with_filterTasks (JStr "High")
              (holding [milk; taxes; nap]) eq_refl) as (_ & _ & E).
  exact E.
Defined.

Lemma cleanup_twice_witness :
  cleanup (stored [no_title; a_local]) = (Ok [a_local], stored [a_local]) /\
  cleanup (stored [a_local]) = (Ok [a_local], stored [a_local]).
Proof.
  assert (cleanup (stored [no_title; a_local])
          = (Ok [a_local], stored [a_local])) as E by exact eq_refl.
  split; [exact E|].
  apply (cleanup_twice (stored [no_title; a_local]) (stored [a_local])
           [a_local]); [reflexivity| |exact E].
  split; [vm_compute; reflexivity|vm_compute; discriminate].
Defined.

Lemma sortTasks_permutes_witness :
  exists l,
    sortTasks by_code [taxes; nap; milk] (JStr "title-asc") = Ok l /\
    Permutation [taxes; nap; milk] l.
Proof.
  destruct (sortTasks by_code [taxes; nap; milk] (JStr "title-asc"))
    as [l|e] eqn:E; [|exfalso; vm_compute in E; discriminate].
  exists l. split; [reflexivity|].
  exact (sortTasks_permutes by_code [taxes; nap; milk] (JStr "title-asc") l E).
Defined.

Lemma sortTasks_by_date_witness :
  exists newest,
    sortTasks by_code [milk; taxes; nap] (JStr "updatedAt-desc") = Ok newest /\
    StronglySorted
      (fun a b => (date_of "updatedAt" b <= date_of "updatedAt" a)%Z) newest.
Proof.
  assert (Forall (dated "updatedAt") [milk; taxes; nap]) as F.
  { repeat constructor; vm_compute; discriminate. }
  assert (In "updatedAt" ["createdAt"; "updatedAt"]) as I by (simpl; auto).
  destruct (sortTasks_by_date by_code [milk; taxes; nap] "updatedAt" I F)
    as (newest & oldest & En & _ & Sn & _).
  exists newest. split; [exact En|exact Sn].
Defined.

Lemma sortTasks_by_dueDate_witness :
  exists soonest,
    sortTasks by_code [nap; milk; taxes] (JStr "dueDate-asc") = Ok soonest /\
    StronglySorted due_asc soonest.
Proof.
  assert (Forall due_ok [nap; milk; taxes]) as F.
  { repeat constructor; try (vm_compute; discriminate). }
  destruct (sortTasks_by_dueDate by_code [nap; milk; taxes] F)
    as (soonest & latest & Es & _ & Ss & _).
  exists soonest. split; [exact Es|exact Ss].
Defined.

Lemma sortTasks_by_priority_witness :
  exists high_first,
    sortTasks by_code [milk; nap; taxes] (JStr "priority-high") = Ok high_first /\
    StronglySorted (fun a b => (priority_rank b <= priority_rank a)%Z)
                   high_first.
Proof.
  assert (Forall prioritised [milk; nap; taxes]) as F.
  { repeat constructor; vm_compute; discriminate. }
  destruct (sortTasks_by_priority by_code [milk; nap; taxes] F)
    as (high_first & low_first & Eh & _ & Sh & _).
  exists high_first. split; [exact Eh|exact Sh].
Defined.


Lemma post_sync_sorted_witness :
  exists database' rbody tasks,
    post_sync table (JStr "u1") (JObj [("tasks", JArr [a_local; b_local])])
      = (database', mkResponse 200 rbody) /\
    get rbody "tasks" = JArr tasks /\
    StronglySorted
      (fun a b => (date_of "updatedAt" b <= date_of "updatedAt" a)%Z) tasks.
Proof.
  destruct (post_sync table (JStr "u1")
              (JObj [("tasks", JArr [a_local; b_local])]))
    as [database' [status rbody]] eqn:E.
  assert (status = 200%nat) as ->.
  { apply (f_equal (fun p => res_status (snd p))) in E.
    vm_compute in E. congruence. }
  destruct (post_sync_sorted table database' (JStr "u1")
              (JObj [("tasks", JArr [a_local; b_local])]) rbody E)
    as (tasks & Et & S).
  exists database', rbody, tasks. split; [reflexivity|]. split; [exact Et|].
  apply S.
  apply (f_equal (fun p => get (res_body (snd p)) "tasks")) in E.
  cbn [snd res_body] in E. rewrite Et in E. vm_compute in E.
  injection E as <-. repeat constructor; vm_compute; discriminate.
Defined.


Lemma store_matches_collection_witness :
  exists t w',
    createTask (JObj [("title", JStr "new")]) (holding [a_local]) = (Ok t, w') /\
    loadTasks w' = (Ok (tasks w'), w').
Proof.
  destruct (createTask (JObj [("title", JStr "new")]) (holding [a_local]))
    as [[t|e] w'] eqn:E.
  - exists t, w'. split; [reflexivity|].
    assert (tasks w' = tasks (snd (createTask (JObj [("title", JStr "new")])
                                     (holding [a_local])))) as Et
      by (rewrite E; reflexivity).
    assert (carried (holding [a_local]) (tasks w')) as C.
    { rewrite Et. split; [vm_compute; reflexivity|vm_compute; discriminate]. }
    apply (store_matches_collection offline offline_frame
             (holding [a_local]) w' eq_refl C).
    left. exists (JObj [("title", JStr "new")]), t. exact E.
  - exfalso.
    assert (Throw e = Ok (created_task (holding [a_local])
                            (JObj [("title", JStr "new")]))) as Et.
    { change (Throw e) with (fst (@Throw JSValue e, w')). rewrite <- E.
      reflexivity. }
    discriminate.
Defined.

Lemma syncWithServer_again_witness :
  exists r w1,
    syncWithServer (set_tasks [a_local; b_local] (answering [a_server; c_server]))
      = (Ok r, w1) /\
    server w1 = Some [a_server; c_server] /\ r = tasks w1 /\
    tasks (snd (syncWithServer w1)) = tasks w1.
Proof.
  destruct (syncWithServer
              (set_tasks [a_local; b_local] (answering [a_server; c_server])))
    as [[r|e] w1] eqn:E.
  - exists r, w1. split; [reflexivity|].
    assert (Forall (fun t => is_task t = true) [a_local; b_local]) as FL
      by (repeat constructor).
    assert (Forall (fun t => is_task t = true) [a_server; c_server]) as FS
      by (repeat constructor).
    assert (List.NoDup (ids [a_server; c_server])) as D.
    { repeat constructor; simpl; intros I; repeat destruct I as [I|I];
        try discriminate; exact I. }
    exact (syncWithServer_again
             (set_tasks [a_local; b_local] (answering [a_server; c_server]))
             w1 [a_server; c_server] r eq_refl FL FS D E).
  - exfalso.
    assert (match fst (syncWithServer
                         (set_tasks [a_local; b_local]
                            (answering [a_server; c_server])))
            with Ok _ => True | Throw _ => False end) as X
      by (vm_compute; exact I).
    rewrite E in X. exact X.
Defined.

Lemma authenticateToken_reads_second_piece_witness :
  authenticateToken one_token (Some "Basic abc and more")
    = Next (JObj [("userId", JStr "u1")]).
Proof.
  destruct (authenticateToken_reads_second_piece one_token) as (_ & _ & T).
  assert ("abc" <> EmptyString) as Ne by discriminate.
  exact (T "Basic" "abc" " and more" eq_refl eq_refl Ne
           (or_intror (ex_intro _ "and more" eq_refl))).
Defined.

End MoreRuns.
